(** * A limit order book and its matching engine

    Shallow embedding of [order.hpp], [orderBook.hpp], [orderBook.cpp] and
    [matchingEngine.cpp], of the conversions of the order type in the two
    servers and of the trade statistics of [dataInterface.cpp], followed by
    the properties of the engine.

    Modelling conventions.
    - Prices are [double]s in the source.  The book only compares them
      ([<], [>], map-key equality, [<= 0]), so a price is an integer number of
      ticks (hundredths): 100.00 is [10000].  NaN and infinities are outside
      the model.
    - [int] quantities and counters are integers.  The [int] arithmetic that
      valid requests can take out of range is the sum of the remaining
      quantities of a level, in [update_market_data] and in the depth
      functions; the model wraps it to 32 bits, two's complement, as the
      builds do ([wrap_int]).  The fill of an order of a session stays
      between 0 and its quantity, and the order counter would need 2^31
      accepted submits to overflow; the model does not follow those.
    - Orders are [std::shared_ptr<Order>] objects shared between the price
      ladders, the id index and the matching loop.  The model keeps them in a
      store ([heap]) addressed by allocation index; ladders and index hold
      addresses, so a fill through one alias is seen through the others.
    - [std::map] ladders are association lists kept in key order by the map's
      comparator; [begin()] is the head.
    - Time stamps are not modelled.
    - The trade callback and the [TRADE:] line on standard output are the
      list [out] of emitted trades, oldest first.
    - [generate_trade_id] draws from a [uniform_int_distribution]; the draws
      are an oracle [dis] (the k-th number the distribution returns).
    - The matching loop keeps references into the ladder across the call of
      [execute_trade], which may erase what they refer to.  A read through
      such a reference has no defined behaviour in C++; the model gives the
      call the outcome [UseAfterFree] and follows it no further. *)

From Stdlib Require Import ZArith Lia Sorted.
From stdpp Require Import base list gmap strings pretty sorting.

Local Open Scope Z_scope.

(** ** order.hpp *)

Inductive OrderType := BUY | SELL.
Inductive OrderStatus := PENDING | PARTIALLY_FILLED | FILLED | CANCELLED | REJECTED.

#[global] Instance OrderType_eq_dec : EqDecision OrderType.
Proof. solve_decision. Defined.
#[global] Instance OrderStatus_eq_dec : EqDecision OrderStatus.
Proof. solve_decision. Defined.

Record Order := mkOrder {
  orderId : string;
  type : OrderType;
  price : Z;
  quantity : Z;
  filledQuantity : Z;
  status : OrderStatus;
  symbol : string;
  clientId : string
}.

(** The constructor [Order(id, t, p, q, sym, client)]. *)
Definition new_Order (id : string) (t : OrderType) (p q : Z) (sym client : string) : Order :=
  mkOrder id t p q 0 PENDING sym client.

Definition isFullyFilled (o : Order) : bool := quantity o <=? filledQuantity o.
Definition getRemainingQuantity (o : Order) : Z := quantity o - filledQuantity o.

Definition set_status (st : OrderStatus) (o : Order) : Order :=
  mkOrder (orderId o) (type o) (price o) (quantity o) (filledQuantity o) st
          (symbol o) (clientId o).

Definition fill (qty : Z) (o : Order) : Order :=
  let o1 := mkOrder (orderId o) (type o) (price o) (quantity o)
                    (filledQuantity o + qty) (status o) (symbol o) (clientId o) in
  if isFullyFilled o1 then set_status FILLED o1
  else if 0 <? filledQuantity o1 then set_status PARTIALLY_FILLED o1
  else o1.

Definition cancel (o : Order) : Order := set_status CANCELLED o.

Record Trade := mkTrade {
  tradeId : string;
  buyOrderId : string;
  sellOrderId : string;
  trade_symbol : string;
  trade_price : Z;
  trade_quantity : Z
}.

(** ** Price ladders: [std::map<double, std::vector<std::shared_ptr<Order>>, Compare>] *)

Definition addr := nat.
Definition ladder := list (Z * list addr).

(** [before t a b]: key [a] is ordered before key [b] in the ladder of side
    [t]; [std::greater] for the bids, [std::less] for the asks. *)
Definition before (t : OrderType) (a b : Z) : bool :=
  match t with BUY => b <? a | SELL => a <? b end.

Fixpoint level_find (p : Z) (m : ladder) : option (list addr) :=
  match m with
  | [] => None
  | (k, v) :: m' => if k =? p then Some v else level_find p m'
  end.

Fixpoint level_erase (p : Z) (m : ladder) : ladder :=
  match m with
  | [] => []
  | (k, v) :: m' => if k =? p then m' else (k, v) :: level_erase p m'
  end.

(** Assignment through a reference to the vector of an existing node. *)
Fixpoint level_set (p : Z) (v' : list addr) (m : ladder) : ladder :=
  match m with
  | [] => []
  | (k, v) :: m' => if k =? p then (k, v') :: m' else (k, v) :: level_set p v' m'
  end.

(** [m[p].push_back(a)]: [operator[]] creates an empty vector at its ordered
    position when the key is absent. *)
Fixpoint level_push (t : OrderType) (p : Z) (a : addr) (m : ladder) : ladder :=
  match m with
  | [] => [(p, [a])]
  | (k, v) :: m' =>
      if k =? p then (k, v ++ [a]) :: m'
      else if before t p k then (p, [a]) :: (k, v) :: m'
      else (k, v) :: level_push t p a m'
  end.

Definition keys (m : ladder) : list Z := map fst m.

(** ** orderBook.hpp *)

Record OrderBook := mkBook {
  buyOrders : ladder;
  sellOrders : ladder;
  orderMap : gmap string addr;
  bestBid : Z;
  bestAsk : Z;
  bidSize : Z;
  askSize : Z
}.

Definition empty_book : OrderBook := mkBook [] [] ∅ 0 0 0 0.

(** The state of a [MatchingEngine] and of the memory it points into. *)
Record State := mkState {
  heap : list Order;
  book : OrderBook;
  orderCounter : Z;
  draws : nat;
  out : list Trade
}.

Definition init : State := mkState [] empty_book 0 0%nat [].

(** Dereferencing a [shared_ptr]; it never dangles, the default is for
    addresses no pointer holds. *)
Definition null_Order : Order := mkOrder "" BUY 0 0 0 REJECTED "" "".
Definition deref (h : list Order) (a : addr) : Order := default null_Order (h !! a).

Definition set_book (b : OrderBook) (s : State) : State :=
  mkState (heap s) b (orderCounter s) (draws s) (out s).
Definition set_heap (h : list Order) (s : State) : State :=
  mkState h (book s) (orderCounter s) (draws s) (out s).

Definition side (t : OrderType) (b : OrderBook) : ladder :=
  match t with BUY => buyOrders b | SELL => sellOrders b end.

Definition set_side (t : OrderType) (m : ladder) (b : OrderBook) : OrderBook :=
  match t with
  | BUY => mkBook m (sellOrders b) (orderMap b) (bestBid b) (bestAsk b) (bidSize b) (askSize b)
  | SELL => mkBook (buyOrders b) m (orderMap b) (bestBid b) (bestAsk b) (bidSize b) (askSize b)
  end.

Definition set_orderMap (om : gmap string addr) (b : OrderBook) : OrderBook :=
  mkBook (buyOrders b) (sellOrders b) om (bestBid b) (bestAsk b) (bidSize b) (askSize b).

(** ** orderBook.cpp *)

(** An [int] after an addition: the sum wrapped to 32 bits, two's
    complement. *)
Definition wrap_int (z : Z) : Z := (z + 2 ^ 31) mod 2 ^ 32 - 2 ^ 31.

(** The sum of the remaining quantities of a level, added up in an [int]
    from 0 ([bidSize += ...], [totalSize += ...]). *)
Definition level_size (h : list Order) (v : list addr) : Z :=
  foldl (fun acc a => wrap_int (acc + getRemainingQuantity (deref h a))) 0 v.

Definition front_price (m : ladder) : Z :=
  match m with [] => 0 | (p, _) :: _ => p end.
Definition front_size (h : list Order) (m : ladder) : Z :=
  match m with [] => 0 | (_, v) :: _ => level_size h v end.

Definition update_market_data (s : State) : State :=
  let b := book s in
  set_book (mkBook (buyOrders b) (sellOrders b) (orderMap b)
                   (front_price (buyOrders b)) (front_price (sellOrders b))
                   (front_size (heap s) (buyOrders b))
                   (front_size (heap s) (sellOrders b))) s.

(** [add_order(order)], [order] being the object at address [a]. *)
Definition add_order (a : addr) (s : State) : State :=
  let o := deref (heap s) a in
  if quantity o <=? 0 then s
  else
    let b := set_orderMap (<[orderId o := a]> (orderMap (book s))) (book s) in
    let b := set_side (type o) (level_push (type o) (price o) a (side (type o) b)) b in
    update_market_data (set_book b s).

(** The erase-remove idiom of [remove_order]: every entry of the vector whose
    order carries the id goes. *)
Definition strip (h : list Order) (id : string) (v : list addr) : list addr :=
  filter (fun a => orderId (deref h a) ≠ id) v.

Definition remove_order (id : string) (s : State) : bool * State :=
  match orderMap (book s) !! id with
  | None => (false, s)
  | Some a =>
      let order := deref (heap s) a in
      let b := set_orderMap (delete id (orderMap (book s))) (book s) in
      let m := side (type order) b in
      let b :=
        match level_find (price order) m with
        | Some orders =>
            match strip (heap s) id orders with
            | [] => set_side (type order) (level_erase (price order) m) b
            | orders' => set_side (type order) (level_set (price order) orders' m) b
            end
        | None => b
        end in
      (true, update_market_data (set_book b s))
  end.

Definition cancel_order (id : string) (s : State) : bool * State :=
  match orderMap (book s) !! id with
  | None => (false, s)
  | Some a =>
      remove_order id (set_heap (<[a := cancel (deref (heap s) a)]> (heap s)) s)
  end.

Definition get_order (id : string) (s : State) : option addr :=
  orderMap (book s) !! id.

(** The getters of [orderBook.hpp]. *)
Definition get_best_bid (b : OrderBook) : Z := bestBid b.
Definition get_best_ask (b : OrderBook) : Z := bestAsk b.
Definition get_spread (b : OrderBook) : Z := bestAsk b - bestBid b.
Definition get_bid_size (b : OrderBook) : Z := bidSize b.
Definition get_ask_size (b : OrderBook) : Z := askSize b.

(** The loop of [get_bid_depth] and [get_ask_depth] over the levels of a
    ladder from [begin()], [count] levels being done: it breaks when
    [count >= levels], and adds the price of the level with the sum of the
    remaining quantities of its orders otherwise. *)
Fixpoint depth_loop (h : list Order) (levels count : Z) (m : ladder) : list (Z * Z) :=
  match m with
  | [] => []
  | (p, v) :: m' =>
      if levels <=? count then []
      else (p, level_size h v) :: depth_loop h levels (count + 1) m'
  end.

Definition get_bid_depth (levels : Z) (s : State) : list (Z * Z) :=
  depth_loop (heap s) levels 0 (buyOrders (book s)).
Definition get_ask_depth (levels : Z) (s : State) : list (Z * Z) :=
  depth_loop (heap s) levels 0 (sellOrders (book s)).

(** What a call does: it returns, or it reads through a reference whose
    target was destroyed (see [match_step]).  [OutOfFuel] belongs to the
    bounded loop of the model only; [match_order_fuel] and [session_fuel]
    show that no call ends with it. *)
Inductive outcome (A : Type) : Type :=
  | Returns (a : A)
  | UseAfterFree
  | OutOfFuel.
Arguments Returns {A} a.
Arguments UseAfterFree {A}.
Arguments OutOfFuel {A}.

#[global] Instance outcome_bind : MBind outcome := fun A B f x =>
  match x with
  | Returns a => f a
  | UseAfterFree => UseAfterFree
  | OutOfFuel => OutOfFuel
  end.

Section Engine.

(** The k-th number returned by [dis(gen)]. *)
Variable dis : nat -> Z.

Definition generate_trade_id (s : State) : string * State :=
  ("T" +:+ pretty (dis (draws s)),
   mkState (heap s) (book s) (orderCounter s) (S (draws s)) (out s)).

Definition fill_at (a : addr) (qty : Z) (s : State) : State :=
  set_heap (<[a := fill qty (deref (heap s) a)]> (heap s)) s.

Definition emit (t : Trade) (s : State) : State :=
  mkState (heap s) (book s) (orderCounter s) (draws s) (out s ++ [t]).

Definition execute_trade (buyOrder sellOrder : addr) (qty : Z) (s : State) : State :=
  let '(tid, s) := generate_trade_id s in
  let trade := mkTrade tid (orderId (deref (heap s) buyOrder))
                       (orderId (deref (heap s) sellOrder))
                       (symbol (deref (heap s) buyOrder))
                       (price (deref (heap s) sellOrder)) qty in
  let s := fill_at buyOrder qty s in
  let s := fill_at sellOrder qty s in
  let s := if isFullyFilled (deref (heap s) buyOrder)
           then (remove_order (orderId (deref (heap s) buyOrder)) s).2 else s in
  let s := if isFullyFilled (deref (heap s) sellOrder)
           then (remove_order (orderId (deref (heap s) sellOrder)) s).2 else s in
  emit trade s.

(** ** matchingEngine.cpp *)

Definition generate_order_id (s : State) : string * State :=
  ("O" +:+ pretty (orderCounter s + 1),
   mkState (heap s) (book s) (orderCounter s + 1) (draws s) (out s)).

(** [std::make_shared<Order>(...)]: the new object gets the next address. *)
Definition alloc (o : Order) (s : State) : addr * State :=
  (length (heap s), set_heap (heap s ++ [o]) s).

Definition opposite (t : OrderType) : OrderType :=
  match t with BUY => SELL | SELL => BUY end.

(** The [break] test of the loop: for a BUY the best ask is above the limit,
    for a SELL the best bid is below it. *)
Definition out_of_reach (t : OrderType) (best limit : Z) : bool :=
  match t with BUY => limit <? best | SELL => best <? limit end.

Inductive loop_step : Type :=
  | Break (s : State)
  | Continue (s : State)
  | Dangling.

(** One turn of the [while] loop of [match_order], for the incoming order at
    address [t]; the two branches of the source differ in the ladder they
    walk, in the direction of the price test and in the argument order of
    [execute_trade], which is what [type order] selects here.

    [ordersAtPrice] is a reference to the vector inside the map node of the
    best level and [sellOrder] / [buyOrder] a reference to the first slot of
    that vector.  [execute_trade] calls [remove_order] for a filled maker.
    When that leaves other orders at the level, the first slot now holds the
    next order of the queue, and it is this order that the test
    [isFullyFilled] after the call reads.  When the maker was alone,
    [remove_order] has erased the map node and destroyed its vector: both
    references dangle and the test reads freed memory, which is [Dangling]. *)
Definition match_step (t : addr) (s : State) : loop_step :=
  let order := deref (heap s) t in
  let opp := opposite (type order) in
  if negb (0 <? getRemainingQuantity order) then Break s
  else
    match side opp (book s) with
    | [] => Break s
    | (best, ordersAtPrice) :: _ =>
        if out_of_reach (type order) best (price order) then Break s
        else
          match ordersAtPrice with
          | [] => Continue (set_book (set_side opp (level_erase best (side opp (book s))) (book s)) s)
          | maker :: _ =>
              let tradeQuantity :=
                Z.min (getRemainingQuantity order)
                      (getRemainingQuantity (deref (heap s) maker)) in
              let s :=
                match type order with
                | BUY => execute_trade t maker tradeQuantity s
                | SELL => execute_trade maker t tradeQuantity s
                end in
              match level_find best (side opp (book s)) with
              | Some (front :: rest) =>
                  if isFullyFilled (deref (heap s) front) then
                    match rest with
                    | [] => Continue (set_book (set_side opp (level_erase best (side opp (book s))) (book s)) s)
                    | _ => Continue (set_book (set_side opp (level_set best rest (side opp (book s))) (book s)) s)
                    end
                  else Continue s
              | _ => Dangling
              end
          end
    end.

Fixpoint match_loop (fuel : nat) (t : addr) (s : State) : outcome State :=
  match fuel with
  | O => OutOfFuel
  | S fuel =>
      match match_step t s with
      | Break s => Returns s
      | Continue s => match_loop fuel t s
      | Dangling => UseAfterFree
      end
  end.

(** Every turn that goes on either takes something out of the book or
    exhausts the incoming order, which bounds the number of turns. *)
Definition ladder_weight (m : ladder) : nat :=
  foldr (fun l n => (S (length l.2) + n)%nat) O m.
Definition book_weight (b : OrderBook) : nat :=
  (ladder_weight (buyOrders b) + ladder_weight (sellOrders b))%nat.

Definition match_order (t : addr) (s : State) : outcome State :=
  if quantity (deref (heap s) t) <=? 0 then Returns s
  else
    s ← match_loop (S (S (book_weight (book s)))) t s ;
    Returns (if 0 <? getRemainingQuantity (deref (heap s) t) then add_order t s else s).

Definition submit_order (ty : OrderType) (p qty : Z) (sym client : string)
    (s : State) : outcome (string * State) :=
  if (qty <=? 0) || (p <=? 0) then Returns (EmptyString, s)
  else
    let '(id, s) := generate_order_id s in
    let '(t, s) := alloc (new_Order id ty p qty sym client) s in
    s ← match_order t s ;
    Returns (id, s).

Definition modify_order (id : string) (newPrice newQuantity : Z) (s : State)
    : outcome (bool * State) :=
  match get_order id s with
  | None => Returns (false, s)
  | Some a =>
      if decide (status (deref (heap s) a) = PENDING) then
        let s := (cancel_order id s).2 in
        let order := deref (heap s) a in
        let '(t, s) := alloc (new_Order id (type order) newPrice newQuantity
                                        (symbol order) (clientId order)) s in
        s ← match_order t s ;
        Returns (true, s)
      else Returns (false, s)
  end.

(** ** Sessions: sequences of requests *)

Inductive Request :=
  | SUBMIT (ty : OrderType) (p qty : Z) (sym client : string)
  | CANCEL (id : string)
  | MODIFY (id : string) (newPrice newQuantity : Z).

Definition request (r : Request) (s : State) : outcome State :=
  match r with
  | SUBMIT ty p qty sym client =>
      r ← submit_order ty p qty sym client s ; Returns r.2
  | CANCEL id => Returns (cancel_order id s).2
  | MODIFY id p qty =>
      r ← modify_order id p qty s ; Returns r.2
  end.

Fixpoint session (rs : list Request) (s : State) : outcome State :=
  match rs with
  | [] => Returns s
  | r :: rs => s ← request r s ; session rs s
  end.

(** [process_orders_batch(orders)]: the orders are shared pointers the caller
    has made, [None] being a null pointer; the engine gives them no id and
    tests nothing but the quantity. *)
Fixpoint process_orders_batch (orders : list (option addr)) (s : State) : outcome State :=
  match orders with
  | [] => Returns s
  | None :: orders => process_orders_batch orders s
  | Some order :: orders =>
      if 0 <? quantity (deref (heap s) order) then
        s ← match_order order s ; process_orders_batch orders s
      else process_orders_batch orders s
  end.

(** [get_total_orders()] returns the counter of [generate_order_id]. *)
Definition get_total_orders (s : State) : Z := orderCounter s.

End Engine.

(** ** websocket_server.cpp, simple_server.cpp *)

(** Both servers have the same two conversions. *)
Definition string_to_order_type (type : string) : OrderType :=
  if decide (type = "BUY") then BUY
  else if decide (type = "SELL") then SELL
  else BUY.

Definition order_type_to_string (type : OrderType) : string :=
  if decide (type = BUY) then "BUY" else "SELL".

(** ** dataInterface.cpp *)

(** The statistics of [DataInterface] that [on_trade_executed] keeps;
    [totalTrades] is a [size_t], taken as 64 bits wide.  The floating-point
    sum [totalVolume] is not modelled. *)
Record Stats := mkStats {
  totalTrades : Z;
  tradeHistory : list Trade
}.

Definition no_Stats : Stats := mkStats 0 [].

Definition on_trade_executed (trade : Trade) (d : Stats) : Stats :=
  let history := tradeHistory d ++ [trade] in
  mkStats ((totalTrades d + 1) mod 2 ^ 64)
          (if (1000 <? length history)%nat then drop 1 history else history).

(** * Vocabulary of the properties *)

Section Vocabulary.

Variable dis : nat -> Z.

(** ** Stores *)

(** Two stores agree on what no operation of the engine changes in an order. *)
Definition same_static (h h' : list Order) : Prop :=
  length h = length h' /\
  forall a, orderId (deref h' a) = orderId (deref h a) /\
            type (deref h' a) = type (deref h a) /\
            price (deref h' a) = price (deref h a) /\
            quantity (deref h' a) = quantity (deref h a) /\
            symbol (deref h' a) = symbol (deref h a) /\
            clientId (deref h' a) = clientId (deref h a).

(** The store after a trade: both parties filled, nothing else touched. *)
Definition traded (buyOrder sellOrder : addr) (qty : Z) (h : list Order) : list Order :=
  let h := <[buyOrder := fill qty (deref h buyOrder)]> h in
  <[sellOrder := fill qty (deref h sellOrder)]> h.

(** The remaining quantities of the orders allocated before address [n]. *)
Definition total_remaining (n : nat) (h : list Order) : Z :=
  foldr (fun a acc => getRemainingQuantity (deref h a) + acc) 0 (seq 0 n).

(** ** Ladders *)

(** The keys of a ladder are in the strict order of its comparator, as in a
    [std::map]. *)
Definition sorted (t : OrderType) (m : ladder) : Prop :=
  StronglySorted (fun a b => before t a b = true) (keys m).

(** The orders a ladder points to. *)
Definition addrs (m : ladder) : list addr := concat (map snd m).

(** [m'] is [m] with levels or orders taken out. *)
Record ladder_le (m' m : ladder) : Prop := mkLadderLe {
  le_keys : forall k, k ∈ keys m' -> k ∈ keys m;
  le_addrs : forall a, a ∈ addrs m' -> a ∈ addrs m;
  le_sorted : forall t, sorted t m -> sorted t m';
  le_weight : (ladder_weight m' <= ladder_weight m)%nat
}.

Definition is_highest (p : Z) (l : list Z) : Prop := p ∈ l /\ forall k, k ∈ l -> k <= p.
Definition is_lowest (p : Z) (l : list Z) : Prop := p ∈ l /\ forall k, k ∈ l -> p <= k.

(** No bid price reaches an ask price. *)
Definition no_cross (b : OrderBook) : Prop :=
  forall pb pa, pb ∈ keys (buyOrders b) -> pa ∈ keys (sellOrders b) -> pb < pa.

(** Both ladders are in the order of their comparator, so that the first
    level of the bids holds the highest bid and the first level of the asks
    the lowest ask, and no bid reaches an ask. *)
Record uncrossed (b : OrderBook) : Prop := mkUncrossed {
  un_bids : sorted BUY (buyOrders b);
  un_asks : sorted SELL (sellOrders b);
  un_cross : no_cross b
}.

(** ** States *)

(** From [s] to [s'] orders were filled or cancelled and taken out of the
    book; nothing was added. *)
Record shrinks (s s' : State) : Prop := mkShrinks {
  sh_static : same_static (heap s) (heap s');
  sh_side : forall t, ladder_le (side t (book s')) (side t (book s));
  sh_map : orderMap (book s') ⊆ orderMap (book s);
  sh_counter : orderCounter s' = orderCounter s
}.

(** Every pointer of the ladders is to an object allocated before address
    [t]. *)
Definition below (t : addr) (s : State) : Prop :=
  forall ty a, a ∈ addrs (side ty (book s)) -> (a < t)%nat.

(** Every pointer of the ladders is to an allocated object, which
    [shared_ptr] guarantees in the source. *)
Definition closed (s : State) : Prop := below (length (heap s)) s.

(** The four projections, and what a scan of the two ladders gives for
    them. *)
Definition projections (b : OrderBook) : Z * Z * Z * Z :=
  (bestBid b, bestAsk b, bidSize b, askSize b).

Definition fresh_scan (s : State) : Z * Z * Z * Z :=
  (front_price (buyOrders (book s)), front_price (sellOrders (book s)),
   front_size (heap s) (buyOrders (book s)), front_size (heap s) (sellOrders (book s))).

(** The id names no order of the index whose status is PENDING. *)
Definition not_pending (id : string) (s : State) : Prop :=
  match get_order id s with
  | None => True
  | Some a => status (deref (heap s) a) ≠ PENDING
  end.

(** ** The parts of a turn of the matching loop *)

(** The trade record [execute_trade] builds in state [s]. *)
Definition trade_of (buyOrder sellOrder : addr) (qty : Z) (s : State) : Trade :=
  mkTrade ("T" +:+ pretty (dis (draws s))) (orderId (deref (heap s) buyOrder))
          (orderId (deref (heap s) sellOrder)) (symbol (deref (heap s) buyOrder))
          (price (deref (heap s) sellOrder)) qty.

(** The clean-up of [execute_trade] for one party. *)
Definition settle (x : addr) (s : State) : State :=
  if isFullyFilled (deref (heap s) x)
  then (remove_order (orderId (deref (heap s) x)) s).2 else s.

(** The call of [execute_trade] in [match_step], for the incoming order at
    [t] and the first order [maker] of the best level. *)
Definition taker_trade (t maker : addr) (s : State) : State :=
  let order := deref (heap s) t in
  let q := Z.min (getRemainingQuantity order)
                 (getRemainingQuantity (deref (heap s) maker)) in
  match type order with
  | BUY => execute_trade dis t maker q s
  | SELL => execute_trade dis maker t q s
  end.

(** What follows that call in [match_step], on the ladder of the makers;
    [None] is the read through the dangling reference. *)
Definition sweep (opp : OrderType) (best : Z) (s : State) : option State :=
  match level_find best (side opp (book s)) with
  | Some (front :: rest) =>
      Some (if isFullyFilled (deref (heap s) front) then
              set_book (set_side opp
                          (match rest with
                           | [] => level_erase best (side opp (book s))
                           | _ => level_set best rest (side opp (book s))
                           end) (book s)) s
            else s)
  | _ => None
  end.

(** What bounds the turns the loop still has to make. *)
Definition measure (t : addr) (s : State) : nat :=
  (book_weight (book s) +
   if (0 <? getRemainingQuantity (deref (heap s) t))%Z then 1 else 0)%nat.

(** ** Trades *)

Definition traded_quantity (ts : list Trade) : Z :=
  foldr (fun tr acc => trade_quantity tr + acc) 0 ts.

(** What a matching run from [s] to [s'] for the order at [t] conserves. *)
Definition conserved (t : addr) (s s' : State) : Prop :=
  exists trades,
    out s' = out s ++ trades /\
    traded_quantity trades =
      getRemainingQuantity (deref (heap s) t) - getRemainingQuantity (deref (heap s') t) /\
    traded_quantity trades = total_remaining t (heap s) - total_remaining t (heap s').

(** The ids of [n] successive calls of [generate_trade_id], the first of them
    being the [from]-th call of the session. *)
Definition ids_of (from n : nat) : list string :=
  map (fun k => "T" +:+ pretty (dis k)) (seq from n).

(** From [s] to [s'] trades were emitted, each with the id of the next draw. *)
Definition emits (s s' : State) : Prop :=
  exists trades,
    out s' = out s ++ trades /\
    draws s' = (draws s + length trades)%nat /\
    map tradeId trades = ids_of (draws s) (length trades).

(** The ids are "T" followed by decimal numbers that increase strictly, as
    ids from a counter would. *)
Definition increasing_trade_ids (ids : list string) : Prop :=
  exists ns, ids = map (fun n : Z => "T" +:+ pretty n) ns /\ StronglySorted Z.lt ns.

(** ** Modify, in the words of the specification *)

(** Cancel, then submit the same side, symbol and client with the new price
    and quantity; a failed cancel fails the modify. *)
Definition cancel_then_submit (id : string) (newPrice newQuantity : Z)
    (s : State) : outcome (bool * State) :=
  match get_order id s with
  | None => Returns (false, s)
  | Some a =>
      let o := deref (heap s) a in
      let '(ok, s1) := cancel_order id s in
      if ok then
        r ← submit_order dis (type o) newPrice newQuantity (symbol o) (clientId o) s1;
        Returns (true, r.2)
      else Returns (false, s)
  end.

End Vocabulary.

(** ** Inputs of the examples *)

(** A sequence of draws the distribution of [generate_trade_id] can return. *)
Definition example_draws (k : nat) : Z := 100000 + (Z.of_nat k * 7919) mod 900000.

Definition example_requests : list Request :=
  [SUBMIT SELL 10100 10 "X" "c"; SUBMIT BUY 9900 10 "X" "c";
   SUBMIT SELL 10000 5 "X" "c"; SUBMIT BUY 10050 3 "X" "c";
   CANCEL "O1"; MODIFY "O2" 9950 7].

(** ** Well-formed books and sound trades *)

(** An order that can still trade: not filled to its quantity, and with the
    status [fill] gives such an order. *)
Definition open_order (o : Order) : Prop :=
  0 <= filledQuantity o < quantity o /\
  status o = (if filledQuantity o =? 0 then PENDING else PARTIALLY_FILLED).

(** The status of an order tells how far it is filled. *)
Definition sound_order (o : Order) : Prop :=
  match status o with
  | PENDING => filledQuantity o = 0
  | PARTIALLY_FILLED => 0 < filledQuantity o < quantity o
  | FILLED => 0 < filledQuantity o /\ filledQuantity o = quantity o
  | CANCELLED => 0 <= filledQuantity o < quantity o
  | REJECTED => False
  end.

(** The order at [a] belongs in the level of price [p] on side [ty]: it is an
    allocated object of that side and price, the index has it under its id,
    and, unless [E] exempts it, it can still trade. *)
Definition live (E : addr -> Prop) (s : State) (ty : OrderType) (p : Z) (a : addr) : Prop :=
  let o := deref (heap s) a in
  (a < length (heap s))%nat /\ type o = ty /\ price o = p /\
  (~ E a -> open_order o) /\
  orderMap (book s) !! orderId o = Some a.

(** A level is not empty, its queue is in the order of allocation, and its
    orders belong in it. *)
Definition level_ok (E : addr -> Prop) (s : State) (ty : OrderType)
    (l : Z * list addr) : Prop :=
  l.2 ≠ [] /\ StronglySorted lt l.2 /\ Forall (live E s ty l.1) l.2.

(** The book is well formed, the orders of [E] apart: the ladders are in key
    order and their levels are as above; an order of the index carries the
    id it is indexed under and is queued in the level of its price on its
    side; the ids of the index were given out by [generate_order_id]; and
    the status of every object of the store tells its fill. *)
Record wf_but (E : addr -> Prop) (s : State) : Prop := mkWf {
  wf_sorted : forall ty, sorted ty (side ty (book s));
  wf_levels : forall ty, Forall (level_ok E s ty) (side ty (book s));
  wf_index : forall id a, orderMap (book s) !! id = Some a ->
    orderId (deref (heap s) a) = id /\
    exists v, level_find (price (deref (heap s) a))
                         (side (type (deref (heap s) a)) (book s)) = Some v /\ a ∈ v;
  wf_ids : forall id a, orderMap (book s) !! id = Some a ->
    exists k, 1 <= k <= orderCounter s /\ id = "O" +:+ pretty k;
  wf_heap : Forall sound_order (heap s);
  wf_counter : 0 <= orderCounter s
}.

Definition nobody : addr -> Prop := fun _ => False.

Definition wf (s : State) : Prop := wf_but nobody s.

(** What a trade record says of the two orders it names: a buy and a sell,
    two objects, the sell not priced above the buy; the trade is for a
    positive quantity, at the price of the sell order. *)
Definition trade_ok (h : list Order) (tr : Trade) : Prop :=
  0 < trade_quantity tr /\
  exists b a : addr,
    (b < length h)%nat /\ (a < length h)%nat /\ b ≠ a /\
    type (deref h b) = BUY /\ type (deref h a) = SELL /\
    buyOrderId tr = orderId (deref h b) /\ sellOrderId tr = orderId (deref h a) /\
    trade_symbol tr = symbol (deref h b) /\
    trade_price tr = price (deref h a) /\
    price (deref h a) <= price (deref h b) /\
    trade_quantity tr <= quantity (deref h b) /\
    trade_quantity tr <= quantity (deref h a).

(** What holds at every turn of the matching loop of a session, for the
    incoming order at [t]: the book is well formed and the order is a new
    object, not in the book, whose id is not in the index. *)
Definition run_inv (t : addr) (s : State) : Prop :=
  wf s /\ (t < length (heap s))%nat /\ below t s /\
  get_order (orderId (deref (heap s) t)) s = None /\
  (exists k, 1 <= k <= orderCounter s /\ orderId (deref (heap s) t) = "O" +:+ pretty k) /\
  status (deref (heap s) t) ≠ CANCELLED.

(** The state of a session: the book is well formed and every trade emitted
    so far is sound. *)
Definition good (s : State) : Prop := wf s /\ Forall (trade_ok (heap s)) (out s).

(** The sum of the remaining quantities of a level as a number, and that of
    the first level of a ladder. *)
Definition level_total (h : list Order) (v : list addr) : Z :=
  foldr (fun a acc => getRemainingQuantity (deref h a) + acc) 0 v.

Definition front_total (h : list Order) (m : ladder) : Z :=
  match m with [] => 0 | (_, v) :: _ => level_total h v end.

(** An order of side [ty] with limit [p] reaches the best price of the other
    side: the loop of [match_order] does not leave at its first turn. *)
Definition crosses (ty : OrderType) (p : Z) (b : OrderBook) : bool :=
  match side (opposite ty) b with
  | [] => false
  | (best, _) :: _ => negb (out_of_reach ty best p)
  end.


(** The id is one that [generate_order_id] has given out, the counter being
    at [n]. *)
Definition known_id (n : Z) (o : Order) : Prop :=
  exists k, 1 <= k <= n /\ orderId o = "O" +:+ pretty k.

(** [n] turns of the loop of [match_order] that go on to the next. *)
Fixpoint turns (dis : nat -> Z) (n : nat) (t : addr) (s : State) : option State :=
  match n with
  | O => Some s
  | S n =>
      match match_step dis t s with
      | Continue s' => turns dis n t s'
      | _ => None
      end
  end.

(** The trade callback called for each trade of a list, in order. *)
Definition feed (trades : list Trade) (d : Stats) : Stats :=
  foldl (fun d trade => on_trade_executed trade d) d trades.

(** * Properties *)

(** ** Orders and the store *)

Lemma fill_static qty o :
  orderId (fill qty o) = orderId o /\ type (fill qty o) = type o /\
  price (fill qty o) = price o /\ quantity (fill qty o) = quantity o /\
  symbol (fill qty o) = symbol o /\ clientId (fill qty o) = clientId o.
Proof. unfold fill. repeat case_match; simpl; auto 10. Qed.

Lemma fill_filled qty o : filledQuantity (fill qty o) = filledQuantity o + qty.
Proof. unfold fill. repeat case_match; reflexivity. Qed.

Lemma fill_remaining qty o :
  getRemainingQuantity (fill qty o) = getRemainingQuantity o - qty.
Proof.
  unfold getRemainingQuantity. rewrite fill_filled.
  destruct (fill_static qty o) as (_ & _ & _ & -> & _). lia.
Qed.

Lemma deref_insert h a x b :
  deref (<[a := x]> h) b =
  if decide (a = b /\ (a < length h)%nat) then x else deref h b.
Proof.
  unfold deref. case_decide as H.
  - destruct H as [-> H]. by rewrite list_lookup_insert_eq.
  - destruct (decide (a = b)) as [->|Hne].
    + rewrite list_insert_ge; [done | lia].
    + by rewrite list_lookup_insert_ne.
Qed.

Lemma deref_app_l h h' a : (a < length h)%nat -> deref (h ++ h') a = deref h a.
Proof. intros H. unfold deref. by rewrite lookup_app_l. Qed.

Lemma deref_alloc h o : deref (h ++ [o]) (length h) = o.
Proof. unfold deref. by rewrite list_lookup_middle. Qed.

Lemma same_static_refl h : same_static h h.
Proof. split; auto 10. Qed.

Lemma same_static_trans h1 h2 h3 :
  same_static h1 h2 -> same_static h2 h3 -> same_static h1 h3.
Proof.
  intros [L1 H1] [L2 H2]. split; [congruence|]. intros a.
  destruct (H1 a) as (? & ? & ? & ? & ? & ?), (H2 a) as (? & ? & ? & ? & ? & ?).
  repeat split; congruence.
Qed.

Lemma same_static_fill h a qty :
  same_static h (<[a := fill qty (deref h a)]> h).
Proof.
  split; [by rewrite length_insert|]. intros b. rewrite deref_insert.
  case_decide as H; [|auto 10]. destruct H as [-> _].
  destruct (fill_static qty (deref h b)) as (? & ? & ? & ? & ? & ?). auto 10.
Qed.

Lemma same_static_cancel h a :
  same_static h (<[a := cancel (deref h a)]> h).
Proof.
  split; [by rewrite length_insert|]. intros b. rewrite deref_insert.
  case_decide as H; [|auto 10]. destruct H as [-> _]. auto 10.
Qed.

(** ** Ladders *)

Lemma keys_cons k v m : keys ((k, v) :: m) = k :: keys m.
Proof. reflexivity. Qed.

Lemma addrs_cons k v m : addrs ((k, v) :: m) = v ++ addrs m.
Proof. reflexivity. Qed.

#[global] Arguments keys : simpl never.
#[global] Arguments addrs : simpl never.

Lemma keys_level_erase p m k : k ∈ keys (level_erase p m) -> k ∈ keys m.
Proof.
  induction m as [|[k' v] m IH]; simpl; [done|].
  destruct (k' =? p); rewrite ?keys_cons, ?elem_of_cons; intuition.
Qed.

Lemma keys_level_set p v m : keys (level_set p v m) = keys m.
Proof.
  induction m as [|[k' v'] m IH]; simpl; [done|].
  destruct (k' =? p); rewrite ?keys_cons; congruence.
Qed.

Lemma keys_level_push t p a m k :
  k ∈ keys (level_push t p a m) <-> k = p \/ k ∈ keys m.
Proof.
  induction m as [|[k' v] m IH]; simpl.
  - rewrite keys_cons, elem_of_cons. tauto.
  - destruct (Z.eqb_spec k' p) as [->|Hne].
    + rewrite !keys_cons, !elem_of_cons. tauto.
    + destruct (before t p k'); rewrite !keys_cons, !elem_of_cons; [tauto|].
      rewrite IH. tauto.
Qed.

Lemma sorted_level_erase t p m : sorted t m -> sorted t (level_erase p m).
Proof.
  unfold sorted. induction m as [|[k v] m IH]; simpl; [done|].
  rewrite keys_cons. intros H. apply StronglySorted_inv in H as [Hm Hk].
  destruct (k =? p); [done|]. rewrite keys_cons. constructor; [by apply IH|].
  rewrite Forall_forall in *. intros x Hx. apply Hk.
  eauto using keys_level_erase.
Qed.

Lemma sorted_level_set t p v m : sorted t m -> sorted t (level_set p v m).
Proof. unfold sorted. by rewrite keys_level_set. Qed.

Lemma before_total t a b : a ≠ b -> before t a b = false -> before t b a = true.
Proof. destruct t; simpl; lia. Qed.

Lemma before_trans t a b c :
  before t a b = true -> before t b c = true -> before t a c = true.
Proof. destruct t; simpl; lia. Qed.

Lemma sorted_level_push t p a m : sorted t m -> sorted t (level_push t p a m).
Proof.
  unfold sorted. induction m as [|[k v] m IH]; simpl.
  - intros _. repeat constructor.
  - rewrite keys_cons. intros H. pose proof H as H0.
    apply StronglySorted_inv in H as [Hm Hk].
    destruct (Z.eqb_spec k p) as [->|Hne]; [by rewrite keys_cons|].
    destruct (before t p k) eqn:Hb; rewrite !keys_cons.
    + constructor; [done|]. constructor; [done|].
      eapply Forall_impl; [exact Hk|]. simpl. eauto using before_trans.
    + constructor; [by apply IH|]. rewrite Forall_forall. intros x Hx.
      apply keys_level_push in Hx as [->|Hx].
      * by apply before_total.
      * rewrite Forall_forall in Hk. by apply Hk.
Qed.

(** The first level of a sorted ladder is the best one. *)
Lemma sorted_front t k v m k' :
  sorted t ((k, v) :: m) -> k' ∈ keys ((k, v) :: m) -> k' = k \/ before t k k' = true.
Proof.
  unfold sorted. rewrite keys_cons. intros H Hk'.
  apply StronglySorted_inv in H as [_ H].
  apply elem_of_cons in Hk' as [->|Hk']; [by left|right].
  rewrite Forall_forall in H. by apply H.
Qed.

Lemma addrs_level_erase p m a : a ∈ addrs (level_erase p m) -> a ∈ addrs m.
Proof.
  induction m as [|[k v] m IH]; simpl; [done|].
  destruct (k =? p); rewrite ?addrs_cons, ?elem_of_app; intuition.
Qed.

Lemma addrs_level_set p v m a :
  a ∈ addrs (level_set p v m) -> a ∈ v \/ a ∈ addrs m.
Proof.
  induction m as [|[k v'] m IH]; simpl; [by right|].
  destruct (k =? p); rewrite ?addrs_cons, ?elem_of_app; intuition.
Qed.

Lemma addrs_level_find p m v a : level_find p m = Some v -> a ∈ v -> a ∈ addrs m.
Proof.
  induction m as [|[k v'] m IH]; simpl; [done|].
  rewrite addrs_cons, elem_of_app.
  destruct (k =? p); [|by auto]. intros [= ->]. auto.
Qed.

Lemma addrs_level_push t p a m b :
  b ∈ addrs (level_push t p a m) <-> b = a \/ b ∈ addrs m.
Proof.
  induction m as [|[k v] m IH]; simpl.
  - rewrite addrs_cons, elem_of_app, list_elem_of_singleton.
    change (addrs []) with (@nil addr). rewrite elem_of_nil. tauto.
  - destruct (k =? p); [|destruct (before t p k)];
      rewrite ?addrs_cons, ?elem_of_app, ?list_elem_of_singleton, ?addrs_cons,
        ?elem_of_app; [tauto|tauto|rewrite IH; tauto].
Qed.

Lemma level_find_push t p a m :
  exists v, level_find p (level_push t p a m) = Some (v ++ [a]).
Proof.
  induction m as [|[k v] m IH]; simpl.
  - exists []. by rewrite Z.eqb_refl.
  - destruct (Z.eqb_spec k p) as [->|Hne]; simpl.
    + exists v. by rewrite Z.eqb_refl.
    + destruct (before t p k); simpl.
      * exists []. by rewrite Z.eqb_refl.
      * destruct (Z.eqb_spec k p); [done|]. exact IH.
Qed.

Lemma weight_level_erase p m v :
  level_find p m = Some v ->
  (ladder_weight (level_erase p m) + S (length v) = ladder_weight m)%nat.
Proof.
  induction m as [|[k v'] m IH]; simpl; [done|].
  destruct (k =? p); simpl.
  - intros [= ->]. lia.
  - intros H. specialize (IH H). lia.
Qed.

Lemma weight_level_erase_le p m :
  (ladder_weight (level_erase p m) <= ladder_weight m)%nat.
Proof.
  induction m as [|[k v'] m IH]; simpl; [done|].
  destruct (k =? p); simpl; lia.
Qed.

Lemma weight_level_set p m v v' :
  level_find p m = Some v ->
  (ladder_weight (level_set p v' m) + length v = ladder_weight m + length v')%nat.
Proof.
  induction m as [|[k v0] m IH]; simpl; [done|].
  destruct (k =? p); simpl.
  - intros [= ->]. lia.
  - intros H. specialize (IH H). lia.
Qed.

Lemma level_set_same p m v : level_find p m = Some v -> level_set p v m = m.
Proof.
  induction m as [|[k v0] m IH]; simpl; [done|].
  destruct (k =? p); [by intros [= ->]|]. intros H. by rewrite IH.
Qed.

Lemma filter_all {A} (P : A -> Prop) `{!forall x, Decision (P x)} (l : list A) :
  length (filter P l) = length l -> filter P l = l.
Proof.
  induction l as [|x l IH]; [done|].
  rewrite filter_cons. case_decide; simpl.
  - intros [= Hlen]. by rewrite IH.
  - pose proof (length_filter P l). lia.
Qed.

(** Taking an order out of a level: the ladder gets lighter, or the order was
    not there and nothing moves. *)
Lemma strip_level h id p m v :
  level_find p m = Some v ->
  let m' := match strip h id v with
            | [] => level_erase p m
            | v' => level_set p v' m
            end in
  (ladder_weight m' < ladder_weight m)%nat \/ m' = m.
Proof.
  intros Hf. pose proof (length_filter (fun a => orderId (deref h a) ≠ id) v) as Hl.
  fold (strip h id v) in Hl. simpl.
  destruct (strip h id v) as [|a v'] eqn:Hs.
  - left. pose proof (weight_level_erase _ _ _ Hf). lia.
  - pose proof (weight_level_set p m v (a :: v') Hf) as Hw.
    destruct (decide (length (a :: v') = length v)) as [He|Hne].
    + right. rewrite <- Hs in *. unfold strip in *.
      rewrite (filter_all _ _ He). by apply level_set_same.
    + left. lia.
Qed.

Lemma ladder_le_refl m : ladder_le m m.
Proof. by constructor. Qed.

Lemma ladder_le_trans m1 m2 m3 : ladder_le m1 m2 -> ladder_le m2 m3 -> ladder_le m1 m3.
Proof.
  intros [] []. constructor; auto. lia.
Qed.

Lemma ladder_le_erase p m : ladder_le (level_erase p m) m.
Proof.
  constructor.
  - apply keys_level_erase.
  - apply addrs_level_erase.
  - intros t. apply sorted_level_erase.
  - apply weight_level_erase_le.
Qed.

Lemma ladder_le_set p m v v' :
  level_find p m = Some v -> v' ⊆ v -> (length v' <= length v)%nat ->
  ladder_le (level_set p v' m) m.
Proof.
  intros Hf Hsub Hlen. constructor.
  - intros k. by rewrite keys_level_set.
  - intros a [Ha|Ha]%addrs_level_set; [|done].
    eapply addrs_level_find; [exact Hf|]. by apply Hsub.
  - intros t. apply sorted_level_set.
  - pose proof (weight_level_set p m v v' Hf). lia.
Qed.

Lemma strip_ladder_le h id p m v :
  level_find p m = Some v ->
  ladder_le (match strip h id v with
             | [] => level_erase p m
             | v' => level_set p v' m
             end) m.
Proof.
  intros Hf. destruct (strip h id v) eqn:Hs; [apply ladder_le_erase|].
  rewrite <- Hs. eapply ladder_le_set; [exact Hf| |apply length_filter].
  intros x Hx. unfold strip in Hx. by apply list_elem_of_filter in Hx as [_ ?].
Qed.

(** ** What the bookkeeping inside a matching run can do to a state *)

Lemma shrinks_refl s : shrinks s s.
Proof. constructor; auto using same_static_refl, ladder_le_refl. Qed.

Lemma shrinks_trans s1 s2 s3 : shrinks s1 s2 -> shrinks s2 s3 -> shrinks s1 s3.
Proof.
  intros [] []. constructor; eauto using same_static_trans, ladder_le_trans.
  - by etrans.
  - congruence.
Qed.

Lemma side_set_side t t' m b :
  side t (set_side t' m b) = if decide (t = t') then m else side t b.
Proof. by destruct t, t'. Qed.

Lemma remove_order_shrinks id s : shrinks s (remove_order id s).2.
Proof.
  unfold remove_order. destruct (orderMap (book s) !! id) as [a|] eqn:Hid; simpl;
    [|apply shrinks_refl].
  set (o := deref (heap s) a).
  constructor; simpl.
  - apply same_static_refl.
  - intros t.
    change (side t (book s)) with (side t (set_orderMap (delete id (orderMap (book s))) (book s))).
    set (b := set_orderMap _ _).
    destruct (level_find (price o) (side (type o) b)) as [v|] eqn:Hf.
    + pose proof (strip_ladder_le (heap s) id _ _ _ Hf) as Hle.
      destruct (strip (heap s) id v); destruct t, (type o); simpl in *;
        auto using ladder_le_refl.
    + destruct t; apply ladder_le_refl.
  - set (b := set_orderMap _ _).
    assert (orderMap b ⊆ orderMap (book s)) by apply delete_subseteq.
    destruct (level_find _ _); [|done].
    destruct (strip _ _ _); by destruct (type o).
  - done.
Qed.

Lemma remove_order_frame id s :
  heap (remove_order id s).2 = heap s /\ out (remove_order id s).2 = out s /\
  draws (remove_order id s).2 = draws s.
Proof. unfold remove_order. by destruct (orderMap (book s) !! id). Qed.

Lemma cancel_order_shrinks id s : shrinks s (cancel_order id s).2.
Proof.
  unfold cancel_order. destruct (orderMap (book s) !! id) as [a|]; simpl;
    [|apply shrinks_refl].
  eapply shrinks_trans; [|apply remove_order_shrinks].
  constructor; simpl; auto using ladder_le_refl, same_static_cancel.
Qed.

Lemma cancel_order_frame id s :
  length (heap (cancel_order id s).2) = length (heap s) /\
  out (cancel_order id s).2 = out s /\ draws (cancel_order id s).2 = draws s.
Proof.
  unfold cancel_order. destruct (orderMap (book s) !! id) as [a|]; simpl; [|done].
  destruct (remove_order_frame id
    (set_heap (<[a:=cancel (deref (heap s) a)]> (heap s)) s)) as (-> & -> & ->).
  simpl. by rewrite length_insert.
Qed.

Section Facts.

Variable dis : nat -> Z.

Lemma execute_trade_steps b a qty s :
  execute_trade dis b a qty s =
  emit (trade_of dis b a qty s)
       (settle a (settle b (fill_at a qty (fill_at b qty (generate_trade_id dis s).2)))).
Proof. reflexivity. Qed.

Lemma settle_frame x s :
  heap (settle x s) = heap s /\ out (settle x s) = out s /\
  draws (settle x s) = draws s.
Proof. unfold settle. case_match; [apply remove_order_frame|done]. Qed.

Lemma settle_shrinks x s : shrinks s (settle x s).
Proof. unfold settle. case_match; [apply remove_order_shrinks|apply shrinks_refl]. Qed.

Lemma execute_trade_frame b a qty s :
  heap (execute_trade dis b a qty s) = traded b a qty (heap s) /\
  out (execute_trade dis b a qty s) = out s ++ [trade_of dis b a qty s] /\
  draws (execute_trade dis b a qty s) = S (draws s).
Proof.
  rewrite execute_trade_steps. unfold emit. simpl.
  set (s2 := fill_at a qty _).
  destruct (settle_frame b s2) as (H3 & O3 & D3).
  destruct (settle_frame a (settle b s2)) as (H4 & O4 & D4).
  rewrite H4, H3, O4, O3, D4, D3. done.
Qed.

Lemma same_static_traded b a qty h : same_static h (traded b a qty h).
Proof.
  unfold traded. eapply same_static_trans; apply same_static_fill.
Qed.

Lemma execute_trade_shrinks b a qty s : shrinks s (execute_trade dis b a qty s).
Proof.
  rewrite execute_trade_steps.
  set (s2 := fill_at a qty _).
  assert (shrinks s s2) as H2.
  { constructor; simpl; auto using ladder_le_refl. apply same_static_traded. }
  pose proof (shrinks_trans _ _ _ H2
    (shrinks_trans _ _ _ (settle_shrinks b s2) (settle_shrinks a _))) as [].
  by constructor.
Qed.

(** *** One turn of the matching loop *)

Lemma match_step_Break t s s' :
  match_step dis t s = Break s' ->
  s' = s /\
  let order := deref (heap s) t in
  (getRemainingQuantity order <= 0 \/
   side (opposite (type order)) (book s) = [] \/
   exists best v m, side (opposite (type order)) (book s) = (best, v) :: m /\
                    out_of_reach (type order) best (price order) = true).
Proof.
  unfold match_step. intros H. simpl.
  destruct (0 <? getRemainingQuantity (deref (heap s) t)) eqn:Hrem; simpl in H.
  2: { injection H as <-. split; [done|]. left. lia. }
  destruct (side _ (book s)) as [|[best v] m] eqn:Hside.
  { injection H as <-. auto. }
  destruct (out_of_reach _ best _) eqn:Hreach.
  { injection H as <-. split; [done|]. right. right. eauto. }
  destruct v as [|maker v]; [done|].
  repeat case_match; done.
Qed.

Lemma match_step_Continue t s s' :
  match_step dis t s = Continue s' ->
  let order := deref (heap s) t in
  let opp := opposite (type order) in
  0 < getRemainingQuantity order /\
  exists best v m,
    side opp (book s) = (best, v) :: m /\
    out_of_reach (type order) best (price order) = false /\
    match v with
    | [] => s' = set_book (set_side opp (level_erase best (side opp (book s))) (book s)) s
    | maker :: _ => sweep opp best (taker_trade dis t maker s) = Some s'
    end.
Proof.
  unfold match_step. intros H. simpl.
  destruct (0 <? getRemainingQuantity (deref (heap s) t)) eqn:Hrem; simpl in H; [|done].
  split; [lia|].
  destruct (side _ (book s)) as [|[best v] m] eqn:Hside; [done|].
  destruct (out_of_reach _ best _) eqn:Hreach; [done|].
  exists best, v, m. split; [done|]. split; [done|].
  destruct v as [|maker v]; [by injection H as <-|].
  unfold sweep, taker_trade.
  set (s1 := match type (deref (heap s) t) with BUY => _ | SELL => _ end) in *.
  destruct (level_find best (side _ (book s1))) as [[|front rest]|]; [done| |done].
  f_equal. destruct (isFullyFilled _); [|by injection H]. destruct rest; by injection H.
Qed.

Lemma match_step_Dangling t s :
  match_step dis t s = Dangling ->
  let order := deref (heap s) t in
  let opp := opposite (type order) in
  exists best maker v m,
    side opp (book s) = (best, maker :: v) :: m /\
    sweep opp best (taker_trade dis t maker s) = None.
Proof.
  unfold match_step. intros H. simpl.
  destruct (0 <? getRemainingQuantity (deref (heap s) t)) eqn:Hrem; simpl in H; [|done].
  destruct (side _ (book s)) as [|[best v] m] eqn:Hside; [done|].
  destruct (out_of_reach _ best _) eqn:Hreach; [done|].
  destruct v as [|maker v]; [done|].
  exists best, maker, v, m. split; [done|].
  unfold sweep, taker_trade.
  set (s1 := match type (deref (heap s) t) with BUY => _ | SELL => _ end) in *.
  destruct (level_find best (side _ (book s1))) as [[|front rest]|]; [done| |done].
  destruct (isFullyFilled _); [|done]. by destruct rest.
Qed.

Lemma set_side_shrinks opp m' s :
  ladder_le m' (side opp (book s)) ->
  shrinks s (set_book (set_side opp m' (book s)) s).
Proof.
  intros Hle. constructor; simpl.
  - apply same_static_refl.
  - intros t. rewrite side_set_side. case_decide as Ht; [by subst|apply ladder_le_refl].
  - by destruct opp.
  - done.
Qed.

Lemma sweep_shrinks opp best s s' :
  sweep opp best s = Some s' ->
  shrinks s s' /\ heap s' = heap s /\ out s' = out s /\ draws s' = draws s.
Proof.
  unfold sweep. destruct (level_find best _) as [[|front rest]|] eqn:Hf; [done| |done].
  intros [= <-]. destruct (isFullyFilled _); [|by auto using shrinks_refl].
  split; [|done]. apply set_side_shrinks. destruct rest as [|x rest].
  - apply ladder_le_erase.
  - eapply ladder_le_set; [exact Hf| |simpl; lia].
    intros y Hy. apply elem_of_cons. by right.
Qed.

Lemma taker_trade_shrinks t maker s : shrinks s (taker_trade dis t maker s).
Proof. unfold taker_trade. case_match; apply execute_trade_shrinks. Qed.

Lemma match_step_shrinks t s s' : match_step dis t s = Continue s' -> shrinks s s'.
Proof.
  intros (_ & best & v & m & Hside & _ & Hv)%match_step_Continue.
  destruct v as [|maker v].
  - subst s'. apply set_side_shrinks, ladder_le_erase.
  - eapply shrinks_trans; [apply taker_trade_shrinks|].
    by eapply sweep_shrinks.
Qed.

Lemma match_loop_shrinks fuel t s s' :
  match_loop dis fuel t s = Returns s' -> shrinks s s'.
Proof.
  revert s. induction fuel as [|fuel IH]; intros s; simpl; [done|].
  destruct (match_step dis t s) as [s1|s1|] eqn:Hstep; [| |done].
  - apply match_step_Break in Hstep as [-> _]. intros [= <-]. apply shrinks_refl.
  - intros H. eapply shrinks_trans; [by eapply match_step_shrinks|by apply IH].
Qed.

(** When the loop is left, the incoming order is exhausted or nothing on the
    other side is within its limit. *)
Lemma match_loop_exit fuel t s s' :
  match_loop dis fuel t s = Returns s' ->
  let order := deref (heap s') t in
  getRemainingQuantity order <= 0 \/
  side (opposite (type order)) (book s') = [] \/
  exists best v m, side (opposite (type order)) (book s') = (best, v) :: m /\
                   out_of_reach (type order) best (price order) = true.
Proof.
  revert s. induction fuel as [|fuel IH]; intros s; simpl; [done|].
  destruct (match_step dis t s) as [s1|s1|] eqn:Hstep; [| |done].
  - apply match_step_Break in Hstep as [-> Hexit]. by intros [= <-].
  - apply IH.
Qed.

(** *** The book is never crossed *)

Lemma uncrossed_empty : uncrossed empty_book.
Proof.
  constructor; try constructor. intros pb pa Hb. by apply elem_of_nil in Hb.
Qed.

Lemma shrinks_uncrossed s s' : shrinks s s' -> uncrossed (book s) -> uncrossed (book s').
Proof.
  intros [_ Hside _ _] [Hb Ha Hc]. constructor.
  - by apply (le_sorted _ _ (Hside BUY)).
  - by apply (le_sorted _ _ (Hside SELL)).
  - intros pb pa Hpb Hpa. apply Hc.
    + by apply (le_keys _ _ (Hside BUY)).
    + by apply (le_keys _ _ (Hside SELL)).
Qed.

Lemma uncrossed_sorted t b : uncrossed b -> sorted t (side t b).
Proof. intros []. by destruct t. Qed.

Lemma add_order_uncrossed t s :
  let order := deref (heap s) t in
  uncrossed (book s) ->
  (side (opposite (type order)) (book s) = [] \/
   exists best v m, side (opposite (type order)) (book s) = (best, v) :: m /\
                    out_of_reach (type order) best (price order) = true) ->
  uncrossed (book (add_order t s)).
Proof.
  intros order Hun Hexit. unfold add_order. fold order.
  destruct (quantity order <=? 0); [done|]. simpl.
  assert (forall k, k ∈ keys (side (opposite (type order)) (book s)) ->
            match type order with BUY => price order < k | SELL => k < price order end)
    as Hfar.
  { intros k Hk. destruct Hexit as [He|(best & v & m & He & Hreach)].
    - rewrite He in Hk. by apply elem_of_nil in Hk.
    - pose proof (uncrossed_sorted (opposite (type order)) _ Hun) as Hs.
      rewrite He in Hs, Hk. destruct (sorted_front _ _ _ _ _ Hs Hk) as [->|Hb];
        destruct (type order); simpl in *; lia. }
  destruct Hun as [Hb Ha Hc].
  destruct (type order); simpl in *; constructor; simpl;
    auto using sorted_level_push.
  - intros pb pa [->|Hpb]%keys_level_push Hpa; [by apply Hfar|by apply Hc].
  - intros pb pa Hpb [->|Hpa]%keys_level_push; [by apply Hfar|by apply Hc].
Qed.

Lemma match_order_uncrossed t s s' :
  match_order dis t s = Returns s' -> uncrossed (book s) -> uncrossed (book s').
Proof.
  unfold match_order. destruct (quantity _ <=? 0); [by intros [= <-]|].
  destruct (match_loop _ _ _ _) as [s1| |] eqn:Hloop; simpl; [|done..].
  intros [= <-] Hun.
  pose proof (shrinks_uncrossed _ _ (match_loop_shrinks _ _ _ _ Hloop) Hun) as Hun1.
  destruct (0 <? getRemainingQuantity _) eqn:Hrem; [|done].
  apply add_order_uncrossed; [done|].
  destruct (match_loop_exit _ _ _ _ Hloop) as [?|[?|?]]; [lia|auto..].
Qed.

Lemma submit_order_uncrossed ty p qty sym client s id s' :
  submit_order dis ty p qty sym client s = Returns (id, s') ->
  uncrossed (book s) -> uncrossed (book s').
Proof.
  unfold submit_order. destruct (_ || _); [by intros [= _ <-]|].
  simpl. destruct (match_order _ _ _) as [s1| |] eqn:Hm; simpl; [|done..].
  intros [= _ <-]. by apply (match_order_uncrossed _ _ _ Hm).
Qed.

Lemma modify_order_uncrossed id p qty s r s' :
  modify_order dis id p qty s = Returns (r, s') ->
  uncrossed (book s) -> uncrossed (book s').
Proof.
  unfold modify_order. destruct (get_order id s) as [a|]; [|by intros [= _ <-]].
  case_decide; [|by intros [= _ <-]].
  simpl. destruct (match_order _ _ _) as [s1| |] eqn:Hm; simpl; [|done..].
  intros [= _ <-] Hun. apply (match_order_uncrossed _ _ _ Hm). simpl.
  by apply (shrinks_uncrossed _ _ (cancel_order_shrinks id s)).
Qed.

Lemma request_uncrossed r s s' :
  request dis r s = Returns s' -> uncrossed (book s) -> uncrossed (book s').
Proof.
  destruct r as [ty p qty sym client|id|id p qty]; simpl.
  - destruct (submit_order _ _ _ _ _ _ _) as [[id s1]| |] eqn:Hs; simpl; [|done..].
    intros [= <-]. by eapply submit_order_uncrossed.
  - intros [= <-]. apply shrinks_uncrossed, cancel_order_shrinks.
  - destruct (modify_order _ _ _ _ _) as [[r s1]| |] eqn:Hs; simpl; [|done..].
    intros [= <-]. by eapply modify_order_uncrossed.
Qed.

Lemma session_uncrossed rs s s' :
  session dis rs s = Returns s' -> uncrossed (book s) -> uncrossed (book s').
Proof.
  revert s. induction rs as [|r rs IH]; intros s; simpl; [by intros [= <-]|].
  destruct (request dis r s) as [s1| |] eqn:Hr; simpl; [|done..].
  intros Hs Hun. eapply IH; [exact Hs|]. by eapply request_uncrossed.
Qed.

(** *** The matching loop terminates *)

Lemma remove_order_weight id s :
  let s' := (remove_order id s).2 in
  (book_weight (book s') < book_weight (book s))%nat \/
  (buyOrders (book s') = buyOrders (book s) /\ sellOrders (book s') = sellOrders (book s)).
Proof.
  unfold remove_order. destruct (orderMap (book s) !! id) as [a|]; simpl; [|by right].
  set (o := deref (heap s) a).
  set (b := set_orderMap _ _).
  destruct (level_find (price o) (side (type o) b)) as [v|] eqn:Hf; [|by right].
  pose proof (strip_level (heap s) id _ _ _ Hf) as Hw. simpl in Hw.
  destruct (strip (heap s) id v); unfold book_weight;
    destruct (type o); simpl in *; destruct Hw as [Hw| ->]; (by right) || (left; lia).
Qed.

Lemma settle_weight x s :
  (book_weight (book (settle x s)) < book_weight (book s))%nat \/
  (buyOrders (book (settle x s)) = buyOrders (book s) /\
   sellOrders (book (settle x s)) = sellOrders (book s)).
Proof. unfold settle. case_match; [apply remove_order_weight|by right]. Qed.

Lemma shrinks_weight s s' :
  shrinks s s' -> (book_weight (book s') <= book_weight (book s))%nat.
Proof.
  intros [_ Hside _ _]. unfold book_weight.
  pose proof (le_weight _ _ (Hside BUY)). pose proof (le_weight _ _ (Hside SELL)).
  simpl in *. lia.
Qed.

Lemma execute_trade_weight b a qty s :
  (book_weight (book (execute_trade dis b a qty s)) < book_weight (book s))%nat \/
  (buyOrders (book (execute_trade dis b a qty s)) = buyOrders (book s) /\
   sellOrders (book (execute_trade dis b a qty s)) = sellOrders (book s)).
Proof.
  rewrite execute_trade_steps.
  set (s2 := fill_at a qty _).
  change (book (emit ?x ?y)) with (book y).
  change (book s) with (book s2).
  pose proof (shrinks_weight _ _ (settle_shrinks a (settle b s2))).
  destruct (settle_weight b s2) as [?|[Hb Hs]]; [left; lia|].
  destruct (settle_weight a (settle b s2)) as [Hlt|[Hb' Hs']].
  - left. unfold book_weight in *. rewrite <- Hb, <- Hs. exact Hlt.
  - right. split; congruence.
Qed.

Lemma remaining_traded b a qty h z :
  getRemainingQuantity (deref (traded b a qty h) z) =
  getRemainingQuantity (deref h z)
  - (if decide (b = z /\ (b < length h)%nat) then qty else 0)
  - (if decide (a = z /\ (a < length h)%nat) then qty else 0).
Proof.
  unfold traded. rewrite !deref_insert, length_insert.
  repeat case_decide; rewrite ?fill_remaining, ?deref_insert; repeat case_decide;
    rewrite ?fill_remaining; intuition (subst; try lia).
Qed.

Lemma deref_out_of_range h z : (length h <= z)%nat -> deref h z = null_Order.
Proof. intros H. unfold deref. by rewrite lookup_ge_None_2. Qed.

Lemma isFullyFilled_remaining o : isFullyFilled o = false <-> 0 < getRemainingQuantity o.
Proof. unfold isFullyFilled, getRemainingQuantity. lia. Qed.

Lemma side_unchanged t b b' :
  buyOrders b' = buyOrders b -> sellOrders b' = sellOrders b -> side t b' = side t b.
Proof. by destruct t. Qed.

Lemma weight_side t b m :
  (ladder_weight m < ladder_weight (side t b))%nat ->
  (book_weight (set_side t m b) < book_weight b)%nat.
Proof. unfold book_weight. destruct t; simpl; lia. Qed.

Lemma level_find_front best v m : level_find best ((best, v) :: m) = Some v.
Proof. simpl. by rewrite Z.eqb_refl. Qed.

(** A turn that goes on takes something out of the book, or leaves the
    incoming order with nothing to fill. *)
Lemma match_step_progress t s s' :
  match_step dis t s = Continue s' ->
  (book_weight (book s') < book_weight (book s))%nat \/
  ((book_weight (book s') <= book_weight (book s))%nat /\
   getRemainingQuantity (deref (heap s') t) <= 0).
Proof.
  intros Hstep. pose proof (match_step_shrinks _ _ _ Hstep) as Hsh.
  apply match_step_Continue in Hstep as (Hrem & best & v & m & Hside & _ & Hv).
  destruct v as [|maker v].
  { left. subst s'. apply weight_side. simpl. rewrite Hside. simpl.
    rewrite Z.eqb_refl. lia. }
  set (opp := opposite (type (deref (heap s) t))) in *.
  set (s1 := taker_trade dis t maker s) in *.
  pose proof (shrinks_weight _ _ (taker_trade_shrinks t maker s)) as Hw1. fold s1 in Hw1.
  unfold sweep in Hv.
  destruct (level_find best (side opp (book s1))) as [[|front rest]|] eqn:Hf; [done| |done].
  injection Hv as <-.
  destruct (isFullyFilled (deref (heap s1) front)) eqn:Hfull.
  { left. simpl. eapply Nat.lt_le_trans; [|exact Hw1]. apply weight_side.
    destruct rest as [|x rest].
    - pose proof (weight_level_erase _ _ _ Hf). lia.
    - pose proof (weight_level_set best _ _ (x :: rest) Hf). simpl in *. lia. }
  assert ((book_weight (book s1) < book_weight (book s))%nat \/
          (buyOrders (book s1) = buyOrders (book s) /\
           sellOrders (book s1) = sellOrders (book s))) as [?|[Hb Ha]].
  { subst s1. unfold taker_trade. case_match; apply execute_trade_weight. }
  { by left. }
  right. split; [done|].
  rewrite (side_unchanged opp _ _ Hb Ha), Hside, level_find_front in Hf.
  injection Hf as <- <-.
  apply isFullyFilled_remaining in Hfull.
  assert (exists b a, ((b = t /\ a = maker) \/ (b = maker /\ a = t)) /\
            heap s1 = traded b a
              (Z.min (getRemainingQuantity (deref (heap s) t))
                     (getRemainingQuantity (deref (heap s) maker))) (heap s))
    as (b & a & Hba & Hheap).
  { subst s1. unfold taker_trade. case_match.
    - exists t, maker. split; [by left|]. apply execute_trade_frame.
    - exists maker, t. split; [by right|]. apply execute_trade_frame. }
  rewrite Hheap in Hfull |- *. rewrite remaining_traded in Hfull |- *.
  destruct (decide (length (heap s) <= t)%nat) as [Ht|Ht].
  { rewrite (deref_out_of_range _ _ Ht) in Hrem. by compute in Hrem. }
  destruct (decide (length (heap s) <= maker)%nat) as [Hm|Hm].
  { rewrite (deref_out_of_range _ _ Hm) in Hfull.
    change (getRemainingQuantity null_Order) with 0 in Hfull.
    repeat case_decide; lia. }
  unfold addr in *.
  destruct Hba as [[-> ->]|[-> ->]].
  all: repeat case_decide; destruct_and?; simplify_eq; lia.
Qed.

Lemma match_loop_fuel fuel t s :
  (measure t s < fuel)%nat -> match_loop dis fuel t s ≠ OutOfFuel.
Proof.
  revert s. induction fuel as [|fuel IH]; intros s Hm; [lia|]. simpl.
  destruct (match_step dis t s) as [s1|s1|] eqn:Hstep; [done| |done].
  apply IH. pose proof (match_step_progress _ _ _ Hstep) as Hp.
  apply match_step_Continue in Hstep as [Hrem _]. unfold measure in *.
  destruct (0 <? getRemainingQuantity (deref (heap s) t)) eqn:H0; [|lia].
  destruct (0 <? getRemainingQuantity (deref (heap s1) t)) eqn:H1; lia.
Qed.

Lemma match_order_fuel t s : match_order dis t s ≠ OutOfFuel.
Proof.
  unfold match_order. destruct (quantity _ <=? 0); [done|].
  pose proof (match_loop_fuel (S (S (book_weight (book s)))) t s) as Hf.
  destruct (match_loop _ _ _ _); simpl; [done..|].
  exfalso. apply Hf; [|done]. unfold measure. case_match; lia.
Qed.

(** *** Conservation of quantity *)

Lemma traded_quantity_app ts ts' :
  traded_quantity (ts ++ ts') = traded_quantity ts + traded_quantity ts'.
Proof. unfold traded_quantity. induction ts; simpl; lia. Qed.

Lemma sum_one_less (f g : nat -> Z) (m : nat) (q : Z) i n :
  (forall a, (i <= a < i + n)%nat -> g a = f a - if decide (m = a) then q else 0) ->
  foldr (fun a acc => g a + acc) 0 (seq i n) =
  foldr (fun a acc => f a + acc) 0 (seq i n)
  - if decide (i <= m < i + n)%nat then q else 0.
Proof.
  revert i. induction n as [|n IH]; intros i Hg; simpl.
  - case_decide; lia.
  - rewrite IH, Hg; [|lia|intros a Ha; apply Hg; lia].
    repeat case_decide; lia.
Qed.

Lemma shrinks_below t s s' : shrinks s s' -> below t s -> below t s'.
Proof.
  intros [_ Hside _ _] Hb ty a Ha. apply (Hb ty). by apply (le_addrs _ _ (Hside ty)).
Qed.

Lemma shrinks_length s s' : shrinks s s' -> length (heap s') = length (heap s).
Proof. by intros [[-> _] _ _ _]. Qed.

Lemma conserved_refl t s : conserved t s s.
Proof. exists []. rewrite app_nil_r. simpl. split; [done|]. split; lia. Qed.

Lemma conserved_trans t s1 s2 s3 :
  conserved t s1 s2 -> conserved t s2 s3 -> conserved t s1 s3.
Proof.
  intros (ts & Ho & Ht & Hm) (ts' & Ho' & Ht' & Hm'). exists (ts ++ ts').
  rewrite Ho', Ho, app_assoc, traded_quantity_app. split; [done|]. split; lia.
Qed.

Lemma conserved_same t s s' : heap s' = heap s -> out s' = out s -> conserved t s s'.
Proof.
  intros Hh Ho. exists []. rewrite app_nil_r, Hh. simpl. split; [done|]. split; lia.
Qed.

Lemma taker_trade_conserved t maker s :
  (maker < t)%nat -> (t < length (heap s))%nat ->
  conserved t s (taker_trade dis t maker s).
Proof.
  intros Hm Ht.
  set (q := Z.min (getRemainingQuantity (deref (heap s) t))
                  (getRemainingQuantity (deref (heap s) maker))).
  assert (exists b a, ((b = t /\ a = maker) \/ (b = maker /\ a = t)) /\
            heap (taker_trade dis t maker s) = traded b a q (heap s) /\
            out (taker_trade dis t maker s) = out s ++ [trade_of dis b a q s])
    as (b & a & Hba & Hheap & Hout).
  { unfold taker_trade. fold q. case_match.
    - exists t, maker. split; [by left|]. split; apply execute_trade_frame.
    - exists maker, t. split; [by right|]. split; apply execute_trade_frame. }
  exists [trade_of dis b a q s]. split; [done|]. rewrite Hheap.
  change (traded_quantity [trade_of dis b a q s]) with (q + 0).
  unfold addr in *. split.
  - rewrite remaining_traded. destruct Hba as [[-> ->]|[-> ->]];
      repeat case_decide; destruct_and?; simplify_eq; lia.
  - unfold total_remaining, addr.
    rewrite (sum_one_less (fun z => getRemainingQuantity (deref (heap s) z))
               (fun z => getRemainingQuantity (deref (traded b a q (heap s)) z))
               maker q).
    + case_decide; lia.
    + intros z Hz. rewrite remaining_traded.
      destruct Hba as [[-> ->]|[-> ->]];
        repeat case_decide; destruct_and?; simplify_eq; lia.
Qed.

Lemma match_step_conserved t s s' :
  below t s -> (t < length (heap s))%nat ->
  match_step dis t s = Continue s' -> conserved t s s'.
Proof.
  intros Hb Ht (_ & best & v & m & Hside & _ & Hv)%match_step_Continue.
  destruct v as [|maker v]; [by subst s'; apply conserved_same|].
  eapply conserved_trans.
  - apply taker_trade_conserved; [|done]. eapply Hb. rewrite Hside, addrs_cons.
    apply elem_of_app. left. apply elem_of_cons. by left.
  - apply sweep_shrinks in Hv as (_ & Hh & Ho & _). by apply conserved_same.
Qed.

Lemma match_loop_conserved fuel t s s' :
  below t s -> (t < length (heap s))%nat ->
  match_loop dis fuel t s = Returns s' -> conserved t s s'.
Proof.
  revert s. induction fuel as [|fuel IH]; intros s Hb Ht; simpl; [done|].
  destruct (match_step dis t s) as [s1|s1|] eqn:Hstep; [| |done].
  - apply match_step_Break in Hstep as [-> _]. intros [= <-]. apply conserved_refl.
  - intros Hloop. pose proof (match_step_shrinks _ _ _ Hstep) as Hsh.
    eapply conserved_trans; [by eapply match_step_conserved|].
    apply IH; [by eapply shrinks_below| |done].
    by rewrite (shrinks_length _ _ Hsh).
Qed.

Lemma add_order_frame t s :
  heap (add_order t s) = heap s /\ out (add_order t s) = out s /\
  draws (add_order t s) = draws s /\ orderCounter (add_order t s) = orderCounter s.
Proof. unfold add_order. by case_match. Qed.

Lemma match_order_conserved t s s' :
  below t s -> (t < length (heap s))%nat ->
  match_order dis t s = Returns s' -> conserved t s s'.
Proof.
  intros Hb Ht. unfold match_order.
  destruct (quantity _ <=? 0); [intros [= <-]; apply conserved_refl|].
  destruct (match_loop _ _ _ _) as [s1| |] eqn:Hloop; simpl; [|done..].
  intros [= <-]. eapply conserved_trans; [by eapply match_loop_conserved|].
  case_match; [|apply conserved_refl].
  destruct (add_order_frame t s1) as (Hh & Ho & _). by apply conserved_same.
Qed.

(** *** Pointers of the book are to allocated orders *)

Lemma add_order_below t s n :
  below n s -> (t < n)%nat -> below n (add_order t s).
Proof.
  intros Hb Ht ty a. unfold add_order. case_match; [apply Hb|]. simpl.
  set (o := deref (heap s) t).
  intros Ha. destruct ty, (type o); simpl in *;
    try apply addrs_level_push in Ha as [->|Ha]; try done;
    first [by apply (Hb BUY)|by apply (Hb SELL)].
Qed.

Lemma match_order_closed t s s' :
  below (length (heap s)) s -> (t < length (heap s))%nat ->
  match_order dis t s = Returns s' -> closed s'.
Proof.
  intros Hb Ht. unfold match_order, closed.
  destruct (quantity _ <=? 0); [by intros [= <-]|].
  destruct (match_loop _ _ _ _) as [s1| |] eqn:Hloop; simpl; [|done..].
  intros [= <-]. pose proof (match_loop_shrinks _ _ _ _ Hloop) as Hsh.
  assert (below (length (heap s1)) s1) as Hb1.
  { rewrite (shrinks_length _ _ Hsh). by eapply shrinks_below. }
  case_match; [|done].
  destruct (add_order_frame t s1) as (-> & _).
  apply add_order_below; [done|]. by rewrite (shrinks_length _ _ Hsh).
Qed.

Lemma below_mono n n' s : (n <= n')%nat -> below n s -> below n' s.
Proof. intros Hn Hb ty a Ha. specialize (Hb ty a Ha). lia. Qed.

Lemma submit_order_closed ty p qty sym client s id s' :
  submit_order dis ty p qty sym client s = Returns (id, s') ->
  closed s -> closed s'.
Proof.
  unfold submit_order. destruct (_ || _); [by intros [= _ <-]|].
  simpl. destruct (match_order _ _ _) as [s1| |] eqn:Hm; simpl; [|done..].
  intros [= _ <-] Hc. apply (match_order_closed _ _ _) in Hm; [done| |]; simpl.
  - rewrite length_app. simpl. eapply below_mono; [|exact Hc]. lia.
  - rewrite length_app. simpl. lia.
Qed.

Lemma cancel_order_closed id s : closed s -> closed (cancel_order id s).2.
Proof.
  intros Hc. unfold closed.
  destruct (cancel_order_frame id s) as (-> & _).
  by apply (shrinks_below _ _ _ (cancel_order_shrinks id s)).
Qed.

Lemma modify_order_closed id p qty s r s' :
  modify_order dis id p qty s = Returns (r, s') -> closed s -> closed s'.
Proof.
  unfold modify_order. destruct (get_order id s) as [a|]; [|by intros [= _ <-]].
  case_decide; [|by intros [= _ <-]].
  simpl. destruct (match_order _ _ _) as [s1| |] eqn:Hm; simpl; [|done..].
  intros [= _ <-] Hc. apply (match_order_closed _ _ _) in Hm; [done| |]; simpl.
  - rewrite length_app. simpl. eapply below_mono; [|apply cancel_order_closed, Hc]. lia.
  - rewrite length_app. simpl. lia.
Qed.

Lemma request_closed r s s' : request dis r s = Returns s' -> closed s -> closed s'.
Proof.
  destruct r as [ty p qty sym client|id|id p qty]; simpl.
  - destruct (submit_order _ _ _ _ _ _ _) as [[id s1]| |] eqn:Hs; simpl; [|done..].
    intros [= <-]. by eapply submit_order_closed.
  - intros [= <-]. apply cancel_order_closed.
  - destruct (modify_order _ _ _ _ _) as [[r s1]| |] eqn:Hs; simpl; [|done..].
    intros [= <-]. by eapply modify_order_closed.
Qed.

Lemma session_closed rs s s' : session dis rs s = Returns s' -> closed s -> closed s'.
Proof.
  revert s. induction rs as [|r rs IH]; intros s; simpl; [by intros [= <-]|].
  destruct (request dis r s) as [s1| |] eqn:Hr; simpl; [|done..].
  intros Hs Hc. eapply IH; [exact Hs|]. by eapply request_closed.
Qed.

Lemma closed_init : closed init.
Proof. intros [] a Ha; by apply elem_of_nil in Ha. Qed.

Lemma match_order_static t s s' :
  match_order dis t s = Returns s' -> same_static (heap s) (heap s').
Proof.
  unfold match_order. destruct (quantity _ <=? 0);
    [intros [= <-]; apply same_static_refl|].
  destruct (match_loop _ _ _ _) as [s1| |] eqn:Hloop; simpl; [|done..].
  intros [= <-]. pose proof (match_loop_shrinks _ _ _ _ Hloop) as [Hst _ _ _].
  destruct (add_order_frame t s1) as (Hh & _). case_match; by rewrite ?Hh.
Qed.

Lemma total_remaining_ext n h h' :
  (forall a, (a < n)%nat ->
     getRemainingQuantity (deref h' a) = getRemainingQuantity (deref h a)) ->
  total_remaining n h' = total_remaining n h.
Proof.
  unfold total_remaining. intros H.
  assert (forall i k, (i + k <= n)%nat ->
    foldr (fun a acc => getRemainingQuantity (deref h' a) + acc) 0 (seq i k) =
    foldr (fun a acc => getRemainingQuantity (deref h a) + acc) 0 (seq i k)) as Hgen.
  { intros i k. revert i. induction k as [|k IH]; intros i Hik; simpl; [done|].
    rewrite IH, H; [done|lia..]. }
  apply Hgen. lia.
Qed.

(** *** No request runs out of fuel *)

Lemma submit_order_fuel ty p qty sym client s :
  submit_order dis ty p qty sym client s ≠ OutOfFuel.
Proof.
  unfold submit_order. destruct (_ || _); [done|]. simpl.
  set (s1 := set_heap _ _). set (t := length (heap s)).
  pose proof (match_order_fuel t s1). by destruct (match_order dis t s1).
Qed.

Lemma modify_order_fuel id p qty s : modify_order dis id p qty s ≠ OutOfFuel.
Proof.
  unfold modify_order. destruct (get_order id s); [|done]. case_decide; [|done].
  simpl. set (s1 := set_heap _ _). set (t := length (heap _)).
  pose proof (match_order_fuel t s1). by destruct (match_order dis t s1).
Qed.

Lemma session_fuel rs s : session dis rs s ≠ OutOfFuel.
Proof.
  revert s. induction rs as [|r rs IH]; intros s; simpl; [done|].
  destruct (request dis r s) as [s1| |] eqn:Hr; simpl; [apply IH|done|].
  destruct r as [ty p qty sym client|id|id p qty]; simpl in Hr.
  - pose proof (submit_order_fuel ty p qty sym client s).
    by destruct (submit_order dis ty p qty sym client s).
  - done.
  - pose proof (modify_order_fuel id p qty s).
    by destruct (modify_order dis id p qty s).
Qed.

End Facts.

(** ** Emitted trades and their ids *)

(** [execute_trade] prices every trade at [sellOrder->price], whoever the
    maker is. *)
Lemma taker_trade_price dis t maker s :
  exists tr, out (taker_trade dis t maker s) = out s ++ [tr] /\
    trade_price tr =
      price (deref (heap s) (match type (deref (heap s) t) with
                             | BUY => maker
                             | SELL => t
                             end)).
Proof.
  unfold taker_trade. case_match; eexists; (split; [apply execute_trade_frame|done]).
Qed.

Section TradeIds.

Variable dis : nat -> Z.

Lemma emits_same s s' : out s' = out s -> draws s' = draws s -> emits dis s s'.
Proof. intros Ho Hd. exists []. rewrite app_nil_r. simpl. split; [done|]. split; [lia|done]. Qed.

Lemma emits_trans s1 s2 s3 : emits dis s1 s2 -> emits dis s2 s3 -> emits dis s1 s3.
Proof.
  intros (ts & Ho & Hd & Hi) (ts' & Ho' & Hd' & Hi'). exists (ts ++ ts').
  rewrite Ho', Ho, app_assoc, Hd', Hd, length_app, map_app, Hi, Hi', Hd.
  split; [done|]. split; [lia|]. unfold ids_of. by rewrite seq_app, map_app.
Qed.

Lemma taker_trade_emits t maker s : emits dis s (taker_trade dis t maker s).
Proof.
  unfold taker_trade. case_match;
    match goal with
    | |- emits dis _ (execute_trade _ ?b ?a ?q _) =>
        destruct (execute_trade_frame dis b a q s) as (_ & Ho & Hd);
        exists [trade_of dis b a q s]
    end; (split; [done|]); (split; [rewrite Hd; simpl; lia|done]).
Qed.

Lemma match_step_emits t s s' : match_step dis t s = Continue s' -> emits dis s s'.
Proof.
  intros (_ & best & v & m & _ & _ & Hv)%match_step_Continue.
  destruct v as [|maker v]; [by subst s'; apply emits_same|].
  eapply emits_trans; [apply taker_trade_emits|].
  apply sweep_shrinks in Hv as (_ & _ & Ho & Hd). by apply emits_same.
Qed.

Lemma match_loop_emits fuel t s s' : match_loop dis fuel t s = Returns s' -> emits dis s s'.
Proof.
  revert s. induction fuel as [|fuel IH]; intros s; simpl; [done|].
  destruct (match_step dis t s) as [s1|s1|] eqn:Hstep; [| |done].
  - apply match_step_Break in Hstep as [-> _]. intros [= <-]. by apply emits_same.
  - intros H. eapply emits_trans; [by eapply match_step_emits|by apply IH].
Qed.

Lemma match_order_emits t s s' : match_order dis t s = Returns s' -> emits dis s s'.
Proof.
  unfold match_order. destruct (quantity _ <=? 0); [intros [= <-]; by apply emits_same|].
  destruct (match_loop _ _ _ _) as [s1| |] eqn:Hloop; simpl; [|done..].
  intros [= <-]. eapply emits_trans; [by eapply match_loop_emits|].
  case_match; [|by apply emits_same].
  destruct (add_order_frame t s1) as (_ & Ho & Hd & _). by apply emits_same.
Qed.

Lemma request_emits r s s' : request dis r s = Returns s' -> emits dis s s'.
Proof.
  destruct r as [ty p qty sym client|id|id p qty]; simpl.
  - unfold submit_order. destruct (_ || _); [intros [= <-]; by apply emits_same|].
    simpl. destruct (match_order _ _ _) as [s1| |] eqn:Hm; simpl; [|done..].
    intros [= <-]. eapply emits_trans; [|by eapply match_order_emits].
    by apply emits_same.
  - intros [= <-]. destruct (cancel_order_frame id s) as (_ & Ho & Hd).
    by apply emits_same.
  - unfold modify_order. destruct (get_order id s) as [a|];
      [|intros [= <-]; by apply emits_same].
    case_decide; [|intros [= <-]; by apply emits_same].
    simpl. destruct (match_order _ _ _) as [s1| |] eqn:Hm; simpl; [|done..].
    intros [= <-]. eapply emits_trans; [|by eapply match_order_emits].
    destruct (cancel_order_frame id s) as (_ & Ho & Hd). by apply emits_same.
Qed.

Lemma session_emits rs s s' : session dis rs s = Returns s' -> emits dis s s'.
Proof.
  revert s. induction rs as [|r rs IH]; intros s; simpl;
    [intros [= <-]; by apply emits_same|].
  destruct (request dis r s) as [s1| |] eqn:Hr; simpl; [|done..].
  intros Hs. eapply emits_trans; [by eapply request_emits|by apply IH].
Qed.

End TradeIds.

Lemma example_draws_range k : 100000 <= example_draws k <= 999999.
Proof.
  unfold example_draws.
  pose proof (Z.mod_pos_bound (Z.of_nat k * 7919) 900000). lia.
Qed.

(** ** The index after a cancel or a fill *)

Lemma remove_order_gone id s : get_order id (remove_order id s).2 = None.
Proof.
  unfold remove_order, get_order.
  destruct (orderMap (book s) !! id) as [a|] eqn:Hid; simpl; [|done].
  set (o := deref (heap s) a). set (b := set_orderMap _ _).
  assert (orderMap b !! id = None) as Hb by apply lookup_delete_eq.
  destruct (level_find _ _); [|done]. destruct (strip _ _ _); by destruct (type o).
Qed.

Lemma cancel_order_gone id s : get_order id (cancel_order id s).2 = None.
Proof.
  unfold cancel_order. destruct (orderMap (book s) !! id) as [a|] eqn:Hid; [|done].
  apply remove_order_gone.
Qed.

Lemma cancel_order_found id s a :
  get_order id s = Some a -> (cancel_order id s).1 = true.
Proof.
  unfold get_order, cancel_order, remove_order. intros H. rewrite H. simpl.
  by rewrite H.
Qed.

Lemma shrinks_gone id s s' : shrinks s s' -> get_order id s = None -> get_order id s' = None.
Proof.
  intros [_ _ Hmap _]. unfold get_order. intros Hn.
  by apply (lookup_weaken_None _ _ _ Hn).
Qed.



(** ** Where a new order comes to rest *)

Section Modify.

Variable dis : nat -> Z.

(** [add_order] puts the order in the index and at the back of the queue of
    its price. *)
Lemma add_order_rests t s :
  let order := deref (heap s) t in
  (quantity order <=? 0) = false ->
  get_order (orderId order) (add_order t s) = Some t /\
  exists v, level_find (price order) (side (type order) (book (add_order t s)))
            = Some (v ++ [t]).
Proof.
  intros order Hq. unfold add_order, get_order. fold order. rewrite Hq.
  destruct (type order); simpl; (split; [apply lookup_insert_eq|apply level_find_push]).
Qed.

(** What the matching run of [match_order] does for an id that is not in the
    index when it starts: if the id is in the index at the end, the incoming
    order has been added, at the back of the queue of its price. *)
Lemma match_order_rests t s s' a' :
  let order := deref (heap s) t in
  get_order (orderId order) s = None ->
  match_order dis t s = Returns s' ->
  get_order (orderId order) s' = Some a' ->
  a' = t /\
  exists v, level_find (price order) (side (type order) (book s')) = Some (v ++ [t]).
Proof.
  intros order Hnone. unfold match_order. fold order.
  destruct (quantity order <=? 0) eqn:Hq; [intros [= <-]; congruence|].
  destruct (match_loop _ _ _ _) as [s1| |] eqn:Hloop; simpl; [|done..].
  pose proof (match_loop_shrinks _ _ _ _ _ Hloop) as Hsh.
  pose proof (shrinks_gone _ _ _ Hsh Hnone) as Hnone1.
  destruct Hsh as [[_ Hst] _ _ _]. destruct (Hst t) as (Hid & Hty & Hpr & Hqty & _).
  fold order in Hid, Hty, Hpr, Hqty.
  intros [= <-]. case_match; [|congruence].
  pose proof (add_order_rests t s1) as Hadd. simpl in Hadd.
  rewrite Hid, Hty, Hpr, Hqty in Hadd. destruct (Hadd Hq) as [Hlook Hv].
  rewrite Hlook. intros [= <-]. done.
Qed.

Lemma match_order_counter t s s' :
  match_order dis t s = Returns s' -> orderCounter s' = orderCounter s.
Proof.
  unfold match_order. destruct (quantity _ <=? 0); [by intros [= <-]|].
  destruct (match_loop _ _ _ _) as [s1| |] eqn:Hloop; simpl; [|done..].
  intros [= <-]. pose proof (match_loop_shrinks _ _ _ _ _ Hloop) as [_ _ _ Hc].
  destruct (add_order_frame t s1) as (_ & _ & _ & Hc'). case_match; congruence.
Qed.

End Modify.

(** ** Projections *)

Lemma update_market_data_fresh s :
  projections (book (update_market_data s)) = fresh_scan (update_market_data s).
Proof. reflexivity. Qed.


(** * The claims of the specification *)

(** ** The dangling reference of the matching loop *)

(** A run that fills the only order of a price level does not return: for a
    SELL of 100 at 100.00 followed by a BUY of 100 at 101.00,
    [execute_trade] removes the filled sell through [remove_order], which
    erases the level, and the test [sellOrder->isFullyFilled()] that follows
    in [match_order] reads through the reference into the erased level. *)
Lemma full_cross_dangles dis sym client :
  session dis [SUBMIT SELL 10000 100 sym client; SUBMIT BUY 10100 100 sym client] init
  = UseAfterFree.
Proof. by vm_compute. Qed.

(** ** Execution price *)

(** C1, at the input where the code departs from it: a BUY of 100 at 101.00
    rests, a SELL of 40 at 100.00 comes in.  The one trade is between the
    resting buy "O1" and the incoming sell "O2" and is priced 100.00, the
    price of the incoming order, while the resting order it matched is at
    101.00. *)
Theorem sell_aggressor_trades_at_own_price dis sym client :
  exists s,
    session dis [SUBMIT BUY 10100 100 sym client; SUBMIT SELL 10000 40 sym client] init
      = Returns s /\
    out s = [mkTrade ("T" +:+ pretty (dis 0%nat)) "O1" "O2" sym 10000 40] /\
    buyOrders (book s) = [(10100, [0%nat])] /\
    orderId (deref (heap s) 0%nat) = "O1" /\
    price (deref (heap s) 0%nat) = 10100.
Proof. eexists. split; [vm_compute; reflexivity|]. by vm_compute. Qed.

(** ** Time priority *)

(** C2: from the empty book, SELL 50 at 100.00 (A, "O1"), SELL 50 at 100.00
    (B, "O2"), BUY 50 at 100.00 ("O3"): the session returns, exactly one trade
    is emitted, between "O3" and A for 50 at 100.00; A is filled and gone
    from the book; B is the only order left in the book and in the index, at
    100.00, untouched with 50 remaining.  B stays because [sellOrder] in
    [match_order] is a reference to the first slot of the level: after
    [remove_order] has taken A out, the slot holds B, which is not filled,
    and the erasure after [execute_trade] is skipped. *)
Theorem time_priority_scenario dis sym client :
  exists s,
    session dis [SUBMIT SELL 10000 50 sym client; SUBMIT SELL 10000 50 sym client;
                 SUBMIT BUY 10000 50 sym client] init = Returns s /\
    out s = [mkTrade ("T" +:+ pretty (dis 0%nat)) "O3" "O1" sym 10000 50] /\
    deref (heap s) 0%nat = mkOrder "O1" SELL 10000 50 50 FILLED sym client /\
    deref (heap s) 1%nat = mkOrder "O2" SELL 10000 50 0 PENDING sym client /\
    getRemainingQuantity (deref (heap s) 1%nat) = 50 /\
    sellOrders (book s) = [(10000, [1%nat])] /\
    buyOrders (book s) = [] /\
    orderMap (book s) = {["O2" := 1%nat]}.
Proof. eexists. split; [vm_compute; reflexivity|]. by vm_compute. Qed.

(** ** No crossed book *)

(** C3: after every session of submits, cancels and modifies that returns,
    if there is a highest bid price and a lowest ask price (both sides are
    non-empty), the highest bid is strictly below the lowest ask. *)
Theorem no_crossed_book dis rs s pb pa :
  session dis rs init = Returns s ->
  is_highest pb (keys (buyOrders (book s))) ->
  is_lowest pa (keys (sellOrders (book s))) ->
  pb < pa.
Proof.
  intros Hs [Hb _] [Ha _].
  by apply (session_uncrossed _ _ _ _ Hs uncrossed_empty).
Qed.

Lemma no_crossed_book_witness :
  exists s,
    session example_draws example_requests init = Returns s /\
    is_highest 9950 (keys (buyOrders (book s))) /\
    is_lowest 10000 (keys (sellOrders (book s))) /\
    9950 < 10000.
Proof.
  eexists. split; [vm_compute; reflexivity|].
  match goal with
  | |- is_highest _ (keys (buyOrders (book ?s))) /\ _ =>
      pose proof (no_crossed_book example_draws example_requests s 9950 10000) as H
  end.
  assert (is_highest 9950 [9950]) as Hb.
  { split; [by left|]. intros k ->%list_elem_of_singleton. lia. }
  assert (is_lowest 10000 [10000]) as Ha.
  { split; [by left|]. intros k ->%list_elem_of_singleton. lia. }
  split; [exact Hb|]. split; [exact Ha|].
  apply H; [vm_compute; reflexivity|exact Hb|exact Ha].
Defined.

(** ** Conservation of quantity *)

(** C4: in every state a session reaches, for the matching run of an
    accepted submit that returns, the quantities of the trades the run emits
    add up to the submitted quantity minus what remains of the new order at
    the end, and also to the total by which the remaining quantities of the
    orders that existed before the submit went down. *)
Theorem conservation_of_quantity dis rs s ty p qty sym client id s' :
  session dis rs init = Returns s ->
  0 < p -> 0 < qty ->
  submit_order dis ty p qty sym client s = Returns (id, s') ->
  exists trades,
    out s' = out s ++ trades /\
    quantity (deref (heap s') (length (heap s))) = qty /\
    traded_quantity trades
      = qty - getRemainingQuantity (deref (heap s') (length (heap s))) /\
    traded_quantity trades
      = total_remaining (length (heap s)) (heap s)
        - total_remaining (length (heap s)) (heap s').
Proof.
  intros Hs Hp Hq. pose proof (session_closed _ _ _ _ Hs closed_init) as Hc.
  unfold submit_order. destruct (_ || _) eqn:Hv; [lia|]. simpl.
  set (o := new_Order _ ty p qty sym client).
  set (s1 := set_heap (heap s ++ [o]) _).
  destruct (match_order dis (length (heap s)) s1) as [s2| |] eqn:Hm; simpl; [|done..].
  intros [= _ <-].
  assert (length (heap s) < length (heap s1))%nat as Ht.
  { simpl. rewrite length_app. simpl. lia. }
  assert (below (length (heap s)) s1) as Hb by exact Hc.
  destruct (match_order_conserved _ _ _ _ Hb Ht Hm) as (trades & Ho & Htk & Hmk).
  exists trades. split; [exact Ho|].
  assert (deref (heap s1) (length (heap s)) = o) as Ho1 by apply deref_alloc.
  assert (total_remaining (length (heap s)) (heap s1)
          = total_remaining (length (heap s)) (heap s)) as Htot.
  { apply total_remaining_ext. intros a Ha. simpl. by rewrite deref_app_l. }
  rewrite Ho1 in Htk. rewrite Htot in Hmk.
  destruct (match_order_static _ _ _ _ Hm) as [_ Hst].
  destruct (Hst (length (heap s))) as (_ & _ & _ & Hqty & _). rewrite Ho1 in Hqty.
  change (getRemainingQuantity o) with (qty - 0) in Htk.
  split; [exact Hqty|]. split; [lia|exact Hmk].
Qed.

Lemma conservation_of_quantity_witness :
  exists s s',
    session example_draws
      [SUBMIT SELL 10000 30 "X" "c"; SUBMIT SELL 10000 100 "X" "c"] init = Returns s /\
    submit_order example_draws BUY 10050 70 "X" "c" s = Returns ("O3", s') /\
    exists trades,
      out s' = out s ++ trades /\
      quantity (deref (heap s') (length (heap s))) = 70 /\
      traded_quantity trades
        = 70 - getRemainingQuantity (deref (heap s') (length (heap s))) /\
      traded_quantity trades
        = total_remaining (length (heap s)) (heap s)
          - total_remaining (length (heap s)) (heap s').
Proof.
  eexists. eexists. split; [vm_compute; reflexivity|].
  split; [vm_compute; reflexivity|].
  match goal with
  | |- exists trades, out ?s' = out ?s ++ trades /\ _ =>
      apply (conservation_of_quantity example_draws
               [SUBMIT SELL 10000 30 "X" "c"; SUBMIT SELL 10000 100 "X" "c"]
               s BUY 10050 70 "X" "c" "O3" s')
  end; [vm_compute; reflexivity|lia|lia|vm_compute; reflexivity].
Defined.


(** ** Trade identifiers *)

(** C5 does not hold of the code: the ids are not from a counter.  When the
    distribution returns 123456 twice in a row, which it can, two successive
    trades carry the same id, "T123456". *)
Lemma trade_ids_can_repeat :
  exists s,
    session (fun _ => 123456)
      [SUBMIT SELL 10000 100 "X" "c"; SUBMIT BUY 10000 10 "X" "c";
       SUBMIT BUY 10000 10 "X" "c"] init = Returns s /\
    map tradeId (out s) = ["T123456"; "T123456"] /\
    ~ increasing_trade_ids (map tradeId (out s)).
Proof.
  eexists. split; [vm_compute; reflexivity|].
  match goal with
  | |- ?ids = _ /\ _ => assert (ids = ["T123456"; "T123456"]) as Hout by (by vm_compute)
  end.
  split; [exact Hout|]. rewrite Hout.
  intros (ns & Hids & Hsorted).
  destruct ns as [|n1 [|n2 [|n3 ns]]]; try discriminate Hids.
  injection Hids as H1 H2.
  assert (pretty 123456 = pretty n1) as E1 by exact H1.
  assert (pretty 123456 = pretty n2) as E2 by exact H2.
  apply (inj pretty) in E1, E2. subst n1 n2.
  apply StronglySorted_inv in Hsorted as [_ Hlt].
  apply Forall_inv in Hlt. lia.
Qed.

(** C5 as the code has it: in a session that returns, the k-th trade emitted
    has the id "T" followed by the decimal form of the k-th number drawn from
    the distribution over 100000..999999; nothing relates successive ids. *)
Theorem trade_ids_are_the_draws dis rs s :
  (forall k, 100000 <= dis k <= 999999) ->
  session dis rs init = Returns s ->
  map tradeId (out s) = ids_of dis 0 (length (out s)) /\
  Forall (fun tr => exists n, 100000 <= n <= 999999 /\ tradeId tr = "T" +:+ pretty n)
         (out s).
Proof.
  intros Hrange (trades & Ho & _ & Hids)%session_emits. simpl in *. subst trades.
  split; [exact Hids|].
  apply Forall_forall. intros tr Htr.
  assert (tradeId tr ∈ map tradeId (out s)) as Hin by (by apply list_elem_of_fmap_2).
  rewrite Hids in Hin. unfold ids_of in Hin.
  apply list_elem_of_fmap in Hin as (k & -> & _). eauto.
Qed.

Lemma trade_ids_are_the_draws_witness :
  exists s,
    session example_draws
      [SUBMIT SELL 10000 100 "X" "c"; SUBMIT BUY 10000 10 "X" "c";
       SUBMIT BUY 10000 10 "X" "c"] init = Returns s /\
    map tradeId (out s) = ["T100000"; "T107919"] /\
    map tradeId (out s) = ids_of example_draws 0 (length (out s)) /\
    Forall (fun tr => exists n, 100000 <= n <= 999999 /\ tradeId tr = "T" +:+ pretty n)
           (out s).
Proof.
  eexists. split; [vm_compute; reflexivity|]. split; [by vm_compute|].
  apply (trade_ids_are_the_draws example_draws
           [SUBMIT SELL 10000 100 "X" "c"; SUBMIT BUY 10000 10 "X" "c";
            SUBMIT BUY 10000 10 "X" "c"]);
    [exact example_draws_range|vm_compute; reflexivity].
Defined.

(** ** Market-data projections *)

(** C6, at the input where the code departs from it: a SELL of 100 at
    100.00 rests and a BUY of 40 at 100.00 fills part of it.  No order is
    added or removed, [update_market_data] is not called, and [askSize]
    stays at 100 while the best ask level holds 60. *)
Theorem partial_fill_leaves_ask_size_stale dis sym client :
  exists s,
    session dis [SUBMIT SELL 10000 100 sym client; SUBMIT BUY 10000 40 sym client] init
      = Returns s /\
    sellOrders (book s) = [(10000, [0%nat])] /\
    getRemainingQuantity (deref (heap s) 0%nat) = 60 /\
    projections (book s) = (0, 10000, 0, 100) /\
    fresh_scan s = (0, 10000, 0, 60).
Proof. eexists. split; [vm_compute; reflexivity|]. by vm_compute. Qed.

(** ** Modify *)

(** C7 does not hold of the code, on two counts.  For the resting order "O1"
    (BUY 10 at 100.00), modify to 101.00 leaves an order that still has the
    id "O1" and an order counter of 1, where cancel followed by submit leaves
    an order "O2" and a counter of 2.  And for a resting order that a trade
    has filled in part, modify is refused and changes nothing, where cancel
    followed by submit goes through. *)
Lemma modify_differs_from_cancel_then_submit :
  (exists s s1 s2,
     session example_draws [SUBMIT BUY 10000 10 "X" "c"] init = Returns s /\
     modify_order example_draws "O1" 10100 10 s = Returns (true, s1) /\
     cancel_then_submit example_draws "O1" 10100 10 s = Returns (true, s2) /\
     (orderCounter s1, map orderId (heap s1)) = (1, ["O1"; "O1"]) /\
     (orderCounter s2, map orderId (heap s2)) = (2, ["O1"; "O2"]) /\
     s1 ≠ s2) /\
  (exists s s2,
     session example_draws
       [SUBMIT SELL 10000 100 "X" "c"; SUBMIT BUY 10000 40 "X" "c"] init = Returns s /\
     sellOrders (book s) = [(10000, [0%nat])] /\
     modify_order example_draws "O1" 10100 60 s = Returns (false, s) /\
     cancel_then_submit example_draws "O1" 10100 60 s = Returns (true, s2) /\
     sellOrders (book s2) = [(10100, [2%nat])]).
Proof.
  split.
  - eexists. eexists. eexists. split; [vm_compute; reflexivity|].
    split; [vm_compute; reflexivity|]. split; [vm_compute; reflexivity|].
    split; [by vm_compute|]. split; [by vm_compute|].
    intros H. apply (f_equal orderCounter) in H. by vm_compute in H.
  - eexists. eexists. split; [vm_compute; reflexivity|].
    split; [by vm_compute|]. split; [by vm_compute|].
    split; [vm_compute; reflexivity|]. by vm_compute.
Qed.

(** C7 as the code has it.  When the id is not in the index, cancel and
    modify both fail, with the same answer and no change of state.  For an
    order of the index with status PENDING, the cancel succeeds and modify
    is that cancel followed by the matching run of a new order object that
    keeps the id and takes the side, symbol and client of the old one, with
    the new price and quantity: no id is drawn and the new values are not
    validated.  When this order is in the book afterwards, it is the new
    object and it stands at the back of the queue of its price level, behind
    the orders that were at that price before. *)
Theorem modify_reissues_at_the_back dis id newPrice newQuantity s :
  match get_order id s with
  | None =>
      cancel_order id s = (false, s) /\
      modify_order dis id newPrice newQuantity s = Returns (false, s)
  | Some a =>
      status (deref (heap s) a) = PENDING ->
      let o := deref (heap s) a in
      let reissued := new_Order id (type o) newPrice newQuantity (symbol o) (clientId o) in
      (cancel_order id s).1 = true /\
      modify_order dis id newPrice newQuantity s
        = (s' ← match_order dis (length (heap s))
                   (set_heap (heap (cancel_order id s).2 ++ [reissued]) (cancel_order id s).2);
           Returns (true, s')) /\
      forall s' a',
        modify_order dis id newPrice newQuantity s = Returns (true, s') ->
        get_order id s' = Some a' ->
        a' = length (heap s) /\
        orderCounter s' = orderCounter s /\
        exists v, level_find newPrice (side (type o) (book s')) = Some (v ++ [a'])
  end.
Proof.
  destruct (get_order id s) as [a|] eqn:Hget.
  2: { unfold modify_order, cancel_order. unfold get_order in Hget. rewrite Hget.
       split; [done|]. unfold get_order. by rewrite Hget. }
  intros Hpending o reissued.
  destruct (cancel_order_frame id s) as (Hlen & _).
  pose proof (cancel_order_shrinks id s) as Hsh.
  destruct Hsh as [[_ Hst] _ _ Hctr]. destruct (Hst a) as (_ & Hty & _ & _ & Hsym & Hcl).
  assert (modify_order dis id newPrice newQuantity s
          = (s' ← match_order dis (length (heap s))
                     (set_heap (heap (cancel_order id s).2 ++ [reissued]) (cancel_order id s).2);
             Returns (true, s'))) as Hmod.
  { unfold modify_order. rewrite Hget. case_decide; [|done]. unfold alloc.
    rewrite Hlen, Hty, Hsym, Hcl. reflexivity. }
  split; [by eapply cancel_order_found|]. split; [exact Hmod|].
  intros s' a'. rewrite Hmod.
  set (s1 := set_heap _ _).
  destruct (match_order dis (length (heap s)) s1) as [s2| |] eqn:Hm; simpl; [|done..].
  intros [= <-] Hget'.
  assert (deref (heap s1) (length (heap s)) = reissued) as Hnew.
  { subst s1. simpl. rewrite <- Hlen. apply deref_alloc. }
  pose proof (match_order_rests dis (length (heap s)) s1 s2 a') as Hrest.
  rewrite Hnew in Hrest. simpl in Hrest.
  destruct Hrest as [-> Hv]; [apply cancel_order_gone|exact Hm|exact Hget'|].
  split; [done|]. split; [|exact Hv].
  rewrite (match_order_counter _ _ _ _ Hm). exact Hctr.
Qed.

Lemma modify_reissues_at_the_back_witness :
  exists s s',
    session example_draws
      [SUBMIT BUY 10000 10 "X" "c"; SUBMIT BUY 10000 20 "X" "c"] init = Returns s /\
    get_order "O1" s = Some 0%nat /\
    buyOrders (book s) = [(10000, [0%nat; 1%nat])] /\
    modify_order example_draws "O1" 10000 15 s = Returns (true, s') /\
    get_order "O1" s' = Some 2%nat /\
    buyOrders (book s') = [(10000, [1%nat; 2%nat])] /\
    orderCounter s' = orderCounter s /\
    exists v, level_find 10000 (side BUY (book s')) = Some (v ++ [2%nat]).
Proof.
  eexists. eexists. split; [vm_compute; reflexivity|].
  split; [by vm_compute|]. split; [by vm_compute|].
  split; [vm_compute; reflexivity|]. split; [by vm_compute|]. split; [by vm_compute|].
  match goal with
  | |- orderCounter ?s' = orderCounter ?s /\ _ =>
      pose proof (modify_reissues_at_the_back example_draws "O1" 10000 15 s) as H;
      change (get_order "O1" s) with (Some 0%nat) in H;
      destruct (H eq_refl) as (_ & _ & H');
      destruct (H' s' 2%nat) as (_ & Hc & Hv); [vm_compute; reflexivity..|]
  end.
  split; [exact Hc|exact Hv].
Defined.
(** ** Cancel *)




(** ** Validation of a submit *)

(** C9 does not hold of the code as it is worded: [submit_order] has no
    error codes.  A submit with a price that is not positive and a submit
    with a quantity that is not positive get the same answer, the empty
    order id, which is neither of the two codes; the two causes cannot be
    told apart. *)
Lemma invalid_submits_look_alike :
  submit_order example_draws BUY 0 10 "X" "c" init = Returns (EmptyString, init) /\
  submit_order example_draws BUY 10000 0 "X" "c" init = Returns (EmptyString, init) /\
  ~ (submit_order example_draws BUY 0 10 "X" "c" init
     ≠ submit_order example_draws BUY 10000 0 "X" "c" init) /\
  EmptyString ≠ "INVALID_PRICE" /\ EmptyString ≠ "INVALID_QUANTITY".
Proof.
  split; [by vm_compute|]. split; [by vm_compute|].
  split; [intros H; apply H; by vm_compute|]. done.
Qed.

(** C9 as the code has it: a submit with a price or a quantity that is not
    positive fails, the failure being, for either cause, the empty order id
    the source returns for an invalid order; the state, that is the book,
    the orders, the counters and the emitted trades, is the one before the
    call. *)
Theorem invalid_submit_is_atomic dis ty p qty sym client s :
  p <= 0 \/ qty <= 0 ->
  submit_order dis ty p qty sym client s = Returns (EmptyString, s).
Proof.
  intros H. unfold submit_order.
  destruct ((qty <=? 0) || (p <=? 0)) eqn:Hv; [done|].
  apply orb_false_iff in Hv. lia.
Qed.

Lemma invalid_submit_is_atomic_witness :
  (0 <= 0 \/ 10 <= 0) /\
  submit_order example_draws BUY 0 10 "X" "c" init = Returns (EmptyString, init).
Proof.
  split; [left; lia|]. apply (invalid_submit_is_atomic example_draws BUY 0 10). left. lia.
Defined.

(** ** Modify is for orders that have not traded *)

(** C10: when the id is not in the index, or the order it names has a
    status other than PENDING (a resting order that a trade has filled in
    part is one), [modify_order] returns false and the state is the one
    before the call; and a modify that is carried out was for an order of
    the index with status PENDING. *)
Theorem modify_requires_pending dis id newPrice newQuantity s :
  (not_pending id s ->
   modify_order dis id newPrice newQuantity s = Returns (false, s)) /\
  (forall s', modify_order dis id newPrice newQuantity s = Returns (true, s') ->
     exists a, get_order id s = Some a /\ status (deref (heap s) a) = PENDING).
Proof.
  unfold not_pending, modify_order. destruct (get_order id s) as [a|]; [|done].
  case_decide; [|done]. split; [done|]. eauto.
Qed.

(** An instance: a resting order that a trade has filled in part; "O1" is in
    the book with 60 remaining and status PARTIALLY_FILLED. *)
Lemma modify_requires_pending_witness :
  exists s,
    session example_draws
      [SUBMIT SELL 10000 100 "X" "c"; SUBMIT BUY 10000 40 "X" "c"] init = Returns s /\
    sellOrders (book s) = [(10000, [0%nat])] /\
    get_order "O1" s = Some 0%nat /\
    status (deref (heap s) 0%nat) = PARTIALLY_FILLED /\
    not_pending "O1" s /\
    modify_order example_draws "O1" 10100 60 s = Returns (false, s).
Proof.
  eexists. split; [vm_compute; reflexivity|].
  do 3 (split; [by vm_compute|]).
  match goal with
  | |- not_pending _ ?s /\ _ =>
      assert (not_pending "O1" s) as H by (vm_compute; discriminate)
  end.
  split; [exact H|].
  exact (proj1 (modify_requires_pending example_draws _ 10100 60 _) H).
Defined.

(** * The book of a session *)

(** ** Ladders in key order *)

Lemma level_find_elem p m v : level_find p m = Some v -> (p, v) ∈ m.
Proof.
  induction m as [|[k w] m IH]; simpl; [done|].
  destruct (Z.eqb_spec k p) as [->|Hne].
  - intros [= ->]. by left.
  - intros H. right. by apply IH.
Qed.

Lemma before_irrefl t a : before t a a = false.
Proof. destruct t; simpl; lia. Qed.

Lemma sorted_tail t l m : sorted t (l :: m) -> sorted t m.
Proof. destruct l. unfold sorted. rewrite keys_cons. by intros [_ ?]%StronglySorted_cons. Qed.

Lemma level_find_notin p m : p ∉ keys m -> level_find p m = None.
Proof.
  induction m as [|[k w] m IH]; simpl; [done|]. rewrite keys_cons, not_elem_of_cons.
  intros [Hne Hin]. destruct (Z.eqb_spec k p); [congruence|by apply IH].
Qed.

Lemma sorted_head_notin t k v m : sorted t ((k, v) :: m) -> k ∉ keys m.
Proof.
  unfold sorted. rewrite keys_cons. intros [H _]%StronglySorted_cons Hin.
  rewrite Forall_forall in H. specialize (H k Hin). by rewrite before_irrefl in H.
Qed.

Lemma elem_keys p v (m : ladder) : (p, v) ∈ m -> p ∈ keys m.
Proof. intros H. unfold keys. apply list_elem_of_fmap. by exists (p, v). Qed.

Lemma sorted_level_find t p v m : sorted t m -> (p, v) ∈ m -> level_find p m = Some v.
Proof.
  induction m as [|[k w] m IH]; intros Hs Hin; [by apply elem_of_nil in Hin|].
  simpl. apply elem_of_cons in Hin as [[= -> ->]|Hin].
  - by rewrite Z.eqb_refl.
  - destruct (Z.eqb_spec k p) as [->|Hne].
    + exfalso. eapply sorted_head_notin; [exact Hs|]. by eapply elem_keys.
    + apply IH; [by eapply sorted_tail|done].
Qed.

Lemma elem_level_erase t p m l :
  sorted t m -> l ∈ level_erase p m -> l ∈ m /\ l.1 ≠ p.
Proof.
  induction m as [|[k w] m IH]; simpl; intros Hs Hin; [by apply elem_of_nil in Hin|].
  destruct (Z.eqb_spec k p) as [->|Hne].
  - split; [by right|]. intros <-. destruct l as [p w'].
    eapply sorted_head_notin; [exact Hs|]. by eapply elem_keys.
  - apply elem_of_cons in Hin as [->|Hin]; [split; [by left|done]|].
    destruct (IH (sorted_tail _ _ _ Hs) Hin). split; [by right|done].
Qed.

Lemma elem_level_set t p v' m l :
  sorted t m -> l ∈ level_set p v' m -> (l ∈ m /\ l.1 ≠ p) \/ l = (p, v').
Proof.
  induction m as [|[k w] m IH]; simpl; intros Hs Hin; [by apply elem_of_nil in Hin|].
  destruct (Z.eqb_spec k p) as [->|Hne].
  - apply elem_of_cons in Hin as [->|Hin]; [by right|]. left.
    split; [by right|]. intros <-. destruct l as [p w'].
    eapply sorted_head_notin; [exact Hs|]. by eapply elem_keys.
  - apply elem_of_cons in Hin as [->|Hin]; [left; split; [by left|done]|].
    destruct (IH (sorted_tail _ _ _ Hs) Hin) as [[? ?]|?]; [left|by right].
    split; [by right|done].
Qed.

Lemma level_find_erase_ne p p' m : p' ≠ p -> level_find p' (level_erase p m) = level_find p' m.
Proof.
  intros Hne. induction m as [|[k w] m IH]; simpl; [done|].
  destruct (Z.eqb_spec k p) as [->|Hk]; simpl.
  - destruct (Z.eqb_spec p p'); [congruence|done].
  - by rewrite IH.
Qed.

Lemma level_find_set_ne p p' v' m : p' ≠ p -> level_find p' (level_set p v' m) = level_find p' m.
Proof.
  intros Hne. induction m as [|[k w] m IH]; simpl; [done|].
  destruct (Z.eqb_spec k p) as [->|Hk]; simpl.
  - destruct (Z.eqb_spec p p'); [congruence|done].
  - by rewrite IH.
Qed.

Lemma level_find_set_eq p v v' m :
  level_find p m = Some v -> level_find p (level_set p v' m) = Some v'.
Proof.
  induction m as [|[k w] m IH]; simpl; [done|].
  destruct (Z.eqb_spec k p) as [->|Hk]; simpl.
  - by rewrite Z.eqb_refl.
  - destruct (Z.eqb_spec k p); [done|]. exact IH.
Qed.

Lemma elem_addrs a (m : ladder) : a ∈ addrs m <-> exists l, l ∈ m /\ a ∈ l.2.
Proof.
  induction m as [|[k w] m IH].
  - change (addrs []) with (@nil addr). split; [by intros ?%elem_of_nil|].
    intros (l & Hl & _). by apply elem_of_nil in Hl.
  - rewrite addrs_cons, elem_of_app, IH. split.
    + intros [H|(l & Hl & Ha)]; [exists (k, w); split; [by left|done]|].
      exists l. split; [by right|done].
    + intros (l & [->|Hl]%elem_of_cons & Ha); [by left|right; eauto].
Qed.

(** ** Well-formed books *)

Lemma wf_but_heap_change E E' s s' :
  wf_but E s ->
  book s' = book s -> orderCounter s' = orderCounter s ->
  same_static (heap s) (heap s') ->
  Forall sound_order (heap s') ->
  (forall ty a, a ∈ addrs (side ty (book s)) -> ~ E' a -> open_order (deref (heap s') a)) ->
  wf_but E' s'.
Proof.
  intros [Hsorted Hlevels Hindex Hids Hheap Hc0] Hbook Hctr [Hlen Hst] Hsound Hopen.
  constructor; rewrite ?Hbook, ?Hctr; try done.
  - intros ty. specialize (Hlevels ty). rewrite Forall_forall in Hlevels |- *.
    intros l Hl. destruct (Hlevels l Hl) as (Hne & Hinc & Hlive).
    split; [done|]. split; [done|]. rewrite Forall_forall in Hlive |- *.
    intros a Ha. destruct (Hlive a Ha) as (Hlt & Hty & Hpr & _ & Hmap).
    destruct (Hst a) as (Hid' & Hty' & Hpr' & _).
    unfold live. rewrite Hbook, Hid', Hty', Hpr', <- Hlen.
    do 3 (split; [done|]). split; [|done].
    intros HE. apply (Hopen ty); [|done]. apply elem_addrs. eauto.
  - intros id a Hmap. destruct (Hindex id a Hmap) as [Hid Hv].
    destruct (Hst a) as (Hid' & Hty' & Hpr' & _). by rewrite Hid', Hty', Hpr'.
Qed.

(** In a well-formed book the index is one-to-one with the ladders. *)
Lemma wf_but_index_of E s ty a :
  wf_but E s -> a ∈ addrs (side ty (book s)) ->
  live E s ty (price (deref (heap s) a)) a /\
  exists v, level_find (price (deref (heap s) a)) (side ty (book s)) = Some v /\ a ∈ v.
Proof.
  intros Hwf (l & Hl & Ha)%elem_addrs.
  pose proof (wf_levels _ _ Hwf ty) as Hlevels. rewrite Forall_forall in Hlevels.
  destruct (Hlevels l Hl) as (_ & _ & Hlive). rewrite Forall_forall in Hlive.
  pose proof (Hlive a Ha) as Hla. destruct Hla as (Hlt & Hty & Hpr & Ho & Hmap).
  split; [by rewrite Hpr|]. exists l.2. split; [|done]. rewrite Hpr.
  eapply sorted_level_find; [apply (wf_sorted _ _ Hwf)|]. by destruct l.
Qed.

Lemma remove_order_found id s x v :
  orderMap (book s) !! id = Some x ->
  let o := deref (heap s) x in
  level_find (price o) (side (type o) (book s)) = Some v ->
  let s' := (remove_order id s).2 in
  heap s' = heap s /\ orderCounter s' = orderCounter s /\
  orderMap (book s') = delete id (orderMap (book s)) /\
  forall ty, side ty (book s') =
    if decide (ty = type o) then
      match strip (heap s) id v with
      | [] => level_erase (price o) (side ty (book s))
      | v' => level_set (price o) v' (side ty (book s))
      end
    else side ty (book s).
Proof.
  intros Hmap o Hfind. unfold remove_order. rewrite Hmap. fold o. simpl.
  assert (level_find (price o)
            (side (type o) (set_orderMap (delete id (orderMap (book s))) (book s)))
          = Some v) as -> by (by destruct (type o)).
  destruct (strip (heap s) id v); (split; [done|]; split; [done|]; split;
    [by destruct (type o)|]); intros ty; case_decide as Hty; subst;
    destruct (type o); try done; by destruct ty.
Qed.

Lemma strip_elem h id v a : a ∈ strip h id v <-> a ∈ v /\ orderId (deref h a) ≠ id.
Proof. unfold strip. rewrite list_elem_of_filter. tauto. Qed.

Lemma StronglySorted_strip h id v : StronglySorted lt v -> StronglySorted lt (strip h id v).
Proof.
  unfold strip. induction v as [|a v IH]; [done|].
  intros [Ha Hv]%StronglySorted_cons. rewrite filter_cons. case_decide; [|by apply IH].
  apply StronglySorted_cons. split; [|by apply IH].
  rewrite Forall_forall in Ha |- *. intros y [_ Hy]%list_elem_of_filter. by apply Ha.
Qed.

Lemma wf_remove_order E s id x :
  wf_but E s -> (forall a, E a -> a = x) ->
  orderMap (book s) !! id = Some x ->
  wf (remove_order id s).2.
Proof.
  intros Hwf HE Hmap.
  destruct (wf_index _ _ Hwf id x Hmap) as (Hid & v & Hfind & Hx).
  destruct (remove_order_found id s x v Hmap Hfind) as (Hheap & Hctr & Hom & Hside).
  set (o := deref (heap s) x) in *. set (s' := (remove_order id s).2) in *.
  assert (forall ty a, a ∈ addrs (side ty (book s)) ->
            orderId (deref (heap s) a) = id -> a = x) as Huniq.
  { intros ty a Ha Hida. destruct (wf_but_index_of _ _ _ _ Hwf Ha) as [(_ & _ & _ & _ & Hm) _].
    rewrite Hida, Hmap in Hm. by injection Hm. }
  assert (forall ty l, l ∈ side ty (book s') ->
            exists l0, l0 ∈ side ty (book s) /\ l.1 = l0.1 /\ l.2 ≠ [] /\
                       l.2 = strip (heap s) id l0.2) as Hold.
  { intros ty l. rewrite Hside. pose proof (wf_levels _ _ Hwf ty) as Hlv.
    rewrite Forall_forall in Hlv.
    assert (forall l0, l0 ∈ side ty (book s) -> l0.1 ≠ price o \/ ty ≠ type o ->
              l0.2 ≠ [] /\ l0.2 = strip (heap s) id l0.2) as Hsame.
    { intros l0 Hl0 Hne. destruct (Hlv l0 Hl0) as (Hne0 & _ & Hlive). split; [done|].
      symmetry. unfold strip. apply filter_all. f_equal.
      rewrite Forall_forall in Hlive.
      assert (Forall (fun a => orderId (deref (heap s) a) ≠ id) l0.2) as Hall.
      { apply Forall_forall. intros a Ha Hida.
        assert (a = x) as ->.
        { apply (Huniq ty); [|done]. apply elem_addrs. eauto. }
        destruct (Hlive x Ha) as (_ & Hty & Hpr & _). fold o in Hty, Hpr.
        destruct Hne; congruence. }
      clear -Hall. induction Hall as [|a w Ha Hw IH]; [done|].
      rewrite filter_cons. case_decide; [|done]. simpl. by rewrite IH. }
    case_decide as Hty.
    - subst ty. destruct (strip (heap s) id v) as [|a0 v0] eqn:Hstrip.
      + intros [Hl Hne]%(elem_level_erase (type o)); [|apply (wf_sorted _ _ Hwf)].
        exists l. destruct (Hsame l Hl) as [? ?]; [by left|]. eauto.
      + intros [[Hl Hne]| ->]%(elem_level_set (type o)); [| |apply (wf_sorted _ _ Hwf)].
        * exists l. destruct (Hsame l Hl) as [? ?]; [by left|]. eauto.
        * exists (price o, v). split; [by apply level_find_elem|]. simpl.
          by rewrite Hstrip.
    - intros Hl. exists l. destruct (Hsame l Hl) as [? ?]; [by right|]. eauto. }
  constructor.
  - intros ty. rewrite Hside. pose proof (wf_sorted _ _ Hwf ty) as Hs.
    case_decide; [|done]. destruct (strip _ _ _);
      [by apply sorted_level_erase|by apply sorted_level_set].
  - intros ty. apply Forall_forall. intros l Hl.
    destruct (Hold ty l Hl) as (l0 & Hl0 & Hk & Hne & Hv).
    pose proof (wf_levels _ _ Hwf ty) as Hlv. rewrite Forall_forall in Hlv.
    destruct (Hlv l0 Hl0) as (_ & Hinc & Hlive).
    split; [done|]. rewrite Hv. split; [by apply StronglySorted_strip|].
    rewrite Forall_forall in Hlive |- *. intros a [Ha Hida]%strip_elem.
    destruct (Hlive a Ha) as (Hlt & Hty & Hpr & Hopen & Hm).
    unfold live. rewrite Hheap, Hom, Hk. do 3 (split; [done|]). split.
    + intros _. apply Hopen. intros HEa. apply HE in HEa. subst a.
      apply Hida. exact Hid.
    + by rewrite lookup_delete_ne.
  - intros id' a. rewrite Hom, Hheap. intros Hm.
    destruct (decide (id' = id)) as [->|Hne]; [by rewrite lookup_delete_eq in Hm|].
    rewrite lookup_delete_ne in Hm by done.
    destruct (wf_index _ _ Hwf id' a Hm) as (Hida & w & Hw & Ha).
    split; [done|]. rewrite Hside. case_decide as Hty.
    + destruct (decide (price (deref (heap s) a) = price o)) as [Hp|Hp].
      * rewrite Hty, Hp in Hw. rewrite Hfind in Hw. injection Hw as <-.
        assert (a ∈ strip (heap s) id v) as Hin by (apply strip_elem; split; congruence).
        rewrite Hp. destruct (strip (heap s) id v) as [|a0 v0] eqn:Hstrip;
          [by apply elem_of_nil in Hin|].
        exists (a0 :: v0). split; [|done]. rewrite Hty.
        by eapply level_find_set_eq.
      * exists w. split; [|done]. destruct (strip _ _ _);
          [by rewrite level_find_erase_ne|by rewrite level_find_set_ne].
    + eauto.
  - intros id' a. rewrite Hom, Hctr. intros Hm.
    apply lookup_delete_Some in Hm as [_ Hm]. by apply (wf_ids _ _ Hwf id' a).
  - rewrite Hheap. apply (wf_heap _ _ Hwf).
  - rewrite Hctr. apply (wf_counter _ _ Hwf).
Qed.

Lemma wf_but_ext E s s' :
  heap s' = heap s -> book s' = book s -> orderCounter s' = orderCounter s ->
  wf_but E s -> wf_but E s'.
Proof.
  destruct s, s'. simpl. intros -> -> -> [H1 H2 H3 H4 H5 H6]. by constructor.
Qed.

Lemma wf_but_mono (E E' : addr -> Prop) s :
  (forall a, E a -> E' a) -> wf_but E s -> wf_but E' s.
Proof.
  intros HE [H1 H2 H3 H4 H5 H6]. constructor; try done.
  intros ty. eapply Forall_impl; [apply H2|]. intros l (Hne & Hs & Hl).
  split; [done|]. split; [done|]. eapply Forall_impl; [exact Hl|].
  intros a (? & ? & ? & Ho & ?). do 3 (split; [done|]). split; [|done].
  intros HE'. apply Ho. intros Ha. by apply HE', HE.
Qed.

(** ** Fills keep the status in step *)

Lemma open_order_sound o : open_order o -> sound_order o.
Proof.
  intros [Hb Hst]. unfold sound_order. rewrite Hst.
  destruct (Z.eqb_spec (filledQuantity o) 0); lia.
Qed.

Lemma fill_open qty o :
  open_order o -> 0 < qty -> qty < getRemainingQuantity o -> open_order (fill qty o).
Proof.
  unfold open_order, getRemainingQuantity, fill, isFullyFilled. simpl.
  intros [Hb Hst] Hq Hr.
  destruct (Z.leb_spec (quantity o) (filledQuantity o + qty)); [lia|].
  destruct (Z.ltb_spec 0 (filledQuantity o + qty)); [|lia]. simpl.
  split; [lia|]. destruct (Z.eqb_spec (filledQuantity o + qty) 0); [lia|done].
Qed.

Lemma fill_exactly o :
  open_order o -> 0 < getRemainingQuantity o ->
  let o' := fill (getRemainingQuantity o) o in
  status o' = FILLED /\ filledQuantity o' = quantity o' /\ isFullyFilled o' = true.
Proof.
  unfold open_order, getRemainingQuantity, fill, isFullyFilled. simpl.
  intros [Hb Hst] Hr.
  destruct (Z.leb_spec (quantity o) (filledQuantity o + (quantity o - filledQuantity o)));
    [|lia]. simpl. repeat split; lia.
Qed.

Lemma fill_sound qty o :
  open_order o -> 0 < qty <= getRemainingQuantity o -> sound_order (fill qty o).
Proof.
  intros Ho [Hq Hr]. destruct (decide (qty = getRemainingQuantity o)) as [->|Hne].
  - destruct (fill_exactly o Ho) as (Hst & Hf & _); [lia|].
    unfold sound_order. rewrite Hst. split; [|done].
    rewrite fill_filled. destruct Ho as [? _]. lia.
  - apply open_order_sound, fill_open; [done|lia|lia].
Qed.

Lemma fill_status qty o :
  open_order o -> 0 < qty -> status (fill qty o) ≠ CANCELLED.
Proof.
  unfold open_order, fill, isFullyFilled. simpl. intros [Hb Hst] Hq.
  destruct (quantity o <=? filledQuantity o + qty); [done|].
  destruct (Z.ltb_spec 0 (filledQuantity o + qty)); [done|lia].
Qed.

Lemma deref_traded b a qty h z :
  b ≠ a -> (b < length h)%nat -> (a < length h)%nat ->
  deref (traded b a qty h) z =
  if decide (z = b) then fill qty (deref h b)
  else if decide (z = a) then fill qty (deref h a) else deref h z.
Proof.
  intros Hne Hb Ha. unfold traded. rewrite !deref_insert, length_insert.
  repeat case_decide; destruct_and?; simplify_eq; try done; try lia.
  all: rewrite ?deref_insert; repeat case_decide; destruct_and?; simplify_eq; try done; lia.
Qed.

Lemma deref_lookup h a o : h !! a = Some o -> deref h a = o.
Proof. unfold deref. by intros ->. Qed.

Lemma Forall_deref (P : Order -> Prop) h a :
  Forall P h -> (a < length h)%nat -> P (deref h a).
Proof.
  intros Hall Ha. destruct (lookup_lt_is_Some_2 h a Ha) as [o Ho].
  rewrite (deref_lookup _ _ _ Ho). by eapply Forall_lookup_1.
Qed.

Lemma Forall_traded (P : Order -> Prop) b a qty h :
  b ≠ a -> (b < length h)%nat -> (a < length h)%nat ->
  Forall P h -> P (fill qty (deref h b)) -> P (fill qty (deref h a)) ->
  Forall P (traded b a qty h).
Proof.
  intros Hne Hb Ha Hall Pb Pa. unfold traded.
  apply Forall_insert; [by apply Forall_insert|].
  rewrite deref_insert. case_decide; [by destruct_and?|done].
Qed.

(** ** Trade records *)

Lemma trade_ok_static h h' tr : same_static h h' -> trade_ok h tr -> trade_ok h' tr.
Proof.
  intros [Hlen Hst] (Hq & b & a & Hb & Ha & Hne & H). split; [done|]. exists b, a.
  destruct (Hst b) as (-> & -> & -> & -> & -> & _).
  destruct (Hst a) as (-> & -> & -> & -> & _). by rewrite <- Hlen.
Qed.

Lemma trade_ok_alloc h o tr : trade_ok h tr -> trade_ok (h ++ [o]) tr.
Proof.
  intros (Hq & b & a & Hb & Ha & Hne & H). split; [done|]. exists b, a.
  rewrite !deref_app_l, length_app by done. simpl.
  split; [lia|]. split; [lia|]. done.
Qed.

(** ** The matching loop keeps the book well formed *)

Lemma settle_absent x s :
  get_order (orderId (deref (heap s) x)) s = None -> settle x s = s.
Proof.
  unfold settle, remove_order, get_order. intros ->. by destruct (isFullyFilled _).
Qed.

Lemma run_inv_open t s :
  run_inv t s -> 0 < getRemainingQuantity (deref (heap s) t) ->
  open_order (deref (heap s) t).
Proof.
  intros (Hwf & Ht & _ & _ & _ & Hst) Hrem.
  pose proof (Forall_deref _ _ _ (wf_heap _ _ Hwf) Ht) as Hsound.
  unfold sound_order, open_order, getRemainingQuantity in *.
  destruct (status (deref (heap s) t)); try done.
  - rewrite Hsound in *. simpl. split; [lia|done].
  - destruct (Z.eqb_spec (filledQuantity (deref (heap s) t)) 0); [lia|].
    split; [lia|done].
  - lia.
Qed.

Lemma filter_Forall_id {A} (P : A -> Prop) `{!forall x, Decision (P x)} (l : list A) :
  Forall P l -> filter P l = l.
Proof.
  induction 1 as [|x l Hx _ IH]; [done|]. rewrite filter_cons, decide_True by done.
  by rewrite IH.
Qed.

Lemma strip_front E s ty best maker v0 m :
  wf_but E s -> side ty (book s) = (best, maker :: v0) :: m ->
  strip (heap s) (orderId (deref (heap s) maker)) (maker :: v0) = v0.
Proof.
  intros Hwf Hside. pose proof (wf_levels _ _ Hwf ty) as Hlv. rewrite Hside in Hlv.
  apply Forall_cons in Hlv as [(_ & Hs & Hlive) _]. simpl in Hs, Hlive.
  apply StronglySorted_cons in Hs as [Hlt _].
  apply Forall_cons in Hlive as [(_ & _ & _ & _ & Hm) Hrest].
  unfold strip. rewrite filter_cons, decide_False by (by intros H; apply H).
  apply filter_Forall_id. rewrite Forall_forall in Hlt, Hrest |- *.
  intros x Hx Heq. destruct (Hrest x Hx) as (_ & _ & _ & _ & Hxm).
  rewrite Heq, Hm in Hxm. injection Hxm as <-. specialize (Hlt _ Hx). lia.
Qed.

Lemma wf_front_live s ty best maker v0 m :
  wf s -> side ty (book s) = (best, maker :: v0) :: m ->
  live nobody s ty best maker /\ open_order (deref (heap s) maker).
Proof.
  intros Hwf Hside. pose proof (wf_levels _ _ Hwf ty) as Hlv. rewrite Hside in Hlv.
  apply Forall_cons in Hlv as [(_ & _ & Hlive) _]. simpl in Hlive.
  apply Forall_cons in Hlive as [Hl _]. split; [done|].
  destruct Hl as (_ & _ & _ & Ho & _). apply Ho. by intros [].
Qed.

Section Steps.

Variable dis : nat -> Z.

Lemma execute_trade_wf b a t maker qty s ty best v0 m :
  ((b = t /\ a = maker) \/ (b = maker /\ a = t)) ->
  run_inv t s ->
  side ty (book s) = (best, maker :: v0) :: m ->
  open_order (deref (heap s) t) ->
  0 < qty -> qty <= getRemainingQuantity (deref (heap s) t) ->
  qty <= getRemainingQuantity (deref (heap s) maker) ->
  let s1 := execute_trade dis b a qty s in
  wf s1 /\ heap s1 = traded b a qty (heap s) /\
  deref (heap s1) t = fill qty (deref (heap s) t) /\
  deref (heap s1) maker = fill qty (deref (heap s) maker) /\
  side ty (book s1) =
    (if decide (qty = getRemainingQuantity (deref (heap s) maker)) then
       match v0 with [] => m | _ => (best, v0) :: m end
     else (best, maker :: v0) :: m) /\
  side (opposite ty) (book s1) = side (opposite ty) (book s) /\
  (qty < getRemainingQuantity (deref (heap s) maker) -> book s1 = book s).
Proof.
  intros Hba (Hwf & Ht & Hbelow & Hnone & Hid & Hst) Hside Hot Hq Hqt Hqm.
  destruct (wf_front_live _ _ _ _ _ _ Hwf Hside) as [Hlive Hom].
  assert (maker < t)%nat as Hmt.
  { apply (Hbelow ty). rewrite Hside, addrs_cons. apply elem_of_app. left. by left. }
  assert (b ≠ a /\ (b < length (heap s))%nat /\ (a < length (heap s))%nat) as (Hne & Hb & Ha).
  { destruct Hba as [[-> ->]|[-> ->]]; lia. }
  intros s1. subst s1. rewrite execute_trade_steps.
  set (s2 := fill_at a qty (fill_at b qty (generate_trade_id dis s).2)).
  assert (heap s2 = traded b a qty (heap s)) as Hheap2 by done.
  assert (book s2 = book s) as Hbook2 by done.
  assert (deref (heap s2) t = fill qty (deref (heap s) t)) as Hdt.
  { rewrite Hheap2, deref_traded by done. destruct Hba as [[-> ->]|[-> ->]];
      repeat case_decide; try done; lia. }
  assert (deref (heap s2) maker = fill qty (deref (heap s) maker)) as Hdm.
  { rewrite Hheap2, deref_traded by done. destruct Hba as [[-> ->]|[-> ->]];
      repeat case_decide; try done; lia. }
  assert (forall z, z ≠ t -> z ≠ maker -> deref (heap s2) z = deref (heap s) z) as Hdz.
  { intros z Hzt Hzm. rewrite Hheap2, deref_traded by done.
    destruct Hba as [[-> ->]|[-> ->]]; repeat case_decide; try done. }
  set (E := fun z : addr => z = maker /\ isFullyFilled (fill qty (deref (heap s) maker)) = true).
  assert (wf_but E s2) as HwfE.
  { apply (wf_but_heap_change nobody E s); try done.
    - rewrite Hheap2. apply same_static_traded.
    - rewrite Hheap2. apply Forall_traded; try done; [apply (wf_heap _ _ Hwf)| |].
      + destruct Hba as [[-> ->]|[-> ->]]; by apply fill_sound.
      + destruct Hba as [[-> ->]|[-> ->]]; by apply fill_sound.
    - intros ty' z Hz HE.
      assert (z < t)%nat by (by apply (Hbelow ty')).
      destruct (decide (z = maker)) as [->|Hzm].
      + rewrite Hdm. apply fill_open; [done..|].
        destruct (decide (qty = getRemainingQuantity (deref (heap s) maker))) as [->|]; [|lia].
        exfalso. apply HE. split; [done|].
        by apply (fill_exactly _ Hom); lia.
      + rewrite Hdz by lia. destruct (wf_but_index_of _ _ _ _ Hwf Hz) as [(_&_&_&Ho&_) _].
        apply Ho. by intros []. }
  assert (orderId (deref (heap s2) t) = orderId (deref (heap s) t)) as Hidt.
  { rewrite Hdt. apply fill_static. }
  assert (get_order (orderId (deref (heap s2) t)) s2 = None) as Hnone2.
  { rewrite Hidt. exact Hnone. }
  assert (wf (settle maker s2)) as Hwf3.
  { unfold settle. rewrite Hdm.
    destruct (isFullyFilled (fill qty (deref (heap s) maker))) eqn:Hfull.
    - apply (wf_remove_order E _ _ maker); [done|by intros z [-> _]|].
      rewrite Hbook2. destruct (fill_static qty (deref (heap s) maker)) as (-> & _).
      by destruct Hlive as (_ & _ & _ & _ & ?).
    - eapply wf_but_mono; [|exact HwfE]. intros z [_ ?]. done. }
  assert (heap (settle maker s2) = heap s2) as Hheap3 by apply settle_frame.
  assert (settle a (settle b s2) = settle maker s2) as Hsettle.
  { destruct Hba as [[-> ->]|[-> ->]].
    - by rewrite (settle_absent t s2).
    - apply settle_absent. rewrite Hheap3, Hidt.
      eapply shrinks_gone; [apply settle_shrinks|done]. }
  assert (side ty (book (settle maker s2)) =
    (if decide (qty = getRemainingQuantity (deref (heap s) maker)) then
       match v0 with [] => m | _ => (best, v0) :: m end
     else (best, maker :: v0) :: m) /\
    side (opposite ty) (book (settle maker s2)) = side (opposite ty) (book s) /\
    (qty < getRemainingQuantity (deref (heap s) maker) ->
     book (settle maker s2) = book s)) as Hsides.
  { unfold settle. rewrite Hdm.
    destruct Hlive as (_ & Hty & Hpr & _ & Hidx).
    destruct (decide (qty = getRemainingQuantity (deref (heap s) maker))) as [->|Hne'].
    - destruct (fill_exactly _ Hom ltac:(lia)) as (_ & _ & ->).
      destruct (fill_static (getRemainingQuantity (deref (heap s) maker))
                  (deref (heap s) maker)) as (Hfid & Hfty & Hfpr & _).
      rewrite Hfid.
      destruct (remove_order_found (orderId (deref (heap s) maker)) s2 maker (maker :: v0))
        as (_ & _ & _ & Hsd).
      + by rewrite Hbook2.
      + rewrite Hdm, Hfty, Hfpr, Hty, Hpr, Hbook2, Hside. simpl. by rewrite Z.eqb_refl.
      + rewrite !Hsd, Hdm, Hfty, Hty.
        rewrite decide_True by done. rewrite decide_False by (by destruct ty).
        rewrite Hbook2. split; [|split; [done|lia]].
        replace (orderId (deref (heap s) maker)) with (orderId (deref (heap s2) maker))
          by (by rewrite Hdm).
        rewrite (strip_front E s2 ty best maker v0 m HwfE) by (by rewrite Hbook2).
        rewrite Hfpr, Hpr, Hside. simpl. rewrite Z.eqb_refl. by destruct v0.
    - assert (isFullyFilled (fill qty (deref (heap s) maker)) = false) as ->.
      { destruct Hom as [Hom _]. clear -Hom Hqm Hne' Hq.
        unfold isFullyFilled. rewrite fill_filled.
        destruct (fill_static qty (deref (heap s) maker)) as (_ & _ & _ & -> & _).
        unfold getRemainingQuantity in *. lia. }
      by rewrite Hbook2, Hside. }
  rewrite Hsettle.
  split; [by eapply wf_but_ext; [..|exact Hwf3]|].
  change (heap (emit ?x ?y)) with (heap y). change (book (emit ?x ?y)) with (book y).
  rewrite Hheap3. done.
Qed.

Lemma sweep_wf opp best s s' : wf s -> sweep opp best s = Some s' -> s' = s.
Proof.
  intros Hwf. unfold sweep.
  destruct (level_find best (side opp (book s))) as [[|front rest]|] eqn:Hf; [done| |done].
  apply level_find_elem in Hf.
  pose proof (wf_levels _ _ Hwf opp) as Hlv. rewrite Forall_forall in Hlv.
  destruct (Hlv _ Hf) as (_ & _ & Hlive). simpl in Hlive.
  apply Forall_cons in Hlive as [(_ & _ & _ & Ho & _) _].
  destruct Ho as [Hb _]; [by intros []|].
  unfold isFullyFilled. destruct (Z.leb_spec (quantity (deref (heap s) front))
    (filledQuantity (deref (heap s) front))); [lia|]. by intros [= <-].
Qed.

Lemma type_opposite ty : opposite (opposite ty) = ty.
Proof. by destruct ty. Qed.

Lemma match_step_inv t s s' :
  run_inv t s -> match_step dis t s = Continue s' ->
  run_inv t s' /\ (exists tr, out s' = out s ++ [tr] /\ trade_ok (heap s') tr) /\
  exists best maker v m,
    side (opposite (type (deref (heap s) t))) (book s) = (best, maker :: v) :: m /\
    s' = taker_trade dis t maker s.
Proof.
  intros Hinv Hstep. pose proof Hinv as (Hwf & Ht & Hbelow & Hnone & Hid & Hst).
  pose proof (match_step_shrinks _ _ _ _ Hstep) as Hsh.
  apply match_step_Continue in Hstep as (Hrem & best & v & m & Hside & Hreach & Hv).
  set (o := deref (heap s) t) in *. set (opp := opposite (type o)) in *.
  destruct v as [|maker v0].
  { pose proof (wf_levels _ _ Hwf opp) as Hlv. rewrite Hside in Hlv.
    apply Forall_cons in Hlv as [(Hne & _) _]. done. }
  pose proof (run_inv_open _ _ Hinv Hrem) as Hot. fold o in Hot.
  destruct (wf_front_live _ _ _ _ _ _ Hwf Hside) as [Hlive Hom].
  pose proof Hlive as (Hml & Hmty & Hmpr & _ & Hmmap).
  set (q := Z.min (getRemainingQuantity o) (getRemainingQuantity (deref (heap s) maker))).
  assert (0 < q /\ q <= getRemainingQuantity o /\
          q <= getRemainingQuantity (deref (heap s) maker)) as (Hq & Hqt & Hqm).
  { destruct Hom as [? _]. unfold getRemainingQuantity in *. lia. }
  assert (maker < t)%nat as Hmt.
  { apply (Hbelow opp). rewrite Hside, addrs_cons. apply elem_of_app. left. by left. }
  assert (exists b a, ((b = t /\ a = maker) \/ (b = maker /\ a = t)) /\
            taker_trade dis t maker s = execute_trade dis b a q s /\
            type (deref (heap s) b) = BUY /\ type (deref (heap s) a) = SELL /\
            price (deref (heap s) a) <= price (deref (heap s) b))
    as (b & a & Hba & Htt & Hbty & Haty & Hprice).
  { unfold taker_trade. fold o q. subst opp. destruct (type o) eqn:Hty; simpl in *.
    - exists t, maker. fold o. rewrite Hty. repeat split; auto. lia.
    - exists maker, t. fold o. rewrite Hty. repeat split; auto. lia. }
  rewrite Htt in Hv.
  destruct (execute_trade_wf b a t maker q s opp best v0 m Hba Hinv Hside Hot Hq Hqt Hqm)
    as (Hwf1 & Hheap1 & Hdt & Hdm).
  apply (sweep_wf _ _ _ _ Hwf1) in Hv. subst s'.
  set (s1 := execute_trade dis b a q s) in *.
  destruct Hsh as [[Hlen Hstat] Hsides Hmap Hctr].
  destruct (Hstat t) as (Hidt & _).
  assert (shrinks s s1) as Hsh1 by (by constructor).
  split; [|split; [|by exists best, maker, v0, m]].
  - split; [done|]. split; [by rewrite <- Hlen|]. split; [by eapply shrinks_below|].
    split; [rewrite Hidt; by eapply shrinks_gone|].
    split; [by rewrite Hidt, Hctr|]. rewrite Hdt. by apply fill_status.
  - exists (trade_of dis b a q s). split; [apply execute_trade_frame|].
    split; [done|]. exists b, a.
    destruct (Hstat b) as (Hidb & Htyb & Hprb & Hqb & Hsyb & _).
    destruct (Hstat a) as (Hida & Htya & Hpra & Hqa & _).
    rewrite <- Hlen, Htyb, Htya, Hidb, Hida, Hsyb, Hpra, Hprb, Hqb, Hqa.
    assert (b ≠ a /\ (b < length (heap s))%nat /\ (a < length (heap s))%nat) as (? & ? & ?).
    { destruct Hba as [[-> ->]|[-> ->]]; lia. }
    do 10 (split; [done|]). simpl.
    destruct Hom as [Hmb _], Hot as [Htb _].
    unfold getRemainingQuantity in *. fold o in Htb.
    destruct Hba as [[-> ->]|[-> ->]]; fold o; lia.
Qed.

Lemma match_step_lone t s best maker m :
  run_inv t s ->
  side (opposite (type (deref (heap s) t))) (book s) = (best, [maker]) :: m ->
  out_of_reach (type (deref (heap s) t)) best (price (deref (heap s) t)) = false ->
  0 < getRemainingQuantity (deref (heap s) t) ->
  getRemainingQuantity (deref (heap s) maker) <= getRemainingQuantity (deref (heap s) t) ->
  match_step dis t s = Dangling.
Proof.
  intros Hinv Hside Hreach Hrem Hle.
  pose proof Hinv as (Hwf & Ht & Hbelow & Hnone & Hid & Hst).
  destruct (match_step dis t s) as [s'|s'|] eqn:Hstep; [| |done].
  { apply match_step_Break in Hstep as [_ [?|[Hs|(best' & v' & m' & Hs & Hr)]]];
      [lia|by rewrite Hside in Hs|].
    rewrite Hside in Hs. injection Hs as <- <- <-. congruence. }
  exfalso.
  apply match_step_Continue in Hstep as (_ & best' & v' & m' & Hs & _ & Hv).
  rewrite Hside in Hs. injection Hs as <- <- <-.
  set (o := deref (heap s) t) in *. set (opp := opposite (type o)) in *.
  pose proof (run_inv_open _ _ Hinv Hrem) as Hot. fold o in Hot.
  destruct (wf_front_live _ _ _ _ _ _ Hwf Hside) as [Hlive Hom].
  set (q := getRemainingQuantity (deref (heap s) maker)).
  assert (0 < q) as Hq by (destruct Hom as [? _]; unfold q, getRemainingQuantity; lia).
  assert (exists b a, ((b = t /\ a = maker) \/ (b = maker /\ a = t)) /\
            taker_trade dis t maker s = execute_trade dis b a q s)
    as (b & a & Hba & Htt).
  { unfold taker_trade. fold o. rewrite Z.min_r by done. fold q.
    destruct (type o); [exists t, maker|exists maker, t]; auto. }
  rewrite Htt in Hv.
  destruct (execute_trade_wf b a t maker q s opp best [] m Hba Hinv Hside Hot Hq Hle
              ltac:(done)) as (_ & _ & _ & _ & Hsd & _).
  unfold sweep in Hv. rewrite Hsd, decide_True in Hv by done.
  rewrite level_find_notin in Hv; [done|].
  pose proof (wf_sorted _ _ Hwf opp) as Hsorted. rewrite Hside in Hsorted.
  by apply sorted_head_notin in Hsorted.
Qed.

Lemma match_step_front t s best maker v m :
  run_inv t s ->
  side (opposite (type (deref (heap s) t))) (book s) = (best, maker :: v) :: m ->
  out_of_reach (type (deref (heap s) t)) best (price (deref (heap s) t)) = false ->
  0 < getRemainingQuantity (deref (heap s) t) ->
  v ≠ [] \/
  getRemainingQuantity (deref (heap s) t) < getRemainingQuantity (deref (heap s) maker) ->
  match_step dis t s = Continue (taker_trade dis t maker s).
Proof.
  intros Hinv Hside Hreach Hrem Hcase.
  pose proof Hinv as (Hwf & Ht & Hbelow & Hnone & Hid & Hst).
  destruct (match_step dis t s) as [s'|s'|] eqn:Hstep.
  - apply match_step_Break in Hstep as [_ [?|[Hs|(best' & v' & m' & Hs & Hr)]]];
      [lia|by rewrite Hside in Hs|].
    rewrite Hside in Hs. injection Hs as <- <- <-. congruence.
  - destruct (match_step_inv _ _ _ Hinv Hstep) as (_ & _ & b' & k' & v' & m' & Hs & ->).
    rewrite Hside in Hs. by injection Hs as <- <- <- <-.
  - exfalso. apply match_step_Dangling in Hstep as (best' & maker' & v' & m' & Hs & Hsw).
    rewrite Hside in Hs. injection Hs as <- <- <- <-.
    set (o := deref (heap s) t) in *. set (opp := opposite (type o)) in *.
    pose proof (run_inv_open _ _ Hinv Hrem) as Hot. fold o in Hot.
    destruct (wf_front_live _ _ _ _ _ _ Hwf Hside) as [Hlive Hom].
    set (q := Z.min (getRemainingQuantity o) (getRemainingQuantity (deref (heap s) maker))).
    assert (0 < q /\ q <= getRemainingQuantity o /\
            q <= getRemainingQuantity (deref (heap s) maker)) as (Hq & Hqt & Hqm).
    { destruct Hom as [? _]. unfold getRemainingQuantity in *. lia. }
    assert (exists b a, ((b = t /\ a = maker) \/ (b = maker /\ a = t)) /\
              taker_trade dis t maker s = execute_trade dis b a q s)
      as (b & a & Hba & Htt).
    { unfold taker_trade. fold o q.
      destruct (type o); [exists t, maker|exists maker, t]; auto. }
    rewrite Htt in Hsw.
    destruct (execute_trade_wf b a t maker q s opp best v m Hba Hinv Hside Hot Hq Hqt Hqm)
      as (_ & _ & _ & _ & Hsd & _).
    unfold sweep in Hsw. rewrite Hsd in Hsw.
    case_decide as Hfull.
    + destruct Hcase as [Hv|Hlt]; [|lia].
      destruct v as [|x v]; [done|]. simpl in Hsw. by rewrite Z.eqb_refl in Hsw.
    + simpl in Hsw. by rewrite Z.eqb_refl in Hsw.
Qed.

Lemma match_loop_inv fuel t s s' :
  run_inv t s -> Forall (trade_ok (heap s)) (out s) ->
  match_loop dis fuel t s = Returns s' ->
  run_inv t s' /\ Forall (trade_ok (heap s')) (out s').
Proof.
  revert s. induction fuel as [|fuel IH]; intros s Hinv Hout; simpl; [done|].
  destruct (match_step dis t s) as [s1|s1|] eqn:Hstep; [| |done].
  - apply match_step_Break in Hstep as [-> _]. by intros [= <-].
  - destruct (match_step_inv _ _ _ Hinv Hstep) as (Hinv1 & (tr & Ho & Htr) & _).
    apply IH; [done|]. rewrite Ho. apply Forall_app. split; [|by constructor].
    eapply Forall_impl; [exact Hout|]. intros tr0.
    apply trade_ok_static. apply (match_step_shrinks _ _ _ _ Hstep).
Qed.

End Steps.

(** ** [add_order] and [cancel_order] keep the book well formed *)

Lemma before_asym t a b : before t a b = true -> before t b a = false.
Proof. destruct t; simpl; lia. Qed.

Lemma sorted_before_notin t p k w m :
  sorted t ((k, w) :: m) -> k ≠ p -> before t p k = true -> p ∉ keys ((k, w) :: m).
Proof.
  intros Hs Hne Hb Hin. destruct (sorted_front _ _ _ _ _ Hs Hin) as [->|Hkp]; [done|].
  apply before_asym in Hb. congruence.
Qed.

(** The level an order is pushed on, in a ladder in key order. *)
Lemma elem_level_push t p a m l :
  sorted t m -> l ∈ level_push t p a m ->
  (l ∈ m /\ l.1 ≠ p) \/ l = (p, default [] (level_find p m) ++ [a]).
Proof.
  induction m as [|[k w] m IH]; simpl; intros Hs Hin.
  - apply list_elem_of_singleton in Hin as ->. by right.
  - destruct (Z.eqb_spec k p) as [->|Hne].
    + apply elem_of_cons in Hin as [->|Hin]; [by right|]. left. split; [by right|].
      intros <-. destruct l. eapply sorted_head_notin; [exact Hs|]. by eapply elem_keys.
    + destruct (before t p k) eqn:Hb.
      * pose proof (sorted_before_notin _ _ _ _ _ Hs Hne Hb) as Hnotin.
        apply elem_of_cons in Hin as [->|Hin].
        -- right. rewrite keys_cons, not_elem_of_cons in Hnotin.
           by rewrite (level_find_notin p m) by tauto.
        -- left. split; [done|]. intros <-. destruct l. apply Hnotin. by eapply elem_keys.
      * apply elem_of_cons in Hin as [->|Hin]; [left; split; [by left|done]|].
        destruct (IH (sorted_tail _ _ _ Hs) Hin) as [[? ?]|?]; [left|by right].
        split; [by right|done].
Qed.

Lemma level_find_push_sorted t p p' a m :
  sorted t m ->
  level_find p' (level_push t p a m) =
  if decide (p' = p) then Some (default [] (level_find p m) ++ [a]) else level_find p' m.
Proof.
  induction m as [|[k w] m IH]; simpl; intros Hs.
  - case_decide as Hp; [subst; by rewrite Z.eqb_refl|].
    by destruct (Z.eqb_spec p p'); [congruence|].
  - destruct (Z.eqb_spec k p) as [->|Hne]; simpl.
    + case_decide as Hp; [subst; by rewrite Z.eqb_refl|].
      by destruct (Z.eqb_spec p p'); [congruence|].
    + destruct (before t p k) eqn:Hb; simpl.
      * pose proof (sorted_before_notin _ _ _ _ _ Hs Hne Hb) as Hnotin.
        rewrite keys_cons, not_elem_of_cons in Hnotin.
        case_decide as Hp.
        -- subst. rewrite Z.eqb_refl. by rewrite (level_find_notin p m) by tauto.
        -- destruct (Z.eqb_spec p p'); [congruence|done].
      * rewrite (IH (sorted_tail _ _ _ Hs)). case_decide as Hp; [|done].
        subst. destruct (Z.eqb_spec k p); [done|]. done.
Qed.

Lemma add_order_sides t s :
  let o := deref (heap s) t in
  (quantity o <=? 0) = false ->
  heap (add_order t s) = heap s /\ orderCounter (add_order t s) = orderCounter s /\
  out (add_order t s) = out s /\
  orderMap (book (add_order t s)) = <[orderId o := t]> (orderMap (book s)) /\
  forall ty, side ty (book (add_order t s)) =
    if decide (ty = type o) then level_push ty (price o) t (side ty (book s))
    else side ty (book s).
Proof.
  intros o Hq. unfold add_order. fold o. rewrite Hq.
  do 3 (split; [done|]). split; [by destruct (type o)|].
  intros ty. case_decide as Hty; [subst|]; destruct (type o); try done; by destruct ty.
Qed.

Lemma wf_add_order t s :
  run_inv t s -> open_order (deref (heap s) t) -> wf (add_order t s).
Proof.
  intros (Hwf & Ht & Hbelow & Hnone & Hid & _) Hopen.
  set (o := deref (heap s) t) in *.
  assert ((quantity o <=? 0) = false) as Hq by (destruct Hopen as [? _]; lia).
  destruct (add_order_sides t s Hq) as (Hheap & Hctr & _ & Hom & Hside). fold o in Hom, Hside.
  assert (forall ty a, a ∈ addrs (side ty (book s)) -> orderId (deref (heap s) a) ≠ orderId o)
    as Hfresh.
  { intros ty a Ha Heq. destruct (wf_but_index_of _ _ _ _ Hwf Ha) as [(_&_&_&_&Hm) _].
    unfold get_order in Hnone. congruence. }
  assert (forall ty p a, a ∈ addrs (side ty (book s)) ->
            live nobody s ty p a -> live nobody (add_order t s) ty p a) as Hkeep.
  { intros ty p a Ha (? & ? & ? & ? & ?). unfold live. rewrite Hheap, Hom.
    do 4 (split; [done|]). rewrite lookup_insert_ne; [done|]. intros Heq.
    by apply (Hfresh ty a). }
  assert (live nobody (add_order t s) (type o) (price o) t) as Hlt.
  { unfold live. rewrite Hheap, Hom. fold o. do 3 (split; [done|]).
    split; [done|]. apply lookup_insert_eq. }
  constructor.
  - intros ty. rewrite Hside. case_decide; [subst|]; [apply sorted_level_push|];
      apply (wf_sorted _ _ Hwf).
  - intros ty. apply Forall_forall. intros l Hl.
    pose proof (wf_levels _ _ Hwf ty) as Hlv. rewrite Forall_forall in Hlv.
    assert (forall l0, l0 ∈ side ty (book s) -> level_ok nobody (add_order t s) ty l0) as Hold.
    { intros l0 Hl0. destruct (Hlv l0 Hl0) as (? & ? & Hlive). split; [done|]. split; [done|].
      rewrite Forall_forall in Hlive |- *. intros a Ha. apply Hkeep; [|by apply Hlive].
      apply elem_addrs. eauto. }
    rewrite Hside in Hl. case_decide as Hty; [|by apply Hold]. subst ty.
    apply elem_level_push in Hl as [[Hl _]| ->]; [by apply Hold| |apply (wf_sorted _ _ Hwf)].
    assert (exists v0, default [] (level_find (price o) (side (type o) (book s))) = v0 /\
              StronglySorted lt v0 /\ Forall (fun a => (a < t)%nat) v0 /\
              Forall (live nobody (add_order t s) (type o) (price o)) v0)
      as (v0 & -> & Hs0 & Hlt0 & Hl0).
    { destruct (level_find _ _) as [v0|] eqn:Hf; simpl.
      - exists v0. split; [done|]. apply level_find_elem in Hf.
        destruct (Hold _ Hf) as (_ & ? & ?). split; [done|]. split; [|done].
        apply Forall_forall. intros a Ha. apply (Hbelow (type o)). apply elem_addrs. eauto.
      - exists []. repeat split; constructor. }
    split; [by destruct v0|]. simpl. split.
    + apply StronglySorted_app. split; [|split; [done|repeat constructor]].
      rewrite Forall_forall in Hlt0. intros x1 x2 Hx1 ->%list_elem_of_singleton.
      by apply Hlt0.
    + apply Forall_app. split; [done|]. by constructor.
  - intros id a. rewrite Hom, Hheap. intros Hm.
    destruct (decide (id = orderId o)) as [->|Hne].
    + rewrite lookup_insert_eq in Hm. injection Hm as <-. fold o. split; [done|].
      rewrite Hside, decide_True by done.
      rewrite level_find_push_sorted, decide_True by (done || apply (wf_sorted _ _ Hwf)).
      eexists. split; [done|]. apply elem_of_app. right. by left.
    + rewrite lookup_insert_ne in Hm by done.
      destruct (wf_index _ _ Hwf id a Hm) as (Hida & w & Hw & Ha). split; [done|].
      rewrite Hside. case_decide as Hty; [|eauto].
      rewrite level_find_push_sorted by (rewrite Hty; apply (wf_sorted _ _ Hwf)).
      case_decide as Hp; [|eauto]. rewrite Hp in Hw. rewrite Hw. simpl.
      eexists. split; [done|]. apply elem_of_app. by left.
  - intros id a. rewrite Hom, Hctr. intros Hm.
    destruct (decide (id = orderId o)) as [->|Hne]; [done|].
    rewrite lookup_insert_ne in Hm by done. by apply (wf_ids _ _ Hwf id a).
  - rewrite Hheap. apply (wf_heap _ _ Hwf).
  - rewrite Hctr. apply (wf_counter _ _ Hwf).
Qed.

Lemma wf_closed s : wf s -> closed s.
Proof.
  intros Hwf ty a Ha. by destruct (wf_but_index_of _ _ _ _ Hwf Ha) as [(? & _) _].
Qed.

Lemma wf_index_live s id a :
  wf s -> orderMap (book s) !! id = Some a ->
  let o := deref (heap s) a in
  orderId o = id /\ live nobody s (type o) (price o) a /\ open_order o.
Proof.
  intros Hwf Hm. destruct (wf_index _ _ Hwf id a Hm) as (Hid & v & Hv & Ha).
  simpl. split; [done|].
  assert (a ∈ addrs (side (type (deref (heap s) a)) (book s))) as Hin.
  { apply elem_addrs. exists (price (deref (heap s) a), v).
    split; [by apply level_find_elem|done]. }
  destruct (wf_but_index_of _ _ _ _ Hwf Hin) as [Hl _]. split; [done|].
  destruct Hl as (_ & _ & _ & Ho & _). apply Ho. by intros [].
Qed.

Lemma wf_alloc s o c :
  wf s -> sound_order o -> orderCounter s <= c ->
  wf (mkState (heap s ++ [o]) (book s) c (draws s) (out s)).
Proof.
  intros Hwf Ho Hc. pose proof (wf_closed _ Hwf) as Hcl.
  destruct Hwf as [H1 H2 H3 H4 H5 H6]. constructor; simpl; try done.
  - intros ty. eapply Forall_impl; [apply H2|]. intros l (? & ? & Hl).
    split; [done|]. split; [done|]. eapply Forall_impl; [exact Hl|].
    intros a (Ha & ? & ? & ? & ?). unfold live. simpl.
    rewrite deref_app_l, length_app by done. split; [lia|done].
  - intros id a Hm. destruct (H3 id a Hm) as (Hid & v & Hv & Ha).
    assert (a < length (heap s))%nat as Hlt.
    { apply (Hcl (type (deref (heap s) a))). apply elem_addrs.
      exists (price (deref (heap s) a), v). split; [by apply level_find_elem|done]. }
    rewrite deref_app_l by done. eauto.
  - intros id a Hm. destruct (H4 id a Hm) as (k & ? & ?). exists k. split; [lia|done].
  - apply Forall_app. split; [done|by constructor].
  - lia.
Qed.

Lemma order_id_inj (k k' : Z) : "O" +:+ pretty k = "O" +:+ pretty k' -> k = k'.
Proof.
  intros H. injection H as H.
  assert (pretty k = pretty k') as E by exact H. by apply (inj pretty) in E.
Qed.

Lemma wf_cancel_order id s : wf s -> wf (cancel_order id s).2.
Proof.
  intros Hwf. unfold cancel_order.
  destruct (orderMap (book s) !! id) as [a|] eqn:Hm; [|done].
  destruct (wf_index_live _ _ _ Hwf Hm) as (Hid & Hlive & Hopen).
  set (s0 := set_heap _ s).
  apply (wf_remove_order (fun z => z = a) s0 id a); [|done|done].
  apply (wf_but_heap_change nobody _ s); try done.
  - apply same_static_cancel.
  - apply Forall_insert; [apply (wf_heap _ _ Hwf)|].
    destruct Hopen as [? _]. unfold sound_order. simpl. lia.
  - intros ty z Hz Hne. simpl. rewrite deref_insert. case_decide as Hc; [by destruct Hc|].
    destruct (wf_but_index_of _ _ _ _ Hwf Hz) as [(_&_&_&Ho&_) _]. apply Ho. by intros [].
Qed.

Section Sessions.

Variable dis : nat -> Z.

Lemma match_order_good t s s' :
  run_inv t s -> Forall (trade_ok (heap s)) (out s) ->
  match_order dis t s = Returns s' -> good s'.
Proof.
  intros Hinv Hout. unfold match_order.
  destruct (quantity _ <=? 0); [intros [= <-]; split; [apply Hinv|done]|].
  destruct (match_loop _ _ _ _) as [s1| |] eqn:Hloop; simpl; [|done..].
  intros [= <-]. destruct (match_loop_inv _ _ _ _ _ Hinv Hout Hloop) as [Hinv1 Hout1].
  destruct (0 <? getRemainingQuantity _) eqn:Hrem; [|split; [apply Hinv1|done]].
  assert (open_order (deref (heap s1) t)) as Hopen by (apply run_inv_open; [done|lia]).
  split; [by apply wf_add_order|].
  destruct (add_order_frame t s1) as (-> & -> & _). done.
Qed.

Lemma good_init : good init.
Proof.
  split; [|constructor]. constructor; simpl; try done; try (intros []; constructor).
  all: intros id a Hm; by rewrite lookup_empty in Hm.
Qed.

Lemma submit_run_inv ty p qty sym client s :
  wf s ->
  run_inv (length (heap s))
    (alloc (new_Order (generate_order_id s).1 ty p qty sym client) (generate_order_id s).2).2.
Proof.
  intros Hwf. simpl. set (o := new_Order _ ty p qty sym client).
  set (s0 := set_heap (heap s ++ [o]) _).
  assert (deref (heap s0) (length (heap s)) = o) as Hd by apply deref_alloc.
  split; [|split; [|split; [|split; [|split]]]].
  - apply (wf_alloc s o (orderCounter s + 1)); [done|done|lia].
  - simpl. rewrite length_app. simpl. lia.
  - apply (wf_closed _ Hwf).
  - rewrite Hd. simpl. unfold get_order. simpl.
    destruct (orderMap (book s) !! _) as [a|] eqn:Hl; [|done].
    destruct (wf_ids _ _ Hwf _ _ Hl) as (k & Hk & Heq). apply order_id_inj in Heq. lia.
  - rewrite Hd. simpl. exists (orderCounter s + 1). pose proof (wf_counter _ _ Hwf).
    split; [lia|done].
  - by rewrite Hd.
Qed.

Lemma submit_order_good ty p qty sym client s id s' :
  good s -> submit_order dis ty p qty sym client s = Returns (id, s') -> good s'.
Proof.
  intros [Hwf Hout]. unfold submit_order. destruct (_ || _); [by intros [= _ <-]|].
  pose proof (submit_run_inv ty p qty sym client s Hwf) as Hinv. simpl in Hinv |- *.
  set (o := new_Order _ ty p qty sym client) in *.
  set (s0 := set_heap (heap s ++ [o]) _) in *.
  destruct (match_order dis (length (heap s)) s0) as [s1| |] eqn:Hm; simpl; [|done..].
  intros [= _ <-]. eapply match_order_good; [exact Hinv| |exact Hm].
  simpl. eapply Forall_impl; [exact Hout|]. intros tr. apply trade_ok_alloc.
Qed.

Lemma cancel_order_good id s : good s -> good (cancel_order id s).2.
Proof.
  intros [Hwf Hout]. split; [by apply wf_cancel_order|].
  destruct (cancel_order_frame id s) as (_ & -> & _).
  eapply Forall_impl; [exact Hout|]. intros tr. apply trade_ok_static.
  apply (cancel_order_shrinks id s).
Qed.

Lemma modify_order_good id p qty s r s' :
  good s -> modify_order dis id p qty s = Returns (r, s') -> good s'.
Proof.
  intros Hgood. unfold modify_order.
  destruct (get_order id s) as [a|] eqn:Hget; [|by intros [= _ <-]].
  case_decide; [|by intros [= _ <-]].
  pose proof (cancel_order_good id s Hgood) as [Hwf1 Hout1].
  set (s1 := (cancel_order id s).2) in *. simpl.
  set (o := new_Order id _ p qty _ _).
  set (s0 := set_heap (heap s1 ++ [o]) s1).
  destruct (match_order dis (length (heap s1)) s0) as [s2| |] eqn:Hm; simpl; [|done..].
  intros [= _ <-]. eapply match_order_good; [| |exact Hm].
  - assert (deref (heap s0) (length (heap s1)) = o) as Hd by apply deref_alloc.
    split; [|split; [|split; [|split; [|split]]]].
    + apply (wf_alloc s1 o (orderCounter s1)); [done|done|lia].
    + simpl. rewrite length_app. simpl. lia.
    + apply (wf_closed _ Hwf1).
    + rewrite Hd. simpl. apply cancel_order_gone.
    + rewrite Hd. simpl. destruct Hgood as [Hwf _].
      destruct (wf_ids _ _ Hwf _ _ Hget) as (k & Hk & Hidk). exists k. split; [|done].
      pose proof (cancel_order_shrinks id s) as [_ _ _ Hc]. fold s1 in Hc. simpl. lia.
    + by rewrite Hd.
  - simpl. eapply Forall_impl; [exact Hout1|]. intros tr. apply trade_ok_alloc.
Qed.

Lemma request_good r s s' : good s -> request dis r s = Returns s' -> good s'.
Proof.
  intros Hgood. destruct r as [ty p qty sym client|id|id p qty]; simpl.
  - destruct (submit_order _ _ _ _ _ _ _) as [[id s1]| |] eqn:Hs; simpl; [|done..].
    intros [= <-]. by eapply submit_order_good.
  - intros [= <-]. by apply cancel_order_good.
  - destruct (modify_order _ _ _ _ _) as [[r s1]| |] eqn:Hs; simpl; [|done..].
    intros [= <-]. by eapply modify_order_good.
Qed.

Lemma session_good rs s s' : good s -> session dis rs s = Returns s' -> good s'.
Proof.
  revert s. induction rs as [|r rs IH]; intros s Hgood; simpl; [by intros [= <-]|].
  destruct (request dis r s) as [s1| |] eqn:Hr; simpl; [|done..].
  apply IH. by eapply request_good.
Qed.

End Sessions.

(** ** Market depth *)

Lemma wrap_int_small z : - 2 ^ 31 <= z < 2 ^ 31 -> wrap_int z = z.
Proof. intros Hz. unfold wrap_int. rewrite Z.mod_small; lia. Qed.

Lemma level_total_nonneg h v :
  Forall (fun a => 0 < getRemainingQuantity (deref h a)) v -> 0 <= level_total h v.
Proof. induction 1 as [|a v Ha _ IH]; simpl; lia. Qed.

Lemma level_size_acc h v acc :
  0 <= acc ->
  Forall (fun a => 0 < getRemainingQuantity (deref h a)) v ->
  acc + level_total h v < 2 ^ 31 ->
  foldl (fun acc a => wrap_int (acc + getRemainingQuantity (deref h a))) acc v
  = acc + level_total h v.
Proof.
  intros Hacc Hv. revert acc Hacc. induction Hv as [|a v Ha Hv IH]; intros acc Hacc Hlt.
  - simpl. lia.
  - cbn [foldl level_total foldr] in *. fold (level_total h v) in *.
    pose proof (level_total_nonneg h v Hv).
    rewrite wrap_int_small by lia. rewrite IH by lia. lia.
Qed.

(** Within the range of an [int] the size of a level of open orders is the
    sum of what remains of them. *)
Lemma level_size_exact h v :
  Forall (fun a => 0 < getRemainingQuantity (deref h a)) v ->
  level_total h v < 2 ^ 31 ->
  level_size h v = level_total h v.
Proof. intros Hv Hlt. unfold level_size. rewrite level_size_acc by (done || lia). lia. Qed.


Lemma depth_loop_take h levels count m :
  depth_loop h levels count m =
  map (fun l => (l.1, level_size h l.2)) (take (Z.to_nat (levels - count)) m).
Proof.
  revert count. induction m as [|[p v] m IH]; intros count; simpl.
  - by rewrite take_nil.
  - destruct (Z.leb_spec levels count).
    + by replace (Z.to_nat (levels - count)) with 0%nat by lia.
    + replace (Z.to_nat (levels - count)) with (S (Z.to_nat (levels - (count + 1)))) by lia.
      simpl. by rewrite IH.
Qed.

(** ** Runs of the matching loop *)

Lemma match_step_passive dis t s :
  0 < getRemainingQuantity (deref (heap s) t) ->
  crosses (type (deref (heap s) t)) (price (deref (heap s) t)) (book s) = false ->
  match_step dis t s = Break s.
Proof.
  intros Hrem Hc. unfold match_step, crosses in *.
  destruct (0 <? _) eqn:E; [|lia]. simpl.
  destruct (side _ (book s)) as [|[best v] m]; [done|].
  by destruct (out_of_reach _ _ _).
Qed.

Lemma match_loop_fuel_mono dis fuel fuel' t s :
  match_loop dis fuel t s ≠ OutOfFuel -> (fuel <= fuel')%nat ->
  match_loop dis fuel' t s = match_loop dis fuel t s.
Proof.
  revert fuel' s. induction fuel as [|fuel IH]; intros fuel' s; simpl; [done|].
  intros Hne Hle. destruct fuel' as [|fuel']; [lia|]. simpl.
  destruct (match_step dis t s) as [s1|s1|]; [done| |done].
  apply IH; [done|lia].
Qed.

(** ** Order ids *)

Lemma Forall_by_deref (P : Order -> Prop) h :
  Forall P h <-> forall a, (a < length h)%nat -> P (deref h a).
Proof.
  rewrite Forall_lookup. split.
  - intros H a Ha. destruct (lookup_lt_is_Some_2 h a Ha) as [o Ho].
    replace (deref h a) with o by (unfold deref, addr in *; by rewrite Ho). eauto.
  - intros H a o Ho. specialize (H a (lookup_lt_Some _ _ _ Ho)).
    replace (deref h a) with o in H by (unfold deref, addr in *; by rewrite Ho). done.
Qed.

Lemma known_id_static n h h' :
  same_static h h' -> Forall (known_id n) h -> Forall (known_id n) h'.
Proof.
  intros [Hlen Hst]. rewrite !Forall_by_deref. intros H a Ha.
  destruct (Hst a) as (Hid & _). unfold known_id. rewrite Hid. apply H. lia.
Qed.

Section Counters.

Variable dis : nat -> Z.


Lemma modify_order_counter id p qty s r s' :
  modify_order dis id p qty s = Returns (r, s') -> orderCounter s' = orderCounter s.
Proof.
  unfold modify_order. destruct (get_order id s); [|by intros [= _ <-]].
  case_decide; [|by intros [= _ <-]]. simpl.
  destruct (match_order _ _ _) as [s1| |] eqn:Hm; simpl; [|done..].
  intros [= _ <-]. rewrite (match_order_counter _ _ _ _ Hm). simpl.
  apply (cancel_order_shrinks id s).
Qed.


Lemma known_id_mono n n' o : n <= n' -> known_id n o -> known_id n' o.
Proof. intros Hle (k & Hk & Hid). exists k. split; [lia|done]. Qed.

Lemma request_known_ids r s s' :
  good s -> Forall (known_id (orderCounter s)) (heap s) ->
  request dis r s = Returns s' ->
  Forall (known_id (orderCounter s')) (heap s').
Proof.
  intros [Hwf _] Hk. destruct r as [ty p qty sym client|id|id p qty]; simpl.
  - destruct (submit_order _ _ _ _ _ _ _) as [[id s1]| |] eqn:Hsub; simpl; [|done..].
    intros [= <-]. revert Hsub. unfold submit_order.
    destruct (_ || _); [by intros [= _ <-]|]. simpl.
    destruct (match_order _ _ _) as [s2| |] eqn:Hm; simpl; [|done..].
    intros [= _ <-]. rewrite (match_order_counter _ _ _ _ Hm).
    apply (known_id_static _ _ _ (match_order_static _ _ _ _ Hm)). simpl.
    apply Forall_app. split.
    + eapply Forall_impl; [exact Hk|]. intros o. apply known_id_mono. lia.
    + constructor; [|constructor]. exists (orderCounter s + 1).
      pose proof (wf_counter _ _ Hwf). split; [lia|done].
  - intros [= <-]. pose proof (cancel_order_shrinks id s) as [Hst _ _ ->].
    by apply (known_id_static _ _ _ Hst).
  - destruct (modify_order _ _ _ _ _) as [[r s1]| |] eqn:Hmod; simpl; [|done..].
    intros [= <-]. rewrite (modify_order_counter _ _ _ _ _ _ Hmod).
    revert Hmod. unfold modify_order.
    destruct (get_order id s) as [a|] eqn:Hget; [|by intros [= _ <-]].
    case_decide; [|by intros [= _ <-]]. simpl.
    destruct (match_order _ _ _) as [s2| |] eqn:Hm; simpl; [|done..].
    intros [= _ <-].
    apply (known_id_static _ _ _ (match_order_static _ _ _ _ Hm)). simpl.
    pose proof (cancel_order_shrinks id s) as [Hst _ _ _].
    apply Forall_app. split; [by apply (known_id_static _ _ _ Hst)|].
    constructor; [|constructor]. destruct (wf_ids _ _ Hwf _ _ Hget) as (k & ? & ?).
    exists k. done.
Qed.

Lemma session_known_ids rs s s' :
  good s -> Forall (known_id (orderCounter s)) (heap s) ->
  session dis rs s = Returns s' ->
  Forall (known_id (orderCounter s')) (heap s').
Proof.
  revert s. induction rs as [|r rs IH]; intros s Hgood Hk; simpl; [by intros [= <-]|].
  destruct (request dis r s) as [s1| |] eqn:Hr; simpl; [|done..].
  apply IH; [by eapply request_good|by eapply request_known_ids].
Qed.

End Counters.

(** ** The order and the sizes of the depth *)

Lemma depth_loop_keys h levels count m x :
  x ∈ depth_loop h levels count m -> x.1 ∈ keys m.
Proof.
  revert count. induction m as [|[p v] m IH]; intros count; simpl;
    [by intros ?%elem_of_nil|].
  rewrite keys_cons. destruct (levels <=? count); [by intros ?%elem_of_nil|].
  intros [->|Hx]%elem_of_cons; [by left|]. right. by eapply IH.
Qed.

Lemma depth_loop_sorted h ty levels count m :
  sorted ty m ->
  StronglySorted (fun x y => before ty x.1 y.1 = true) (depth_loop h levels count m).
Proof.
  unfold sorted. revert count. induction m as [|[p v] m IH]; intros count; simpl;
    [constructor|].
  rewrite keys_cons. intros [Hp Hm]%StronglySorted_cons.
  destruct (levels <=? count); [constructor|].
  apply StronglySorted_cons. split; [|by apply IH].
  rewrite Forall_forall in Hp. apply Forall_forall. intros x Hx. simpl.
  apply Hp. by eapply depth_loop_keys.
Qed.

Lemma depth_loop_positive h levels count m :
  Forall (fun l => 0 < level_size h l.2) m ->
  Forall (fun x => 0 < x.2) (depth_loop h levels count m).
Proof.
  intros H. revert count. induction H as [|[p v] m Hv _ IH]; intros count; simpl;
    [constructor|].
  destruct (levels <=? count); [constructor|]. constructor; [done|apply IH].
Qed.

Lemma level_total_positive h v :
  v ≠ [] -> Forall (fun a => 0 < getRemainingQuantity (deref h a)) v ->
  0 < level_total h v.
Proof.
  intros Hne H. destruct H as [|a v Ha Hv]; [done|].
  pose proof (level_total_nonneg h v Hv). simpl. fold (level_total h v). lia.
Qed.

Lemma wf_level_sizes s ty :
  wf s ->
  Forall (fun l => level_total (heap s) l.2 < 2 ^ 31 ->
                   level_size (heap s) l.2 = level_total (heap s) l.2 /\
                   0 < level_size (heap s) l.2) (side ty (book s)).
Proof.
  intros Hwf. eapply Forall_impl; [apply (wf_levels _ _ Hwf ty)|].
  intros l (Hne & _ & Hlive) Hlt.
  assert (Forall (fun a => 0 < getRemainingQuantity (deref (heap s) a)) l.2) as Hopen.
  { eapply Forall_impl; [exact Hlive|]. intros a (_ & _ & _ & Ho & _).
    destruct Ho as [Ho _]; [by intros []|]. unfold getRemainingQuantity. lia. }
  rewrite level_size_exact by done. split; [done|]. by apply level_total_positive.
Qed.

Lemma depth_loop_exact h levels count m :
  Forall (fun l => level_size h l.2 = level_total h l.2 /\ 0 < level_size h l.2) m ->
  depth_loop h levels count m
    = map (fun l => (l.1, level_total h l.2)) (take (Z.to_nat (levels - count)) m) /\
  Forall (fun x => 0 < x.2) (depth_loop h levels count m).
Proof.
  intros H. split.
  - rewrite depth_loop_take. apply map_ext_Forall.
    apply Forall_take. eapply Forall_impl; [exact H|]. by intros l [-> _].
  - apply depth_loop_positive. eapply Forall_impl; [exact H|]. by intros l [_ ?].
Qed.

Lemma Forall_modus {A} (P Q : A -> Prop) l :
  Forall (fun x => P x -> Q x) l -> Forall P l -> Forall Q l.
Proof.
  induction 1 as [|x l Hx _ IH]; [constructor|].
  intros [? ?]%Forall_cons. constructor; auto.
Qed.

Lemma StronglySorted_weaken {A} (R R' : A -> A -> Prop) l :
  (forall x y, R x y -> R' x y) -> StronglySorted R l -> StronglySorted R' l.
Proof.
  intros HR. induction 1 as [|x l _ IH Hx]; constructor; [done|].
  eapply Forall_impl; [exact Hx|]. intros y. apply HR.
Qed.

Lemma sorted_front_best ty p v m :
  sorted ty ((p, v) :: m) -> forall k, k ∈ keys ((p, v) :: m) -> before ty k p = false.
Proof.
  unfold sorted. rewrite keys_cons. intros [Hp _]%StronglySorted_cons k.
  intros [->|Hk]%elem_of_cons; [apply before_irrefl|].
  rewrite Forall_forall in Hp. by apply before_asym, Hp.
Qed.

(** ** Turns of the matching loop *)

Lemma match_loop_S dis fuel t s :
  match_loop dis (S fuel) t s =
  match match_step dis t s with
  | Break s => Returns s
  | Continue s => match_loop dis fuel t s
  | Dangling => UseAfterFree
  end.
Proof. reflexivity. Qed.

Lemma turns_inv dis n t s s1 :
  run_inv t s -> turns dis n t s = Some s1 ->
  run_inv t s1 /\ type (deref (heap s1) t) = type (deref (heap s) t).
Proof.
  revert s. induction n as [|n IH]; intros s Hinv; simpl; [by intros [= <-]|].
  destruct (match_step dis t s) as [s'|s'|] eqn:Hstep; [done| |done].
  intros Hn. destruct (match_step_inv _ _ _ _ Hinv Hstep) as (Hinv' & _).
  destruct (IH _ Hinv' Hn) as [? ->]. split; [done|].
  destruct (match_step_shrinks _ _ _ _ Hstep) as [[_ Hst] _ _ _].
  by destruct (Hst t) as (_ & -> & _).
Qed.

Lemma emits_refl dis s : emits dis s s.
Proof. apply emits_same; done. Qed.

Lemma match_order_passive dis t s :
  0 < quantity (deref (heap s) t) ->
  0 < getRemainingQuantity (deref (heap s) t) ->
  crosses (type (deref (heap s) t)) (price (deref (heap s) t)) (book s) = false ->
  match_order dis t s = Returns (add_order t s).
Proof.
  intros Hq Hrem Hc. unfold match_order.
  replace (quantity (deref (heap s) t) <=? 0) with false by lia.
  rewrite match_loop_S, match_step_passive by done. cbn [mbind outcome_bind].
  by replace (0 <? getRemainingQuantity (deref (heap s) t)) with true by lia.
Qed.

(** ** Trade statistics *)

Lemma feed_step tr d :
  (length (tradeHistory d) <= 1000)%nat ->
  tradeHistory (on_trade_executed tr d)
    = drop (length (tradeHistory d ++ [tr]) - 1000) (tradeHistory d ++ [tr]) /\
  (length (tradeHistory (on_trade_executed tr d)) <= 1000)%nat.
Proof.
  intros Hle. unfold on_trade_executed. cbn [tradeHistory].
  assert (length (tradeHistory d ++ [tr]) = S (length (tradeHistory d))) as Hlen
    by (rewrite length_app; simpl; lia).
  destruct (Nat.ltb_spec 1000 (length (tradeHistory d ++ [tr]))) as [Hgt|Hgt].
  - replace (length (tradeHistory d ++ [tr]) - 1000)%nat with 1%nat by lia.
    split; [done|]. rewrite length_drop. lia.
  - replace (length (tradeHistory d ++ [tr]) - 1000)%nat with 0%nat by lia.
    split; [done|lia].
Qed.

(** * Further properties of the code *)

(** ** The book, the index and the store *)

(** X1: in every state a session reaches, the id index and the two ladders
    hold the same orders: an id is in the index at address [a] exactly when
    the order at [a] carries that id and [a] is queued in one of the
    ladders.  [add_order] and [remove_order] keep the two in step. *)
Theorem index_is_the_book dis rs s id a :
  session dis rs init = Returns s ->
  (orderMap (book s) !! id = Some a <->
   orderId (deref (heap s) a) = id /\ exists ty, a ∈ addrs (side ty (book s))).
Proof.
  intros Hs. destruct (session_good dis _ _ _ good_init Hs) as [Hwf _]. split.
  - intros Hm. destruct (wf_index _ _ Hwf id a Hm) as (Hid & v & Hv & Ha).
    split; [done|]. exists (type (deref (heap s) a)). apply elem_addrs.
    exists (price (deref (heap s) a), v). split; [by apply level_find_elem|done].
  - intros [<- [ty Ha]]. by destruct (wf_but_index_of _ _ _ _ Hwf Ha) as [(_&_&_&_&?) _].
Qed.

Lemma index_is_the_book_witness :
  exists s,
    session example_draws example_requests init = Returns s /\
    (orderMap (book s) !! "O2" = Some 4%nat <->
     orderId (deref (heap s) 4%nat) = "O2" /\ exists ty, 4%nat ∈ addrs (side ty (book s))).
Proof.
  eexists. split; [vm_compute; reflexivity|].
  apply (index_is_the_book example_draws example_requests). vm_compute; reflexivity.
Defined.

(** X2: in every state a session reaches, an order queued in a level is of
    the side and the price of that level, is filled to less than its
    quantity, and has status PENDING when nothing of it is filled and
    PARTIALLY_FILLED otherwise.  No FILLED or CANCELLED order stays in the
    book. *)
Theorem resting_orders_are_open dis rs s ty p v a :
  session dis rs init = Returns s ->
  (p, v) ∈ side ty (book s) -> a ∈ v ->
  let o := deref (heap s) a in
  type o = ty /\ price o = p /\ 0 <= filledQuantity o < quantity o /\
  status o = (if filledQuantity o =? 0 then PENDING else PARTIALLY_FILLED).
Proof.
  intros Hs Hl Ha. destruct (session_good dis _ _ _ good_init Hs) as [Hwf _].
  pose proof (wf_levels _ _ Hwf ty) as Hlv. rewrite Forall_forall in Hlv.
  destruct (Hlv _ Hl) as (_ & _ & Hlive). rewrite Forall_forall in Hlive.
  destruct (Hlive a Ha) as (_ & Hty & Hpr & Ho & _). simpl in *.
  destruct Ho as [? ?]; [by intros []|]. done.
Qed.

Lemma resting_orders_are_open_witness :
  exists s,
    session example_draws example_requests init = Returns s /\
    (10000, [2%nat]) ∈ side SELL (book s) /\
    let o := deref (heap s) 2%nat in
    type o = SELL /\ price o = 10000 /\ 0 <= filledQuantity o < quantity o /\
    status o = (if filledQuantity o =? 0 then PENDING else PARTIALLY_FILLED).
Proof.
  eexists. split; [vm_compute; reflexivity|]. split; [apply list_elem_of_here|].
  apply (resting_orders_are_open example_draws example_requests _ SELL 10000 [2%nat]);
    [vm_compute; reflexivity|apply list_elem_of_here|apply list_elem_of_here].
Defined.

(** X3: in every state a session reaches, no level of the book is empty, a
    price has one level, and the queue of a level is in strictly increasing
    order of allocation: the orders at a price stand in the order in which
    they came.  The test [ordersAtPrice.empty()] of [match_order] is never
    true there. *)
Theorem levels_are_queues dis rs s ty p v :
  session dis rs init = Returns s ->
  (p, v) ∈ side ty (book s) ->
  v ≠ [] /\ StronglySorted lt v /\ level_find p (side ty (book s)) = Some v.
Proof.
  intros Hs Hl. destruct (session_good dis _ _ _ good_init Hs) as [Hwf _].
  pose proof (wf_levels _ _ Hwf ty) as Hlv. rewrite Forall_forall in Hlv.
  destruct (Hlv _ Hl) as (? & ? & _). split; [done|]. split; [done|].
  eapply sorted_level_find; [apply (wf_sorted _ _ Hwf)|done].
Qed.

Lemma levels_are_queues_witness :
  exists s,
    session example_draws example_requests init = Returns s /\
    (9950, [4%nat]) ∈ side BUY (book s) /\
    [4%nat] ≠ [] /\ StronglySorted lt [4%nat] /\
    level_find 9950 (side BUY (book s)) = Some [4%nat].
Proof.
  eexists. split; [vm_compute; reflexivity|]. split; [apply list_elem_of_here|].
  apply (levels_are_queues example_draws example_requests _ BUY 9950 [4%nat]);
    [vm_compute; reflexivity|apply list_elem_of_here].
Defined.

(** X4: every order object a session has created has a status that tells
    how far it is filled: PENDING with nothing filled, PARTIALLY_FILLED with
    a positive fill below the quantity, FILLED with the fill equal to the
    quantity, CANCELLED with a fill below the quantity; none is REJECTED and
    no order that has traded is filled beyond its quantity. *)
Theorem status_tells_the_fill dis rs s o :
  session dis rs init = Returns s -> o ∈ heap s -> sound_order o.
Proof.
  intros Hs Ho. destruct (session_good dis _ _ _ good_init Hs) as [Hwf _].
  pose proof (wf_heap _ _ Hwf) as Hh. rewrite Forall_forall in Hh. by apply Hh.
Qed.

Lemma status_tells_the_fill_witness :
  exists s o,
    session example_draws example_requests init = Returns s /\
    heap s !! 3%nat = Some o /\ status o = FILLED /\ sound_order o.
Proof.
  eexists. eexists. split; [vm_compute; reflexivity|]. split; [reflexivity|].
  split; [reflexivity|].
  eapply (status_tells_the_fill example_draws example_requests);
    [vm_compute; reflexivity|].
  do 3 apply list_elem_of_further. apply list_elem_of_here.
Defined.

(** ** Trades *)

(** X5: every trade a session has emitted is for a positive quantity, not
    above the quantity of either party, between a buy order and a sell order
    that are two objects; it carries the symbol of the buy order and the
    price of the sell order, which is not above the price of the buy
    order. *)
Theorem trades_are_sound dis rs s tr :
  session dis rs init = Returns s -> tr ∈ out s -> trade_ok (heap s) tr.
Proof.
  intros Hs Htr. destruct (session_good dis _ _ _ good_init Hs) as [_ Hout].
  rewrite Forall_forall in Hout. by apply Hout.
Qed.

Lemma trades_are_sound_witness :
  exists s tr,
    session example_draws example_requests init = Returns s /\
    out s = [tr] /\ trade_ok (heap s) tr.
Proof.
  eexists. eexists. split; [vm_compute; reflexivity|]. split; [reflexivity|].
  eapply (trades_are_sound example_draws example_requests);
    [vm_compute; reflexivity|apply list_elem_of_here].
Defined.

(** ** What a submit does *)

(** X6: [submit_order], in any state, for a positive price and quantity that
    reach no order of the other side (that side is empty or its best price is
    out of reach): the call returns the id "O" followed by the counter plus
    one, emits no trade and draws no trade id; the new order is the new
    object, it is in the index, it stands at the back of the level of its
    price on its side, the other side is untouched, and the four
    projections are those of a fresh scan. *)
Theorem passive_submit_rests dis ty p qty sym client s :
  0 < p -> 0 < qty -> crosses ty p (book s) = false ->
  exists s',
    submit_order dis ty p qty sym client s
      = Returns ("O" +:+ pretty (orderCounter s + 1), s') /\
    out s' = out s /\ draws s' = draws s /\
    orderCounter s' = orderCounter s + 1 /\
    heap s' = heap s ++ [new_Order ("O" +:+ pretty (orderCounter s + 1)) ty p qty sym client] /\
    get_order ("O" +:+ pretty (orderCounter s + 1)) s' = Some (length (heap s)) /\
    side (opposite ty) (book s') = side (opposite ty) (book s) /\
    side ty (book s') = level_push ty p (length (heap s)) (side ty (book s)) /\
    projections (book s') = fresh_scan s'.
Proof.
  intros Hp Hq Hc. unfold submit_order.
  replace (qty <=? 0) with false by lia. replace (p <=? 0) with false by lia.
  cbn [orb generate_order_id alloc heap].
  set (id := "O" +:+ pretty (orderCounter s + 1)).
  set (o := new_Order id ty p qty sym client).
  set (s0 := set_heap _ _).
  assert (deref (heap s0) (length (heap s)) = o) as Ho.
  { unfold s0, deref. simpl. by rewrite lookup_app_r, Nat.sub_diag. }
  unfold match_order. rewrite Ho. cbn [o new_Order quantity].
  replace (qty <=? 0) with false by lia.
  cbn [match_loop]. rewrite match_step_passive.
  2: { rewrite Ho. unfold getRemainingQuantity. simpl. lia. }
  2: { rewrite Ho. simpl. exact Hc. }
  cbn [mbind outcome_bind]. rewrite Ho.
  replace (0 <? getRemainingQuantity o) with true
    by (unfold getRemainingQuantity; simpl; lia).
  eexists. split; [reflexivity|].
  unfold add_order. rewrite Ho. cbn [o new_Order quantity type price orderId].
  replace (qty <=? 0) with false by lia.
  unfold get_order. destruct ty; simpl; repeat split; try done; apply lookup_insert_eq.
Qed.

Lemma passive_submit_rests_witness :
  exists s,
    session example_draws [SUBMIT SELL 10100 10 "X" "c"] init = Returns s /\
    crosses BUY 9900 (book s) = false /\
    exists s',
      submit_order example_draws BUY 9900 10 "X" "c" s
        = Returns ("O" +:+ pretty (orderCounter s + 1), s') /\
      out s' = out s /\ draws s' = draws s /\
      orderCounter s' = orderCounter s + 1 /\
      heap s' = heap s ++ [new_Order ("O" +:+ pretty (orderCounter s + 1)) BUY 9900 10 "X" "c"] /\
      get_order ("O" +:+ pretty (orderCounter s + 1)) s' = Some (length (heap s)) /\
      side (opposite BUY) (book s') = side (opposite BUY) (book s) /\
      side BUY (book s') = level_push BUY 9900 (length (heap s)) (side BUY (book s)) /\
      projections (book s') = fresh_scan s'.
Proof.
  eexists. split; [vm_compute; reflexivity|]. split; [reflexivity|].
  apply (passive_submit_rests example_draws BUY 9900 10 "X" "c"); [lia|lia|reflexivity].
Defined.

(** X7: in every state a session reaches, a valid submit that reaches the
    best price of the other side for less than what remains of the order at
    the front of that level returns with one trade for the submitted
    quantity between the new order and that order, priced at the price of the
    level for a buy and at the limit of the new order for a sell.  Both
    orders are filled by that quantity, the new order is not in the index,
    and the book, with its four projections, is unchanged: the size of the
    level is not refreshed. *)
Theorem partial_fill_of_the_front dis rs s ty p qty sym client best maker v m :
  session dis rs init = Returns s ->
  0 < p -> 0 < qty ->
  side (opposite ty) (book s) = (best, maker :: v) :: m ->
  out_of_reach ty best p = false ->
  qty < getRemainingQuantity (deref (heap s) maker) ->
  exists s',
    submit_order dis ty p qty sym client s
      = Returns ("O" +:+ pretty (orderCounter s + 1), s') /\
    book s' = book s /\
    out s' = out s ++
      [match ty with
       | BUY => mkTrade ("T" +:+ pretty (dis (draws s)))
                  ("O" +:+ pretty (orderCounter s + 1)) (orderId (deref (heap s) maker))
                  sym best qty
       | SELL => mkTrade ("T" +:+ pretty (dis (draws s)))
                  (orderId (deref (heap s) maker)) ("O" +:+ pretty (orderCounter s + 1))
                  (symbol (deref (heap s) maker)) p qty
       end] /\
    deref (heap s') maker = fill qty (deref (heap s) maker) /\
    deref (heap s') (length (heap s))
      = fill qty (new_Order ("O" +:+ pretty (orderCounter s + 1)) ty p qty sym client) /\
    get_order ("O" +:+ pretty (orderCounter s + 1)) s' = None.
Proof.
  intros Hs Hp Hq Hside Hreach Hlt.
  destruct (session_good dis _ _ _ good_init Hs) as [Hwf _].
  pose proof (submit_run_inv ty p qty sym client s Hwf) as Hinv.
  destruct (wf_front_live _ _ _ _ _ _ Hwf Hside) as [Hlive Hom].
  destruct Hlive as (Hmk & _ & Hpr & _).
  unfold submit_order.
  replace (qty <=? 0) with false by lia. replace (p <=? 0) with false by lia.
  simpl in Hinv |- *.
  set (id := "O" +:+ pretty (orderCounter s + 1)) in *.
  set (o := new_Order id ty p qty sym client) in *.
  set (s0 := set_heap (heap s ++ [o]) _) in *.
  set (t := length (heap s)) in *.
  assert (deref (heap s0) t = o) as Hd by apply deref_alloc.
  assert (deref (heap s0) maker = deref (heap s) maker) as Hdm
    by (simpl; by rewrite deref_app_l).
  assert (getRemainingQuantity o = qty) as Hro by (unfold getRemainingQuantity; simpl; lia).
  assert (open_order o) as Hoo.
  { unfold open_order. simpl. split; [lia|done]. }
  pose proof Hinv as (_ & _ & _ & Hnone & _).
  rewrite Hd in Hnone. change (orderId o) with id in Hnone.
  unfold match_order. rewrite Hd. cbn [o new_Order quantity].
  replace (qty <=? 0) with false by lia.
  rewrite match_loop_S, (match_step_front dis t s0 best maker v m Hinv);
    [|by rewrite Hd|by rewrite Hd|rewrite Hd; lia|right; rewrite Hd, Hdm; lia].
  assert (exists b a, ((b = t /\ a = maker) \/ (b = maker /\ a = t)) /\
            taker_trade dis t maker s0 = execute_trade dis b a qty s0 /\
            trade_of dis b a qty s0 =
              match ty with
              | BUY => mkTrade ("T" +:+ pretty (dis (draws s))) id
                         (orderId (deref (heap s) maker)) sym best qty
              | SELL => mkTrade ("T" +:+ pretty (dis (draws s)))
                         (orderId (deref (heap s) maker)) id
                         (symbol (deref (heap s) maker)) p qty
              end) as (b & a & Hba & Htt & Htr).
  { unfold taker_trade. rewrite Hd, Hdm, Hro, Z.min_l by lia.
    unfold trade_of. change (type o) with ty.
    destruct ty; [exists t, maker|exists maker, t];
      (split; [auto|]); (split; [done|]); rewrite Hd, Hdm; simpl; by rewrite ?Hpr. }
  rewrite Htt.
  destruct (execute_trade_wf dis b a t maker qty s0 (opposite ty) best v m Hba Hinv)
    as (_ & _ & Hdt1 & Hdm1 & _ & _ & Hbook); [by rewrite ?Hd|by rewrite Hd|done|
      rewrite Hd; lia|rewrite Hdm; lia|].
  destruct (execute_trade_frame dis b a qty s0) as (_ & Hout & _).
  set (s1 := execute_trade dis b a qty s0) in *.
  rewrite Hd in Hdt1. rewrite Hdm in Hdm1, Hbook. specialize (Hbook Hlt).
  assert (getRemainingQuantity (deref (heap s1) t) = 0) as Hr1.
  { rewrite Hdt1, fill_remaining. lia. }
  clearbody s1.
  rewrite match_loop_S. unfold match_step. rewrite Hr1.
  change (0 <? 0) with false. cbn [negb mbind outcome_bind]. rewrite Hr1.
  change (0 <? 0) with false. cbv iota.
  eexists. split; [reflexivity|]. split; [done|].
  split; [by rewrite Hout, Htr|]. split; [done|]. split; [done|].
  unfold get_order. rewrite Hbook. exact Hnone.
Qed.

Lemma partial_fill_of_the_front_witness :
  exists s,
    session example_draws example_requests init = Returns s /\
    side (opposite BUY) (book s) = [(10000, [2%nat])] /\
    1 < getRemainingQuantity (deref (heap s) 2%nat) /\
    exists s',
      submit_order example_draws BUY 10020 1 "X" "c" s
        = Returns ("O" +:+ pretty (orderCounter s + 1), s') /\
      book s' = book s /\
      out s' = out s ++
        [mkTrade ("T" +:+ pretty (example_draws (draws s)))
           ("O" +:+ pretty (orderCounter s + 1)) (orderId (deref (heap s) 2%nat))
           "X" 10000 1] /\
      deref (heap s') 2%nat = fill 1 (deref (heap s) 2%nat) /\
      deref (heap s') (length (heap s))
        = fill 1 (new_Order ("O" +:+ pretty (orderCounter s + 1)) BUY 10020 1 "X" "c") /\
      get_order ("O" +:+ pretty (orderCounter s + 1)) s' = None.
Proof.
  eexists. split; [vm_compute; reflexivity|]. split; [reflexivity|].
  split; [by vm_compute|].
  apply (partial_fill_of_the_front example_draws example_requests _ BUY 10020 1 "X" "c"
           10000 2%nat [] []);
    [vm_compute; reflexivity|lia|lia|reflexivity|reflexivity|by vm_compute].
Defined.

(** X8: in every state a session reaches, a valid submit that reaches the
    best price of the other side, where one order stands alone, for at least
    what remains of that order, does not return: [execute_trade] fills the
    resting order and [remove_order] erases its level, and [match_order]
    then reads [isFullyFilled()] through its reference into the erased
    level. *)
Theorem filling_a_lone_order_dangles dis rs s ty p qty sym client best maker m :
  session dis rs init = Returns s ->
  0 < p -> 0 < qty ->
  side (opposite ty) (book s) = (best, [maker]) :: m ->
  out_of_reach ty best p = false ->
  getRemainingQuantity (deref (heap s) maker) <= qty ->
  submit_order dis ty p qty sym client s = UseAfterFree.
Proof.
  intros Hs Hp Hq Hside Hreach Hle.
  destruct (session_good dis _ _ _ good_init Hs) as [Hwf _].
  pose proof (submit_run_inv ty p qty sym client s Hwf) as Hinv.
  assert (maker < length (heap s))%nat as Hmk.
  { apply (wf_closed _ Hwf (opposite ty)). rewrite Hside, addrs_cons.
    apply elem_of_app. left. by left. }
  unfold submit_order.
  replace (qty <=? 0) with false by lia. replace (p <=? 0) with false by lia.
  simpl in Hinv |- *.
  set (o := new_Order _ ty p qty sym client) in *.
  set (s0 := set_heap (heap s ++ [o]) _) in *.
  assert (deref (heap s0) (length (heap s)) = o) as Hd by apply deref_alloc.
  assert (deref (heap s0) maker = deref (heap s) maker) as Hdm
    by (simpl; by rewrite deref_app_l).
  unfold match_order. rewrite Hd. cbn [o new_Order quantity].
  replace (qty <=? 0) with false by lia. cbn [match_loop].
  rewrite (match_step_lone dis _ s0 best maker m Hinv); [done|..].
  - by rewrite Hd.
  - by rewrite Hd.
  - rewrite Hd. unfold getRemainingQuantity. simpl. lia.
  - rewrite Hd, Hdm. unfold getRemainingQuantity at 2. simpl. lia.
Qed.

Lemma filling_a_lone_order_dangles_witness :
  exists s,
    session example_draws example_requests init = Returns s /\
    side (opposite BUY) (book s) = [(10000, [2%nat])] /\
    getRemainingQuantity (deref (heap s) 2%nat) <= 2 /\
    submit_order example_draws BUY 10000 2 "X" "c" s = UseAfterFree.
Proof.
  eexists. split; [vm_compute; reflexivity|]. split; [reflexivity|].
  split; [by vm_compute|].
  apply (filling_a_lone_order_dangles example_draws example_requests _ BUY 10000 2 "X" "c"
           10000 2%nat []); [vm_compute; reflexivity|lia|lia|reflexivity|reflexivity|by vm_compute].
Defined.

(** ** The loop of the matching run *)

(** X9: the loop of [match_order] ends, from any state and for any incoming
    order, within two turns more than the book has levels and queued orders:
    with that many turns or more the loop gives the same result, which is
    not the exhaustion of the bound. *)
Theorem matching_terminates dis t s fuel :
  (S (S (book_weight (book s))) <= fuel)%nat ->
  match_loop dis fuel t s = match_loop dis (S (S (book_weight (book s)))) t s /\
  match_loop dis fuel t s ≠ OutOfFuel.
Proof.
  intros Hle.
  assert (match_loop dis (S (S (book_weight (book s)))) t s ≠ OutOfFuel) as Hne.
  { apply match_loop_fuel. unfold measure. case_match; lia. }
  rewrite (match_loop_fuel_mono dis _ fuel t s Hne Hle). done.
Qed.

Lemma matching_terminates_witness :
  exists s,
    session example_draws example_requests init = Returns s /\
    (S (S (book_weight (book s))) <= 100)%nat /\
    match_loop example_draws 100 0%nat s
      = match_loop example_draws (S (S (book_weight (book s)))) 0%nat s /\
    match_loop example_draws 100 0%nat s ≠ OutOfFuel.
Proof.
  eexists. split; [vm_compute; reflexivity|].
  split; [vm_compute; lia|].
  apply (matching_terminates example_draws 0%nat _ 100). vm_compute. lia.
Defined.

(** X10: in the matching run of a submit in a state a session reaches, every
    turn of the loop that goes on to the next has found an order at the front
    of the best level of the other side and is exactly the call of
    [execute_trade] with it, which emits one sound trade.  The two erasures
    of [match_order], of an empty level and of a filled front order, change
    nothing: [remove_order] has done it before. *)
Theorem every_turn_is_one_trade dis rs s ty p qty sym client n s1 s2 :
  session dis rs init = Returns s ->
  turns dis n (length (heap s))
    (alloc (new_Order (generate_order_id s).1 ty p qty sym client)
           (generate_order_id s).2).2 = Some s1 ->
  match_step dis (length (heap s)) s1 = Continue s2 ->
  exists best maker v m,
    side (opposite ty) (book s1) = (best, maker :: v) :: m /\
    s2 = taker_trade dis (length (heap s)) maker s1 /\
    exists tr, out s2 = out s1 ++ [tr] /\ trade_ok (heap s2) tr.
Proof.
  intros Hs Hn Hstep. destruct (session_good dis _ _ _ good_init Hs) as [Hwf _].
  pose proof (submit_run_inv ty p qty sym client s Hwf) as Hinv.
  destruct (turns_inv _ _ _ _ _ Hinv Hn) as [Hinv1 Hty].
  destruct (match_step_inv _ _ _ _ Hinv1 Hstep) as (_ & Htr & best & maker & v & m & Hside & ->).
  exists best, maker, v, m. split; [|done].
  rewrite <- Hside, Hty. simpl. by rewrite deref_alloc.
Qed.

Lemma every_turn_is_one_trade_witness :
  exists s s1 s2,
    session example_draws
      [SUBMIT SELL 10000 30 "X" "c"; SUBMIT SELL 10000 100 "X" "c";
       SUBMIT SELL 10000 50 "X" "c"] init = Returns s /\
    turns example_draws 1 (length (heap s))
      (alloc (new_Order (generate_order_id s).1 BUY 10050 170 "X" "c")
             (generate_order_id s).2).2 = Some s1 /\
    match_step example_draws (length (heap s)) s1 = Continue s2 /\
    exists best maker v m,
      side (opposite BUY) (book s1) = (best, maker :: v) :: m /\
      s2 = taker_trade example_draws (length (heap s)) maker s1 /\
      exists tr, out s2 = out s1 ++ [tr] /\ trade_ok (heap s2) tr.
Proof.
  eexists. eexists. eexists. split; [vm_compute; reflexivity|].
  split; [vm_compute; reflexivity|].
  split; [vm_compute; reflexivity|].
  eapply (every_turn_is_one_trade example_draws
            [SUBMIT SELL 10000 30 "X" "c"; SUBMIT SELL 10000 100 "X" "c";
       SUBMIT SELL 10000 50 "X" "c"]
            _ BUY 10050 170 "X" "c" 1);
    vm_compute; reflexivity.
Defined.

(** ** Modify and cancel *)

(** X11: [modify_order] does not test the new quantity.  For a PENDING order
    of the index and a new quantity that is not positive, the call answers
    [true]; what it has done is the cancel: the book is that after
    [cancel_order], the id is in the index no more, the old order is
    CANCELLED, no trade is emitted and no id is drawn. *)
Theorem modify_to_nothing_cancels dis id newPrice newQuantity s a :
  get_order id s = Some a ->
  status (deref (heap s) a) = PENDING ->
  newQuantity <= 0 ->
  exists s',
    modify_order dis id newPrice newQuantity s = Returns (true, s') /\
    book s' = book (cancel_order id s).2 /\
    get_order id s' = None /\
    status (deref (heap s') a) = CANCELLED /\
    out s' = out s /\ orderCounter s' = orderCounter s.
Proof.
  intros Hget Hst Hq. unfold modify_order. rewrite Hget, decide_True by done.
  cbn [alloc]. unfold match_order.
  set (s1 := (cancel_order id s).2).
  set (o := new_Order id _ newPrice newQuantity _ _).
  change (heap (set_heap ?h ?x)) with h.
  rewrite deref_alloc. cbn [o new_Order quantity].
  replace (newQuantity <=? 0) with true by lia. cbn [mbind outcome_bind].
  eexists. split; [reflexivity|]. split; [done|].
  split; [apply cancel_order_gone|].
  destruct (cancel_order_frame id s) as (Hlen & Hout & _).
  pose proof (cancel_order_shrinks id s) as [_ _ _ Hctr].
  split; [|by split].
  change (heap (set_heap ?h ?x)) with h.
  assert (a < length (heap s))%nat as Ha.
  { destruct (decide (a < length (heap s))%nat) as [|Hn]; [done|].
    unfold deref in Hst. rewrite lookup_ge_None_2 in Hst by lia. done. }
  rewrite deref_app_l by (fold s1 in Hlen; lia).
  unfold s1, cancel_order. unfold get_order in Hget. rewrite Hget.
  destruct (remove_order_frame id
    (set_heap (<[a:=cancel (deref (heap s) a)]> (heap s)) s)) as (-> & _).
  cbn [heap set_heap]. rewrite deref_insert by done. by rewrite decide_True.
Qed.

Lemma modify_to_nothing_cancels_witness :
  exists s,
    session example_draws [SUBMIT BUY 10000 10 "X" "c"] init = Returns s /\
    get_order "O1" s = Some 0%nat /\
    exists s',
      modify_order example_draws "O1" 10000 0 s = Returns (true, s') /\
      book s' = book (cancel_order "O1" s).2 /\
      get_order "O1" s' = None /\
      status (deref (heap s') 0%nat) = CANCELLED /\
      out s' = out s /\ orderCounter s' = orderCounter s.
Proof.
  eexists. split; [vm_compute; reflexivity|]. split; [by vm_compute|].
  apply (modify_to_nothing_cancels example_draws "O1" 10000 0 _ 0%nat);
    [by vm_compute|by vm_compute|lia].
Defined.

(** X12: in every state a session reaches, [cancel_order] of an id of the
    index answers [true], sets the status of that order to CANCELLED and
    changes no other object, takes the id out of the index and that order,
    and no other, out of the ladders, and leaves the four projections those
    of a fresh scan. *)
Theorem cancel_takes_one_order dis rs s id a :
  session dis rs init = Returns s ->
  get_order id s = Some a ->
  (cancel_order id s).1 = true /\
  heap (cancel_order id s).2 = <[a := cancel (deref (heap s) a)]> (heap s) /\
  status (deref (heap (cancel_order id s).2) a) = CANCELLED /\
  orderMap (book (cancel_order id s).2) = delete id (orderMap (book s)) /\
  (forall ty x, x ∈ addrs (side ty (book (cancel_order id s).2)) <->
                x ∈ addrs (side ty (book s)) /\ x ≠ a) /\
  projections (book (cancel_order id s).2) = fresh_scan (cancel_order id s).2.
Proof.
  intros Hs Hget. destruct (session_good dis _ _ _ good_init Hs) as [Hwf _].
  pose proof (wf_cancel_order id s Hwf) as Hwf'.
  pose proof (cancel_order_shrinks id s) as [[_ Hst] _ _ _].
  split; [by eapply cancel_order_found|].
  set (s' := (cancel_order id s).2) in *.
  unfold get_order in Hget.
  destruct (wf_index_live _ _ _ Hwf Hget) as (Hid & Hlive & _).
  destruct Hlive as (Hlt & _).
  assert (heap s' = <[a := cancel (deref (heap s) a)]> (heap s) /\
          orderMap (book s') = delete id (orderMap (book s)) /\
          projections (book s') = fresh_scan s') as (Hheap & Hmap & Hproj).
  { unfold s', cancel_order. rewrite Hget.
    set (s0 := set_heap _ s). unfold remove_order.
    change (orderMap (book s0)) with (orderMap (book s)). rewrite Hget.
    destruct (level_find _ _) as [v|]; [destruct (strip _ _ v)|];
      by destruct (type (deref (heap s0) a)). }
  split; [done|]. split; [rewrite Hheap, deref_insert; by rewrite decide_True|].
  split; [done|]. split; [|done].
  intros ty x. split.
  - intros Hx. destruct (wf_but_index_of _ _ _ _ Hwf' Hx) as [(_ & Hty & _ & _ & Hm) _].
    rewrite Hmap in Hm. apply lookup_delete_Some in Hm as [Hne Hm].
    destruct (wf_index _ _ Hwf _ _ Hm) as (Hidx & v & Hv & Hxv).
    destruct (Hst x) as (Hix & Htx & _). split.
    + rewrite <- Hty, Htx. apply elem_addrs. eexists. split; [by eapply level_find_elem|done].
    + intros ->. congruence.
  - intros [Hx Hne].
    destruct (wf_but_index_of _ _ _ _ Hwf Hx) as [(_ & Hty & _ & _ & Hm) _].
    assert (orderMap (book s') !! orderId (deref (heap s) x) = Some x) as Hm'.
    { rewrite Hmap. apply lookup_delete_Some. split; [|done]. intros Heq.
      rewrite <- Heq, Hget in Hm. by injection Hm. }
    destruct (wf_index _ _ Hwf' _ _ Hm') as (_ & v & Hv & Hxv).
    destruct (Hst x) as (_ & Htx & _). rewrite <- Hty, <- Htx.
    apply elem_addrs. eexists. split; [by eapply level_find_elem|done].
Qed.

Lemma cancel_takes_one_order_witness :
  exists s,
    session example_draws example_requests init = Returns s /\
    get_order "O3" s = Some 2%nat /\
    (cancel_order "O3" s).1 = true /\
    heap (cancel_order "O3" s).2 = <[2%nat := cancel (deref (heap s) 2%nat)]> (heap s) /\
    status (deref (heap (cancel_order "O3" s).2) 2%nat) = CANCELLED /\
    orderMap (book (cancel_order "O3" s).2) = delete "O3" (orderMap (book s)) /\
    (forall ty x, x ∈ addrs (side ty (book (cancel_order "O3" s).2)) <->
                  x ∈ addrs (side ty (book s)) /\ x ≠ 2%nat) /\
    projections (book (cancel_order "O3" s).2) = fresh_scan (cancel_order "O3" s).2.
Proof.
  eexists. split; [vm_compute; reflexivity|]. split; [by vm_compute|].
  apply (cancel_takes_one_order example_draws example_requests);
    [vm_compute; reflexivity|by vm_compute].
Defined.

(** ** Order ids and their counter *)



(** X14: in every state a session reaches, a valid submit that returns gives
    out the id "O" followed by [get_total_orders] plus one; the new object
    carries it and no object that existed before does. *)
Theorem order_ids_are_fresh dis rs s ty p qty sym client id s' :
  session dis rs init = Returns s ->
  0 < p -> 0 < qty ->
  submit_order dis ty p qty sym client s = Returns (id, s') ->
  id = "O" +:+ pretty (get_total_orders s + 1) /\
  orderId (deref (heap s') (length (heap s))) = id /\
  forall a, (a < length (heap s))%nat -> orderId (deref (heap s') a) ≠ id.
Proof.
  intros Hs Hp Hq Hsub.
  pose proof (session_known_ids dis rs init s good_init ltac:(constructor) Hs) as Hk.
  revert Hsub. unfold submit_order.
  replace (qty <=? 0) with false by lia. replace (p <=? 0) with false by lia. simpl.
  destruct (match_order _ _ _) as [s2| |] eqn:Hm; simpl; [|done..].
  intros [= <- <-]. split; [done|].
  destruct (match_order_static _ _ _ _ Hm) as [_ Hst]. simpl in Hst.
  split.
  - destruct (Hst (length (heap s))) as (-> & _). by rewrite deref_alloc.
  - intros a Ha. destruct (Hst a) as (-> & _). rewrite deref_app_l by done.
    rewrite Forall_by_deref in Hk. destruct (Hk a Ha) as (k & Hkr & ->).
    intros Heq%order_id_inj. lia.
Qed.

Lemma order_ids_are_fresh_witness :
  exists s s',
    session example_draws example_requests init = Returns s /\
    submit_order example_draws BUY 9000 1 "X" "c" s = Returns ("O5", s') /\
    "O5" = "O" +:+ pretty (get_total_orders s + 1) /\
    orderId (deref (heap s') (length (heap s))) = "O5" /\
    forall a, (a < length (heap s))%nat -> orderId (deref (heap s') a) ≠ "O5".
Proof.
  eexists. eexists. split; [vm_compute; reflexivity|].
  split; [vm_compute; reflexivity|].
  apply (order_ids_are_fresh example_draws example_requests _ BUY 9000 1 "X" "c");
    [vm_compute; reflexivity|lia|lia|vm_compute; reflexivity].
Defined.

(** ** Market data *)

(** The sizes are sums in an [int]: two bids of 2147483647 at one price, both
    valid, and the size of their level is -2, in the projection and in the
    depth, where the orders have 4294967294 left between them. *)
Lemma level_size_wraps :
  exists s,
    session example_draws
      [SUBMIT BUY 10000 2147483647 "X" "c"; SUBMIT BUY 10000 2147483647 "X" "c"] init
      = Returns s /\
    projections (book s) = fresh_scan s /\
    get_bid_size (book s) = -2 /\
    get_bid_depth 1 s = [(10000, -2)] /\
    front_total (heap s) (buyOrders (book s)) = 4294967294.
Proof. eexists. split; [vm_compute; reflexivity|]. by vm_compute. Qed.


(** X16: in every state a session reaches, the depth of the bids is in
    strictly decreasing order of price and the depth of the asks in strictly
    increasing order.  When what remains of the orders of every level of a
    side adds up to less than 2^31, each size listed for that side is that
    sum and is positive. *)
Theorem depth_is_ordered_and_positive dis rs s levels :
  session dis rs init = Returns s ->
  StronglySorted (fun x y => y.1 < x.1) (get_bid_depth levels s) /\
  StronglySorted (fun x y => x.1 < y.1) (get_ask_depth levels s) /\
  (Forall (fun l => level_total (heap s) l.2 < 2 ^ 31) (buyOrders (book s)) ->
   get_bid_depth levels s
     = map (fun l => (l.1, level_total (heap s) l.2))
           (take (Z.to_nat levels) (buyOrders (book s))) /\
   Forall (fun x => 0 < x.2) (get_bid_depth levels s)) /\
  (Forall (fun l => level_total (heap s) l.2 < 2 ^ 31) (sellOrders (book s)) ->
   get_ask_depth levels s
     = map (fun l => (l.1, level_total (heap s) l.2))
           (take (Z.to_nat levels) (sellOrders (book s))) /\
   Forall (fun x => 0 < x.2) (get_ask_depth levels s)).
Proof.
  intros Hs. destruct (session_good dis _ _ _ good_init Hs) as [Hwf _].
  unfold get_bid_depth, get_ask_depth. split; [|split; [|split]].
  - eapply StronglySorted_weaken;
      [|apply (depth_loop_sorted _ BUY), (wf_sorted _ _ Hwf BUY)].
    simpl. intros x y. lia.
  - eapply StronglySorted_weaken;
      [|apply (depth_loop_sorted _ SELL), (wf_sorted _ _ Hwf SELL)].
    simpl. intros x y. lia.
  - intros Hfit.
    destruct (depth_loop_exact (heap s) levels 0 (buyOrders (book s))) as [He Hp];
      [apply (Forall_modus _ _ _ (wf_level_sizes s BUY Hwf) Hfit)|].
    rewrite Z.sub_0_r in He. done.
  - intros Hfit.
    destruct (depth_loop_exact (heap s) levels 0 (sellOrders (book s))) as [He Hp];
      [apply (Forall_modus _ _ _ (wf_level_sizes s SELL Hwf) Hfit)|].
    rewrite Z.sub_0_r in He. done.
Qed.

Lemma depth_is_ordered_and_positive_witness :
  exists s,
    session example_draws
      [SUBMIT SELL 10100 10 "X" "c"; SUBMIT SELL 10200 5 "X" "c";
       SUBMIT SELL 10100 7 "X" "c"; SUBMIT BUY 9900 3 "X" "c";
       SUBMIT BUY 9950 4 "X" "c"] init = Returns s /\
    get_bid_depth 2 s = [(9950, 4); (9900, 3)] /\
    get_ask_depth 2 s = [(10100, 17); (10200, 5)] /\
    Forall (fun l => level_total (heap s) l.2 < 2 ^ 31) (buyOrders (book s)) /\
    Forall (fun l => level_total (heap s) l.2 < 2 ^ 31) (sellOrders (book s)) /\
    StronglySorted (fun x y => y.1 < x.1) (get_bid_depth 2 s) /\
    StronglySorted (fun x y => x.1 < y.1) (get_ask_depth 2 s) /\
    Forall (fun x => 0 < x.2) (get_bid_depth 2 s) /\
    Forall (fun x => 0 < x.2) (get_ask_depth 2 s).
Proof.
  eexists. split; [vm_compute; reflexivity|].
  split; [vm_compute; reflexivity|]. split; [vm_compute; reflexivity|].
  match goal with
  | |- Forall _ (buyOrders (book ?s)) /\ _ =>
      destruct (depth_is_ordered_and_positive example_draws
                  [SUBMIT SELL 10100 10 "X" "c"; SUBMIT SELL 10200 5 "X" "c";
                   SUBMIT SELL 10100 7 "X" "c"; SUBMIT BUY 9900 3 "X" "c";
                   SUBMIT BUY 9950 4 "X" "c"] s 2) as (Hb & Ha & Hbs & Has);
        [vm_compute; reflexivity|];
      assert (Forall (fun l => level_total (heap s) l.2 < 2 ^ 31) (buyOrders (book s)))
        as Hfb by (repeat (constructor; [by vm_compute|]); constructor);
      assert (Forall (fun l => level_total (heap s) l.2 < 2 ^ 31) (sellOrders (book s)))
        as Hfa by (repeat (constructor; [by vm_compute|]); constructor)
  end.
  split; [exact Hfb|]. split; [exact Hfa|]. split; [exact Hb|]. split; [exact Ha|].
  split; [apply (Hbs Hfb)|apply (Has Hfa)].
Defined.

(** X17: in a state a session reaches where the four projections are those of
    a fresh scan: if there are bids, [get_best_bid] is the highest bid price,
    and when what remains of the orders of the best level adds up to less
    than 2^31, [get_bid_size] is that sum and is positive; the same for the
    asks, with the lowest ask price; if there are both bids and asks,
    [get_spread] is positive. *)
Theorem fresh_projections_are_the_best dis rs s :
  session dis rs init = Returns s ->
  projections (book s) = fresh_scan s ->
  (buyOrders (book s) ≠ [] ->
     is_highest (get_best_bid (book s)) (keys (buyOrders (book s))) /\
     (front_total (heap s) (buyOrders (book s)) < 2 ^ 31 ->
      get_bid_size (book s) = front_total (heap s) (buyOrders (book s)) /\
      0 < get_bid_size (book s))) /\
  (sellOrders (book s) ≠ [] ->
     is_lowest (get_best_ask (book s)) (keys (sellOrders (book s))) /\
     (front_total (heap s) (sellOrders (book s)) < 2 ^ 31 ->
      get_ask_size (book s) = front_total (heap s) (sellOrders (book s)) /\
      0 < get_ask_size (book s))) /\
  (buyOrders (book s) ≠ [] -> sellOrders (book s) ≠ [] -> 0 < get_spread (book s)).
Proof.
  intros Hs Hfresh. destruct (session_good dis _ _ _ good_init Hs) as [Hwf _].
  pose proof (session_uncrossed _ _ _ _ Hs uncrossed_empty) as [_ _ Hcross].
  unfold projections, fresh_scan in Hfresh.
  injection Hfresh as Hbb Hba Hbs Has.
  unfold get_best_bid, get_best_ask, get_bid_size, get_ask_size, get_spread.
  rewrite Hbb, Hba, Hbs, Has.
  pose proof (wf_sorted _ _ Hwf BUY) as Hsb. pose proof (wf_sorted _ _ Hwf SELL) as Hsa.
  pose proof (wf_level_sizes s BUY Hwf) as Hzb.
  pose proof (wf_level_sizes s SELL Hwf) as Hza.
  unfold no_cross in Hcross. cbn [side] in Hsb, Hsa, Hzb, Hza.
  assert (forall ty p v m, sorted ty ((p, v) :: m) ->
            Forall (fun l => level_total (heap s) l.2 < 2 ^ 31 ->
                             level_size (heap s) l.2 = level_total (heap s) l.2 /\
                             0 < level_size (heap s) l.2) ((p, v) :: m) ->
            (forall k, k ∈ keys ((p, v) :: m) -> before ty k p = false) /\
            (front_total (heap s) ((p, v) :: m) < 2 ^ 31 ->
             front_size (heap s) ((p, v) :: m) = front_total (heap s) ((p, v) :: m) /\
             0 < front_size (heap s) ((p, v) :: m))) as Hfront.
  { intros ty p v m Hsorted Hz. split; [by apply sorted_front_best|].
    by apply Forall_cons in Hz as [Hz _]. }
  destruct (buyOrders (book s)) as [|[pb vb] mb];
    destruct (sellOrders (book s)) as [|[pa va] ma].
  - done.
  - split; [done|]. split; [|done]. intros _.
    destruct (Hfront SELL _ _ _ Hsa Hza) as [Hk Hsz]. split; [|exact Hsz].
    split; [rewrite keys_cons; by left|]. intros k Hin.
    specialize (Hk k Hin). simpl in *. lia.
  - split; [|done]. intros _.
    destruct (Hfront BUY _ _ _ Hsb Hzb) as [Hk Hsz]. split; [|exact Hsz].
    split; [rewrite keys_cons; by left|]. intros k Hin.
    specialize (Hk k Hin). simpl in *. lia.
  - split; [|split].
    + intros _. destruct (Hfront BUY _ _ _ Hsb Hzb) as [Hk Hsz]. split; [|exact Hsz].
      split; [rewrite keys_cons; by left|]. intros k Hin.
      specialize (Hk k Hin). simpl in *. lia.
    + intros _. destruct (Hfront SELL _ _ _ Hsa Hza) as [Hk Hsz]. split; [|exact Hsz].
      split; [rewrite keys_cons; by left|]. intros k Hin.
      specialize (Hk k Hin). simpl in *. lia.
    + intros _ _. specialize (Hcross pb pa). rewrite !keys_cons in Hcross.
      specialize (Hcross ltac:(by left) ltac:(by left)). simpl. lia.
Qed.

Lemma fresh_projections_are_the_best_witness :
  exists s,
    session example_draws example_requests init = Returns s /\
    projections (book s) = fresh_scan s /\
    get_best_bid (book s) = 9950 /\ get_best_ask (book s) = 10000 /\
    front_total (heap s) (buyOrders (book s)) < 2 ^ 31 /\
    front_total (heap s) (sellOrders (book s)) < 2 ^ 31 /\
    is_highest (get_best_bid (book s)) (keys (buyOrders (book s))) /\
    0 < get_bid_size (book s) /\
    is_lowest (get_best_ask (book s)) (keys (sellOrders (book s))) /\
    0 < get_ask_size (book s) /\
    0 < get_spread (book s).
Proof.
  eexists. split; [vm_compute; reflexivity|]. split; [reflexivity|].
  split; [reflexivity|]. split; [reflexivity|].
  split; [vm_compute; reflexivity|]. split; [vm_compute; reflexivity|].
  match goal with
  | |- is_highest _ (keys (buyOrders (book ?s))) /\ _ =>
      assert (session example_draws example_requests init = Returns s) as Hs
        by (vm_compute; reflexivity);
      assert (projections (book s) = fresh_scan s) as Hf by reflexivity;
      pose proof (fresh_projections_are_the_best example_draws example_requests s Hs Hf)
        as H
  end.
  destruct H as (Hb & Ha & Hsp).
  assert (is_highest (get_best_bid (book _)) _ /\ _) as [Hbest Hbsize]
    by (apply Hb; vm_compute; discriminate).
  assert (is_lowest (get_best_ask (book _)) _ /\ _) as [Hlow Hasize]
    by (apply Ha; vm_compute; discriminate).
  assert (_ /\ 0 < get_bid_size (book _)) as [_ Hbpos]
    by (apply Hbsize; vm_compute; reflexivity).
  assert (_ /\ 0 < get_ask_size (book _)) as [_ Hapos]
    by (apply Hasize; vm_compute; reflexivity).
  split; [exact Hbest|]. split; [exact Hbpos|]. split; [exact Hlow|].
  split; [exact Hapos|]. apply Hsp; vm_compute; discriminate.
Defined.

(** ** Batches *)

(** X18: [process_orders_batch], from any state and for any orders: the
    call does not exhaust the bound of the loop; when it returns,
    [get_total_orders] is what it was, the static fields of every object are
    unchanged, the trades emitted carry the next draws in order, and a book
    that was not crossed is not crossed. *)
Theorem batch_draws_no_order_id dis orders s :
  process_orders_batch dis orders s ≠ OutOfFuel /\
  forall s',
    process_orders_batch dis orders s = Returns s' ->
    get_total_orders s' = get_total_orders s /\
    same_static (heap s) (heap s') /\
    emits dis s s' /\
    (uncrossed (book s) -> uncrossed (book s')).
Proof.
  revert s. induction orders as [|[t|] orders IH]; intros s; simpl.
  - split; [done|]. intros s' [= <-]. split; [done|]. split; [apply same_static_refl|].
    split; [apply emits_refl|done].
  - destruct (0 <? quantity (deref (heap s) t)); [|apply IH].
    pose proof (match_order_fuel dis t s) as Hf.
    destruct (match_order dis t s) as [s1| |] eqn:Hm; simpl; [|done..].
    destruct (IH s1) as [Hne Hs1]. split; [done|]. intros s' Hs'.
    destruct (Hs1 s' Hs') as (Hc & Hst & Hem & Hun).
    unfold get_total_orders in *. split; [|split; [|split]].
    + by rewrite Hc, (match_order_counter _ _ _ _ Hm).
    + eapply same_static_trans; [by eapply match_order_static|done].
    + eapply emits_trans; [by eapply match_order_emits|done].
    + intros Hu. by apply Hun, (match_order_uncrossed _ _ _ _ Hm).
  - apply IH.
Qed.

(** An instance: a sell that rests, a null pointer, an order of quantity 0
    that is skipped, and a buy that trades with the sell. *)
Lemma batch_draws_no_order_id_witness :
  exists s s',
    s = set_heap [mkOrder "CSV_1" SELL 10000 10 0 PENDING "X" "CSV_CLIENT";
                  mkOrder "CSV_2" BUY 10000 4 0 PENDING "X" "CSV_CLIENT";
                  mkOrder "CSV_3" BUY 10000 0 0 PENDING "X" "CSV_CLIENT"] init /\
    process_orders_batch example_draws [Some 0%nat; None; Some 2%nat; Some 1%nat] s
      = Returns s' /\
    length (out s') = 1%nat /\
    get_total_orders s' = get_total_orders s /\
    same_static (heap s) (heap s') /\
    emits example_draws s s' /\
    (uncrossed (book s) -> uncrossed (book s')).
Proof.
  eexists. eexists. split; [reflexivity|]. split; [vm_compute; reflexivity|].
  split; [reflexivity|].
  apply (batch_draws_no_order_id example_draws
           [Some 0%nat; None; Some 2%nat; Some 1%nat]).
  vm_compute. reflexivity.
Defined.

(** X19: [process_orders_batch] tests only the quantity of an order.  An
    order with a positive quantity of which something remains, as of every
    order just made, whatever its price, that reaches no order of the other
    side is added to the book: it is in the index under its id and stands at
    the back of the level of its price. *)
Theorem batch_order_rests_at_any_price dis t s :
  0 < quantity (deref (heap s) t) ->
  0 < getRemainingQuantity (deref (heap s) t) ->
  crosses (type (deref (heap s) t)) (price (deref (heap s) t)) (book s) = false ->
  process_orders_batch dis [Some t] s = Returns (add_order t s) /\
  get_order (orderId (deref (heap s) t)) (add_order t s) = Some t /\
  exists v, level_find (price (deref (heap s) t))
              (side (type (deref (heap s) t)) (book (add_order t s))) = Some (v ++ [t]).
Proof.
  intros Hq Hrem Hc. simpl. replace (0 <? quantity (deref (heap s) t)) with true by lia.
  rewrite match_order_passive by done. split; [done|].
  apply add_order_rests. lia.
Qed.

Lemma batch_order_rests_at_any_price_witness :
  exists s,
    s = set_heap [mkOrder "CSV_1" SELL (-500) 10 0 PENDING "X" "CSV_CLIENT"] init /\
    price (deref (heap s) 0%nat) = -500 /\
    process_orders_batch example_draws [Some 0%nat] s = Returns (add_order 0%nat s) /\
    get_order (orderId (deref (heap s) 0%nat)) (add_order 0%nat s) = Some 0%nat /\
    exists v, level_find (price (deref (heap s) 0%nat))
                (side (type (deref (heap s) 0%nat)) (book (add_order 0%nat s)))
              = Some (v ++ [0%nat]).
Proof.
  eexists. split; [reflexivity|]. split; [reflexivity|].
  apply (batch_order_rests_at_any_price example_draws 0%nat); by vm_compute.
Defined.

(** ** The servers and the statistics *)

(** X20: [string_to_order_type] after [order_type_to_string] gives the type
    back; the other way round gives the string back exactly for "BUY" and
    "SELL", and a string is read as SELL only when it is "SELL": every other
    string is read as BUY. *)
Theorem order_type_round_trip (t : OrderType) (type : string) :
  string_to_order_type (order_type_to_string t) = t /\
  (order_type_to_string (string_to_order_type type) = type <->
   type = "BUY" \/ type = "SELL") /\
  (string_to_order_type type = SELL <-> type = "SELL").
Proof.
  split; [by destruct t|]. unfold string_to_order_type, order_type_to_string.
  split.
  - destruct (decide (type = "BUY")) as [->|Hb]; [by split; auto|].
    destruct (decide (type = "SELL")) as [->|Hs]; [by split; auto|].
    simpl. split; [intros <-; done|intros [?|?]; done].
  - destruct (decide (type = "BUY")) as [->|Hb]; [done|].
    destruct (decide (type = "SELL")) as [->|Hs]; done.
Qed.

(** X21: [on_trade_executed], called for each trade of a list in order on
    statistics whose history has at most 1000 trades: the history is the
    last 1000 trades of the old history followed by the list, all of them
    when there are fewer, and [totalTrades] has counted every trade of the
    list, modulo 2^64. *)
Theorem trade_history_keeps_the_last trades d :
  (length (tradeHistory d) <= 1000)%nat ->
  0 <= totalTrades d < 2 ^ 64 ->
  tradeHistory (feed trades d)
    = drop (length (tradeHistory d ++ trades) - 1000) (tradeHistory d ++ trades) /\
  (length (tradeHistory (feed trades d)) <= 1000)%nat /\
  totalTrades (feed trades d) = (totalTrades d + Z.of_nat (length trades)) mod 2 ^ 64.
Proof.
  revert d. induction trades as [|tr trades IH]; intros d Hle Hc.
  - simpl. rewrite app_nil_r, Z.add_0_r, Z.mod_small by done.
    replace (length (tradeHistory d) - 1000)%nat with 0%nat by lia. done.
  - change (feed (tr :: trades) d) with (feed trades (on_trade_executed tr d)).
    destruct (feed_step tr d Hle) as [Hh Hl].
    destruct (IH (on_trade_executed tr d) Hl) as (IHh & IHl & IHc).
    { cbn [on_trade_executed totalTrades]. apply Z.mod_pos_bound. lia. }
    split; [|split; [done|]].
    + rewrite IHh, Hh.
      set (h := tradeHistory d ++ [tr]).
      assert (length h = S (length (tradeHistory d))) as Hlen
        by (unfold h; rewrite length_app; simpl; lia).
      replace (tradeHistory d ++ tr :: trades) with (h ++ trades)
        by (unfold h; by rewrite <- app_assoc).
      rewrite <- (drop_app_le h trades) by lia.
      rewrite drop_drop. f_equal. rewrite length_drop, !length_app. lia.
    + rewrite IHc. cbn [on_trade_executed totalTrades length].
      rewrite Zplus_mod_idemp_l. f_equal. lia.
Qed.

Lemma trade_history_keeps_the_last_witness :
  exists s,
    session example_draws
      [SUBMIT SELL 10000 30 "X" "c"; SUBMIT SELL 10000 100 "X" "c";
       SUBMIT BUY 10050 70 "X" "c"] init = Returns s /\
    length (out s) = 2%nat /\
    tradeHistory (feed (out s) no_Stats)
      = drop (length (tradeHistory no_Stats ++ out s) - 1000)
             (tradeHistory no_Stats ++ out s) /\
    (length (tradeHistory (feed (out s) no_Stats)) <= 1000)%nat /\
    totalTrades (feed (out s) no_Stats)
      = (totalTrades no_Stats + Z.of_nat (length (out s))) mod 2 ^ 64.
Proof.
  eexists. split; [vm_compute; reflexivity|]. split; [reflexivity|].
  apply trade_history_keeps_the_last; [simpl; lia|simpl; lia].
Defined.
